(** * java8script: lazy stream pipeline, processors and terminal operations

    A shallow embedding of [src/processor.ts], [src/functions/index.ts] and
    [src/stream/index.ts], with the properties of the stages and of the
    terminal operations proved over it.

    Conventions of the embedding.
    - A JavaScript value of static type [T] that may also be [undefined] or
      [null] is a [JsValue T]; an array is a [list], and an array that
      the code takes over from a caller's function is an object in a
      [Store], which each of its holders changes for all of them.
    - A method of a class is a computation in the monad [Eff]: it reads and
      writes the receiver ([this]), may fail to return (a recursion or a loop
      that runs out of fuel), and records every invocation of a
      caller-supplied callback as an event, in the order of the calls.
    - A [number] that only counts or orders (the result of [count], the
      bound of [limit], the result of a comparator) is an integer ([Z]);
      the numbers of a range, on which the code computes, are IEEE-754
      binary64 values ([Number.t]). *)

From Stdlib Require Import List ZArith Bool Arith Lia.
From Stdlib Require Import Floats.SpecFloat.
Import ListNotations.

Set Implicit Arguments.

(** ** JavaScript values and arrays *)

Inductive JsValue (T : Type) : Type :=
| Undefined : JsValue T
| Null : JsValue T
| Val (v : T) : JsValue T.

Arguments Undefined {T}.
Arguments Null {T}.
Arguments Val {T} v.

(** [Array.prototype.shift]: removes the first element and returns it;
    returns [undefined] on an empty array, which is left empty. *)
Definition shift {T : Type} (a : list (JsValue T)) : JsValue T * list (JsValue T) :=
  match a with
  | [] => (Undefined, [])
  | x :: rest => (x, rest)
  end.

(** [Array.prototype.push], as the array after the call. *)
Definition push {A : Type} (a : list A) (x : A) : list A := a ++ [x].

(** ** The monad of methods: receiver state, partiality, callback events *)

(** A method called on the receiver [s] either returns [Some (a, s', evs)]
    (its result, the receiver after the call, the callbacks it invoked, in
    order) or does not return normally ([None]: it throws, or its recursion
    or loop runs out of fuel). *)
Definition Eff (St Ev A : Type) : Type := St -> option (A * St * list Ev).

Section EffOps.
Context {St Ev : Type}.

Definition ret {A} (a : A) : Eff St Ev A := fun s => Some (a, s, []).

Definition bind {A B} (m : Eff St Ev A) (k : A -> Eff St Ev B) : Eff St Ev B :=
  fun s =>
    match m s with
    | None => None
    | Some (a, s1, e1) =>
        match k a s1 with
        | None => None
        | Some (b, s2, e2) => Some (b, s2, e1 ++ e2)
        end
    end.

Definition get : Eff St Ev St := fun s => Some (s, s, []).

Definition put (s : St) : Eff St Ev unit := fun _ => Some (tt, s, []).

Definition modify (f : St -> St) : Eff St Ev unit := fun s => Some (tt, f s, []).

(** A callback is invoked: the call is recorded. *)
Definition emit (e : Ev) : Eff St Ev unit := fun s => Some (tt, s, [e]).

(** The call does not return normally. *)
Definition abort {A} : Eff St Ev A := fun _ => None.

End EffOps.

Declare Scope eff_scope.
Delimit Scope eff_scope with eff.
Notation "x <- m ;; k" := (bind m (fun x => k))
  (at level 61, m at next level, right associativity) : eff_scope.
Notation "m ;; k" := (bind m (fun _ => k))
  (at level 61, right associativity) : eff_scope.
Open Scope eff_scope.

(** [Array.prototype.filter] with a callback that is a method call. *)
Fixpoint Array_filter {St Ev A} (p : A -> Eff St Ev bool) (a : list A) : Eff St Ev (list A) :=
  match a with
  | [] => ret []
  | x :: rest =>
      b <- p x ;;
      kept <- Array_filter p rest ;;
      ret (if b then x :: kept else kept)
  end.

(** [Array.prototype.forEach] whose callback updates one captured local
    variable: the variable is threaded through the calls. *)
Fixpoint Array_forEach {St Ev A L} (body : L -> A -> Eff St Ev L) (a : list A) (local : L)
  : Eff St Ev L :=
  match a with
  | [] => ret local
  | x :: rest => local' <- body local x ;; Array_forEach body rest local'
  end.

(** ** Optional *)

(** Modelled from the spec: the [Optional] container ([src/optional.ts] is
    not among the sources): "wraps value present or empty"; it supplies
    [present(v)], [empty()], [isPresent()], [get()] (fails on empty),
    [map(f)] and [filter(predicate)].  [ofNullable] is the constructor the
    sources call on a possibly-undefined value: a value that is [undefined]
    or [null] gives the empty optional.  [map] and [filter] invoke their
    callback only on a present value. *)
Module Optional.

Inductive t (T : Type) : Type :=
| Empty : t T
| Present (v : T) : t T.

Arguments Empty {T}.
Arguments Present {T} v.

Definition empty {T} : t T := Empty.

(** [Optional.of] ([of] is reserved in Rocq). *)
Definition of_ {T} (v : T) : t T := Present v.

Definition ofNullable {T} (x : JsValue T) : t T :=
  match x with
  | Val v => Present v
  | Undefined | Null => Empty
  end.

Definition isPresent {T} (o : t T) : bool :=
  match o with Present _ => true | Empty => false end.

(** [get()]: access on empty throws. *)
Definition get {St Ev T} (o : t T) : Eff St Ev T :=
  match o with Present v => ret v | Empty => abort end.

Definition map {St Ev T U} (f : T -> Eff St Ev U) (o : t T) : Eff St Ev (t U) :=
  match o with
  | Empty => ret Empty
  | Present v => u <- f v ;; ret (Present u)
  end.

Definition filter {St Ev T} (p : T -> Eff St Ev bool) (o : t T) : Eff St Ev (t T) :=
  match o with
  | Empty => ret Empty
  | Present v => b <- p v ;; ret (if b then Present v else Empty)
  end.

End Optional.

Abbreviation Optional := Optional.t.
Abbreviation Empty := Optional.Empty.
Abbreviation Present := Optional.Present.

(** ** src/functions/index.ts *)

Definition Predicate (T : Type) : Type := T -> bool.
Definition BiPredicate (T U : Type) : Type := T -> U -> bool.
Definition Transformer (T U : Type) : Type := T -> U.
Definition BiFunction (T : Type) : Type := T -> T -> T.
Definition Supplier (T : Type) : Type := unit -> T.

(** [BiConsumer<T, U>] returns nothing and acts on its first argument, a
    mutable container: it is given as the container after the call. *)
Definition BiConsumer (T U : Type) : Type := T -> U -> T.

(** [i1 === i2] on values that may be [undefined] or [null]; [eqb] is
    strict equality on the values of [T] themselves. *)
Definition strictEquals {T} (eqb : T -> T -> bool) (i1 i2 : JsValue T) : bool :=
  match i1, i2 with
  | Undefined, Undefined => true
  | Null, Null => true
  | Val a, Val b => eqb a b
  | _, _ => false
  end.

(** [BiPredicate.defaultEquality()]. *)
Definition defaultEquality {T} (eqb : T -> T -> bool) : BiPredicate (JsValue T) (JsValue T) :=
  fun i1 i2 => strictEquals eqb i1 i2.

(** ** src/processor.ts *)

(** [AbstractProcessor]: the processing queue, inherited by every
    processor.  A subclass is an instance of [Queue]: it has the field
    [inputs]. *)
Module AbstractProcessor.

Class Queue (P Input : Type) : Type := {
  inputs : P -> list Input;
  set_inputs : list Input -> P -> P
}.

Section Methods.
Context {P T Ev : Type} `{Queue P (JsValue T)}.

Definition add (input : JsValue T) : Eff P Ev unit :=
  modify (fun this => set_inputs (push (inputs this) input) this).

Definition takeNextInput : Eff P Ev (Optional T) :=
  this <- get ;;
  let (x, rest) := shift (inputs this) in
  put (set_inputs rest this) ;;
  ret (Optional.ofNullable x).

(** [this.inputs ? this.inputs.length > 0 : false]: an array is truthy. *)
Definition hasNext : Eff P Ev bool :=
  this <- get ;;
  ret (0 <? length (inputs this))%nat.

End Methods.
End AbstractProcessor.

(** [DistinctProcessor]: the stateful processor. *)
Module DistinctProcessor.
Section Class.
Context {T : Type}.

(** The caller-supplied equality test was invoked on [(item, distinct)]. *)
Inductive Event : Type :=
| ComparatorCall (item distinct : JsValue T).

Record t : Type := mk {
  inputs : list (JsValue T);
  comparator : BiPredicate (JsValue T) (JsValue T);
  distinctList : Optional (list (JsValue T))
}.

#[global] Instance queue : AbstractProcessor.Queue t (JsValue T) := {|
  AbstractProcessor.inputs := inputs;
  AbstractProcessor.set_inputs := fun l this => mk l (comparator this) (distinctList this)
|}.

Definition set_distinctList (d : Optional (list (JsValue T))) (this : t) : t :=
  mk (inputs this) (comparator this) d.

(** The constructor. *)
Definition new (comparator : BiPredicate (JsValue T) (JsValue T)) : t :=
  mk [] comparator Optional.empty.

Definition add (input : JsValue T) : Eff t Event unit :=
  AbstractProcessor.add input.

Definition isStateless : Eff t Event bool := ret false.

Definition hasNext : Eff t Event bool :=
  this <- get ;;
  distinctListExistsAndHasValues <-
    (if Optional.isPresent (distinctList this)
     then l <- Optional.get (distinctList this) ;; ret (0 <? length l)%nat
     else ret false) ;;
  ret ((0 <? length (inputs this))%nat || distinctListExistsAndHasValues).

(** [this.comparator(item, distinct)]. *)
Definition doesMatchItem (item distinct : JsValue T) : Eff t Event bool :=
  this <- get ;;
  emit (ComparatorCall item distinct) ;;
  ret (comparator this item distinct).

Definition processValues : Eff t Event unit :=
  this <- get ;;
  distinctList <-
    Array_forEach
      (fun distinctList item =>
         matchingItems <- Array_filter (doesMatchItem item) distinctList ;;
         ret (if (length matchingItems =? 0)%nat
              then push distinctList item
              else distinctList))
      (inputs this) [] ;;
  modify (AbstractProcessor.set_inputs []) ;;
  modify (set_distinctList (Optional.of_ distinctList)).

(** [fuel] bounds the depth of the method's recursion on itself. *)
Fixpoint processAndGetNext (fuel : nat) : Eff t Event (Optional T) :=
  this <- get ;;
  if negb (Optional.isPresent (distinctList this)) then
    match fuel with
    | O => abort
    | S fuel' => processValues ;; processAndGetNext fuel'
    end
  else
    l <- Optional.get (distinctList this) ;;
    let (x, rest) := shift l in
    modify (set_distinctList (Present rest)) ;;
    ret (Optional.ofNullable x).

End Class.
Arguments t : clear implicits.
Arguments Event : clear implicits.
End DistinctProcessor.

(** [MapProcessor]. *)
Module MapProcessor.
Section Class.
Context {T O : Type}.

Inductive Event : Type :=
| TransformerCall (x : T).

Record t : Type := mk {
  inputs : list (JsValue T);
  transformer : Transformer T O
}.

#[global] Instance queue : AbstractProcessor.Queue t (JsValue T) := {|
  AbstractProcessor.inputs := inputs;
  AbstractProcessor.set_inputs := fun l this => mk l (transformer this)
|}.

Definition new (transformer : Transformer T O) : t := mk [] transformer.

Definition add (input : JsValue T) : Eff t Event unit :=
  AbstractProcessor.add input.

Definition hasNext : Eff t Event bool := AbstractProcessor.hasNext.

Definition processAndGetNext : Eff t Event (Optional O) :=
  next <- AbstractProcessor.takeNextInput ;;
  this <- get ;;
  Optional.map (fun x => emit (TransformerCall x) ;; ret (transformer this x)) next.

Definition isStateless : Eff t Event bool := ret true.

End Class.
Arguments t : clear implicits.
Arguments Event : clear implicits.
End MapProcessor.

(** [FilterProcessor]. *)
Module FilterProcessor.
Section Class.
Context {T : Type}.

Inductive Event : Type :=
| PredicateCall (x : T).

Record t : Type := mk {
  inputs : list (JsValue T);
  predicate : Predicate T
}.

#[global] Instance queue : AbstractProcessor.Queue t (JsValue T) := {|
  AbstractProcessor.inputs := inputs;
  AbstractProcessor.set_inputs := fun l this => mk l (predicate this)
|}.

Definition new (predicate : Predicate T) : t := mk [] predicate.

Definition add (input : JsValue T) : Eff t Event unit :=
  AbstractProcessor.add input.

Definition hasNext : Eff t Event bool := AbstractProcessor.hasNext.

Definition processAndGetNext : Eff t Event (Optional T) :=
  next <- AbstractProcessor.takeNextInput ;;
  this <- get ;;
  Optional.filter (fun x => emit (PredicateCall x) ;; ret (predicate this x)) next.

Definition isStateless : Eff t Event bool := ret true.

End Class.
Arguments t : clear implicits.
Arguments Event : clear implicits.
End FilterProcessor.

(** ** What the distinct processor computes, in the spec's words *)

Section DistinctSpec.
Context {T : Type}.
Variable equalityTest : BiPredicate (JsValue T) (JsValue T).

(** "For each input in original order, keep it if no previously kept
    element satisfies the equality test against it": [kept] holds the
    elements kept so far, in their original order, and the result is the
    kept elements once every input has been looked at. *)
Fixpoint keepFirst (kept xs : list (JsValue T)) : list (JsValue T) :=
  match xs with
  | [] => kept
  | x :: rest =>
      if existsb (fun d => equalityTest x d) kept
      then keepFirst kept rest
      else keepFirst (kept ++ [x]) rest
  end.

(** The equality tests this takes: every input against every element kept
    before it, in order. *)
Fixpoint comparisons (kept xs : list (JsValue T)) : list (DistinctProcessor.Event T) :=
  match xs with
  | [] => []
  | x :: rest =>
      map (DistinctProcessor.ComparatorCall x) kept ++
      comparisons (if existsb (fun d => equalityTest x d) kept then kept else kept ++ [x]) rest
  end.

End DistinctSpec.

(** [n] successive calls of [processAndGetNext] on the distinct processor,
    with the results in the order of the calls. *)
Fixpoint processAndGetNext_times {T} (n : nat)
  : Eff (DistinctProcessor.t T) (DistinctProcessor.Event T) (list (Optional T)) :=
  match n with
  | O => ret []
  | S n' =>
      o <- DistinctProcessor.processAndGetNext 1 ;;
      os <- processAndGetNext_times n' ;;
      ret (o :: os)
  end.

(** The inputs are handed to the processor one [add] at a time. *)
Fixpoint addAll {T} (xs : list (JsValue T))
  : Eff (DistinctProcessor.t T) (DistinctProcessor.Event T) unit :=
  match xs with
  | [] => ret tt
  | x :: rest => DistinctProcessor.add x ;; addAll rest
  end.

(** A client of a distinct processor that runs already: it adds an element
    or asks for the next output. *)
Inductive Op (T : Type) : Type :=
| OpAdd (input : JsValue T)
| OpNext.
Arguments OpAdd {T} input.
Arguments OpNext {T}.

(** The calls of [ops] in order; the results of its [processAndGetNext]
    calls are collected. *)
Fixpoint runOps {T} (ops : list (Op T))
  : Eff (DistinctProcessor.t T) (DistinctProcessor.Event T) (list (Optional T)) :=
  match ops with
  | [] => ret []
  | OpAdd x :: rest => DistinctProcessor.add x ;; runOps rest
  | OpNext :: rest =>
      o <- DistinctProcessor.processAndGetNext 1 ;;
      os <- runOps rest ;;
      ret (o :: os)
  end.

Definition added {T} (ops : list (Op T)) : list (JsValue T) :=
  flat_map (fun op => match op with OpAdd x => [x] | OpNext => [] end) ops.

Definition asked {T} (ops : list (Op T)) : nat :=
  length (filter (fun op => match op with OpNext => true | OpAdd _ => false end) ops).

(** [l1] is [l2] with some elements left out, the others in their order. *)
Inductive Subsequence {A : Type} : list A -> list A -> Prop :=
| Subsequence_nil : Subsequence [] []
| Subsequence_skip x l1 l2 : Subsequence l1 l2 -> Subsequence l1 (x :: l2)
| Subsequence_keep x l1 l2 : Subsequence l1 l2 -> Subsequence (x :: l1) (x :: l2).

(** No element of [l] passes the equality test against an element that
    stands before it in [l]. *)
Definition NoEqualPredecessor {A : Type} (equalityTest : A -> A -> bool) (l : list A) : Prop :=
  forall i j d y,
    (i < j)%nat -> nth_error l i = Some d -> nth_error l j = Some y ->
    equalityTest y d = false.

(** ** src/stream/index.ts: the terminal operations *)

(** Modelled from the spec: the pipeline a stream wraps
    ([src/processorPipeline.ts] is not among the sources), through the one
    method the terminal operations call: "[pipeline.getNextResult() ->
    Optional<Output>]", the next output of the last stage.  [fuel] bounds
    the steps one call may take; [None] is a call that does not return
    within it. *)
Class ProcessorPipeline (Pipe T : Type) : Type := {
  getNextResult : nat -> Pipe -> option (Optional T * Pipe)
}.

(** Modelled from the spec: a collector ([src/collectors.ts] is not among
    the sources) "supplies three callables: a zero-argument factory for the
    result container, a two-argument accumulate step, and a one-argument
    finishing step". *)

Module Collector.

Record t (T A R : Type) : Type := mk {
  supplier : Supplier A;
  accumulator : BiConsumer A T;
  finisher : A -> R
}.

End Collector.

Abbreviation Collector := Collector.t.

(** Modelled from the spec: [Collectors.toList()], "materialize-to-array". *)
Module Collectors.

Definition toList {T : Type} : Collector T (list T) (list T) :=
  Collector.mk (fun _ => []) (fun l x => push l x) (fun l => l).

End Collectors.

Module PipelineStream.
Section Class.
Context {Pipe T : Type} `{ProcessorPipeline Pipe T}.

(** What a terminal operation does that a caller can observe: a pull on
    the pipeline, and the invocations of the callbacks it was given. *)
Inductive Event : Type :=
| Pull
| PredicateCall (x : T)
| SupplierCall
| AccumulatorCall (x : T)
| CombinerCall
| FinisherCall
| ReducerCall (a b : T).

Record t : Type := mk {
  pipeline : Pipe;
  processingStarted : bool
}.

(** The constructor: [processingStarted = false]. *)
Definition new (pipeline : Pipe) : t := mk pipeline false.

Definition getNextProcessedItem (fuel : nat) : Eff t Event (Optional T) :=
  modify (fun this => mk (pipeline this) true) ;;
  this <- get ;;
  match getNextResult fuel (pipeline this) with
  | None => abort
  | Some (next, pipeline') =>
      emit Pull ;;
      put (mk pipeline' (processingStarted this)) ;;
      ret next
  end.

Definition getNext (fuel : nat) : Eff t Event (Optional T) :=
  getNextProcessedItem fuel.

Definition callPredicate (predicate : Predicate T) (x : T) : Eff t Event bool :=
  emit (PredicateCall x) ;; ret (predicate x).

(** The loop of [allMatch]: [fuel] bounds its iterations, [budget] is the
    fuel of each pull. *)
Fixpoint allMatch_while (budget fuel : nat) (predicate : Predicate T) (nextItem : Optional T)
  : Eff t Event bool :=
  if Optional.isPresent nextItem then
    match fuel with
    | O => abort
    | S fuel' =>
        x <- Optional.get nextItem ;;
        b <- callPredicate predicate x ;;
        if Bool.eqb b false then ret false
        else
          nextItem <- getNextProcessedItem budget ;;
          allMatch_while budget fuel' predicate nextItem
    end
  else ret true.

Definition allMatch (fuel : nat) (predicate : Predicate T) : Eff t Event bool :=
  nextItem <- getNextProcessedItem fuel ;;
  allMatch_while fuel fuel predicate nextItem.

Fixpoint noneMatch_while (budget fuel : nat) (predicate : Predicate T) (nextItem : Optional T)
  : Eff t Event bool :=
  if Optional.isPresent nextItem then
    match fuel with
    | O => abort
    | S fuel' =>
        x <- Optional.get nextItem ;;
        b <- callPredicate predicate x ;;
        if Bool.eqb b true then ret false
        else
          nextItem <- getNextProcessedItem budget ;;
          noneMatch_while budget fuel' predicate nextItem
    end
  else ret true.

Definition noneMatch (fuel : nat) (predicate : Predicate T) : Eff t Event bool :=
  nextItem <- getNextProcessedItem fuel ;;
  noneMatch_while fuel fuel predicate nextItem.

Fixpoint anyMatch_while (budget fuel : nat) (predicate : Predicate T) (nextItem : Optional T)
  : Eff t Event bool :=
  if Optional.isPresent nextItem then
    match fuel with
    | O => abort
    | S fuel' =>
        x <- Optional.get nextItem ;;
        b <- callPredicate predicate x ;;
        if Bool.eqb b true then ret true
        else
          nextItem <- getNextProcessedItem budget ;;
          anyMatch_while budget fuel' predicate nextItem
    end
  else ret false.

Definition anyMatch (fuel : nat) (predicate : Predicate T) : Eff t Event bool :=
  nextItem <- getNextProcessedItem fuel ;;
  anyMatch_while fuel fuel predicate nextItem.

Definition findFirst (fuel : nat) : Eff t Event (Optional T) :=
  getNextProcessedItem fuel.

Definition findAny (fuel : nat) : Eff t Event (Optional T) :=
  getNextProcessedItem fuel.

(** The loop shared by [customCollect] and the collector form of
    [collect]: [accumulator(container, nextItem.get())] per element. *)
Fixpoint collect_while {R} (budget fuel : nat) (accumulator : BiConsumer R T)
  (container : R) (nextItem : Optional T) : Eff t Event R :=
  if Optional.isPresent nextItem then
    match fuel with
    | O => abort
    | S fuel' =>
        x <- Optional.get nextItem ;;
        emit (AccumulatorCall x) ;;
        let container := accumulator container x in
        nextItem <- getNextProcessedItem budget ;;
        collect_while budget fuel' accumulator container nextItem
    end
  else ret container.

Definition customCollect {R} (fuel : nat) (supplier : Supplier R)
  (accumulator : BiConsumer R T) (combiner : BiConsumer R R) : Eff t Event R :=
  emit SupplierCall ;;
  let container := supplier tt in
  nextItem <- getNextProcessedItem fuel ;;
  container <- collect_while fuel fuel accumulator container nextItem ;;
  ret container.

(** [collect]: [firstArg] is a collector ([firstArg instanceof Collector])
    or a supplier; [accumulator] and [combiner] are optional parameters; the
    result is [R | undefined]. *)
Definition collect {A R} (fuel : nat) (firstArg : Collector T A R + Supplier R)
  (accumulator : option (BiConsumer R T)) (combiner : option (BiConsumer R R))
  : Eff t Event (JsValue R) :=
  match firstArg with
  | inl collector =>
      emit SupplierCall ;;
      let container := Collector.supplier collector tt in
      nextItem <- getNextProcessedItem fuel ;;
      container <- collect_while fuel fuel (Collector.accumulator collector) container nextItem ;;
      emit FinisherCall ;;
      ret (Val (Collector.finisher collector container))
  | inr supplier =>
      match accumulator, combiner with
      | Some accumulator, Some combiner =>
          customCollect fuel supplier accumulator combiner ;;
          ret Undefined
      | _, _ => ret Undefined
      end
  end.

Fixpoint reduce_while (budget fuel : nat) (accumulator : BiFunction T)
  (currentValue nextItem : Optional T) : Eff t Event (Optional T) :=
  if Optional.isPresent nextItem then
    match fuel with
    | O => abort
    | S fuel' =>
        currentValue <-
          (if Optional.isPresent currentValue then
             a <- Optional.get currentValue ;;
             b <- Optional.get nextItem ;;
             emit (ReducerCall a b) ;;
             ret (Optional.of_ (accumulator a b))
           else ret nextItem) ;;
        nextItem <- getNextProcessedItem budget ;;
        reduce_while budget fuel' accumulator currentValue nextItem
    end
  else ret currentValue.

(** [initialValue?: T]: [undefined] when the caller passes no seed. *)
Definition reduce (fuel : nat) (accumulator : BiFunction T) (initialValue : JsValue T)
  : Eff t Event (Optional T) :=
  let currentValue := Optional.ofNullable initialValue in
  nextItem <- getNextProcessedItem fuel ;;
  reduce_while fuel fuel accumulator currentValue nextItem.

Definition toArray (fuel : nat) : Eff t Event (JsValue (list T)) :=
  collect fuel (inl Collectors.toList) None None.

(** [n] successive calls of the iterator's [getNext]. *)
Fixpoint getNext_times (fuel n : nat) : Eff t Event (list (Optional T)) :=
  match n with
  | O => ret []
  | S n' =>
      o <- getNext fuel ;;
      os <- getNext_times fuel n' ;;
      ret (o :: os)
  end.

End Class.
Arguments t : clear implicits.
Arguments Event : clear implicits.
End PipelineStream.

(** Pulling from the pipeline [p] gives the elements [xs], one per pull
    and each within [fuel], and leaves the pipeline [p']. *)
Inductive Yields {Pipe T : Type} `{ProcessorPipeline Pipe T} (fuel : nat)
  : Pipe -> list T -> Pipe -> Prop :=
| Yields_nil p : Yields fuel p [] p
| Yields_cons p x p1 xs p' :
    getNextResult fuel p = Some (Present x, p1) ->
    Yields fuel p1 xs p' ->
    Yields fuel p (x :: xs) p'.

(** What a match operation does on the elements [xs]: a pull, then the
    predicate on the element, for each of them in order. *)
Definition matchTrace {T : Type} (xs : list T) : list (PipelineStream.Event T) :=
  flat_map (fun x => [PipelineStream.Pull; PipelineStream.PredicateCall x]) xs.

(** What a collecting operation does on the elements [xs]: the supplier
    once, then a pull and the accumulator on the element for each of them
    in order, then the pull that finds the pipeline exhausted. *)
Definition collectTrace {T : Type} (xs : list T) : list (PipelineStream.Event T) :=
  PipelineStream.SupplierCall
    :: flat_map (fun x => [PipelineStream.Pull; PipelineStream.AccumulatorCall x]) xs
    ++ [PipelineStream.Pull].

(** The value a call returns, when it returns. *)
Definition returned {St Ev A} (r : option (A * St * list Ev)) : option A :=
  match r with
  | Some (a, _, _) => Some a
  | None => None
  end.

(** ** The sources, the limit stage and the pipeline, modelled from the spec *)

(** Modelled from the spec: the source contract ([src/source.ts] is not
    among the sources): "[produceNext() -> Optional<T>]. Returns empty
    exactly when exhausted; for infinite variants, never returns empty." *)
Class Source (S V : Type) : Type := {
  produceNext : S -> Optional V * S
}.

(** Modelled from the spec: the array-backed source "yields elements in
    stored order, one per call, empty once exhausted". *)
Module ArraySource.

Record t (V : Type) : Type := mk { items : list V }.

#[global] Instance source {V} : Source (t V) V := {|
  produceNext := fun this =>
    match items this with
    | [] => (Empty, this)
    | x :: rest => (Present x, mk rest)
    end
|}.

End ArraySource.

(** Modelled from the spec: the seeded iteration, "first call yields the
    seed; every subsequent call yields [step(previous)]; infinite". *)
Module IterateSource.

Record t (V : Type) : Type := mk {
  seed : V;
  step : V -> V;
  previous : Optional V
}.

#[global] Instance source {V} : Source (t V) V := {|
  produceNext := fun this =>
    let next :=
      match previous this with
      | Empty => seed this
      | Present p => step this p
      end in
    (Present next, mk (seed this) (step this) (Present next))
|}.

End IterateSource.

(** ** JavaScript numbers *)

(** A JavaScript [number] is an IEEE-754 binary64 value; [+], [-], unary
    [-] and [<] are the IEEE operations, with rounding to nearest, ties to
    even, as specified by the standard library's [SpecFloat] for a
    mantissa of 53 bits and the largest exponent 1024.  The numbers are
    the values of [spec_float] that are valid for this format
    ([valid_binary 53 1024]); what is proved of every value of
    [spec_float] holds of every number. *)
Module Number.

Definition t : Type := spec_float.

Definition add (x y : t) : t := SFadd 53 1024 x y.
Definition sub (x y : t) : t := SFsub 53 1024 x y.
Definition neg (x : t) : t := SFopp x.
Definition lt (x y : t) : bool := SFltb x y.

(** The number [m * 2 ^ e], rounded when it has no exact representation:
    [dyadic 1 (-1)] is [0.5], [dyadic 3 (-1)] is [1.5]. *)
Definition dyadic (m e : Z) : t := binary_normalize 53 1024 m e false.

(** The number an integer literal denotes. *)
Definition of_Z (n : Z) : t := dyadic n 0.

Definition zero : t := of_Z 0.
Definition one : t := of_Z 1.

End Number.

(** Modelled from the spec: the numeric range "yields [start, start+step,
    start+2*step, ...] stopping before/at the bound; direction of [step] is
    normalized to match the sign implied by comparing start and bound (a
    step whose sign disagrees with the needed direction is negated); if
    start equals the bound, yields nothing".  The step "defaults to 1 if
    nothing is supplied" (the documentation of [Stream.range]).  The
    values are numbers, and each next value is the sum, as a number, of
    the value before it and the step. *)
Module RangeSource.

Record t : Type := mk {
  nextValue : Number.t;
  endExclusive : Number.t;
  step : Number.t;
  ascending : bool
}.

Definition new (startInclusive endExclusive : Number.t) (step : JsValue Number.t) : t :=
  let size := match step with Val s => s | Undefined | Null => Number.one end in
  if Number.lt startInclusive endExclusive
  then mk startInclusive endExclusive
          (if Number.lt size Number.zero then Number.neg size else size) true
  else mk startInclusive endExclusive
          (if Number.lt Number.zero size then Number.neg size else size) false.

Definition inRange (this : t) : bool :=
  if ascending this
  then Number.lt (nextValue this) (endExclusive this)
  else Number.lt (endExclusive this) (nextValue this).

#[global] Instance source : Source t Number.t := {|
  produceNext := fun this =>
    if inRange this
    then (Present (nextValue this),
          mk (Number.add (nextValue this) (step this)) (endExclusive this)
             (step this) (ascending this))
    else (Empty, this)
|}.

End RangeSource.

(** Modelled from the spec: the factories [Source.arraySource],
    [Source.iterateSource] and [Source.rangeSource] of the absent
    [src/source.ts], which [src/stream/index.ts] calls; each builds the
    source variant of section 4.1 in its initial state. *)
Module SourceFactory.

Definition arraySource {V} (source : list V) : ArraySource.t V :=
  ArraySource.mk source.

Definition iterateSource {V} (seed : V) (getNext : V -> V) : IterateSource.t V :=
  IterateSource.mk seed getNext Empty.

Definition rangeSource (startInclusive endExclusive : Number.t) (step : JsValue Number.t)
  : RangeSource.t :=
  RangeSource.new startInclusive endExclusive step.

End SourceFactory.

(** Modelled from the spec: the limit stage ([Processor.limitProcessor] is
    not in [src/processor.ts]): "emits queued inputs unchanged until n have
    been emitted, then reports permanently exhausted regardless of further
    input". *)
Module LimitProcessor.
Section Class.
Context {V : Type}.

(** The stage takes no callback. *)
Inductive Event : Type := .

Record t : Type := mk {
  inputs : list (JsValue V);
  maxSize : Z;
  emitted : Z
}.

#[global] Instance queue : AbstractProcessor.Queue t (JsValue V) := {|
  AbstractProcessor.inputs := inputs;
  AbstractProcessor.set_inputs := fun l this => mk l (maxSize this) (emitted this)
|}.

Definition new (maxSize : Z) : t := mk [] maxSize 0%Z.

Definition add (input : JsValue V) : Eff t Event unit :=
  AbstractProcessor.add input.

Definition isExhausted : Eff t Event bool :=
  this <- get ;;
  ret (maxSize this <=? emitted this)%Z.

Definition hasNext : Eff t Event bool :=
  this <- get ;;
  ret ((emitted this <? maxSize this)%Z && (0 <? length (inputs this))%nat).

Definition processAndGetNext : Eff t Event (Optional V) :=
  this <- get ;;
  if (emitted this <? maxSize this)%Z then
    next <- AbstractProcessor.takeNextInput ;;
    (if Optional.isPresent next
     then modify (fun this => mk (inputs this) (maxSize this) (emitted this + 1)%Z)
     else ret tt) ;;
    ret next
  else ret Empty.

Definition isStateless : Eff t Event bool := ret true.

End Class.
Arguments t : clear implicits.
Arguments Event : clear implicits.
End LimitProcessor.

(** Modelled from the spec: a stage as "a closed tagged variant (one tag
    per built-in stage kind)" under the shared contract [hasNext],
    [accept], [pullNext]; the kinds here are the stateless and the
    short-circuiting ones. *)
Inductive Stage (V : Type) : Type :=
| MapStage (p : MapProcessor.t V V)
| FilterStage (p : FilterProcessor.t V)
| LimitStage (p : LimitProcessor.t V).
Arguments MapStage {V} p.
Arguments FilterStage {V} p.
Arguments LimitStage {V} p.

(** A method call on a stage of the pipeline, without its callback events. *)
Definition call {St Ev A} (m : Eff St Ev A) (this : St) : option (A * St) :=
  match m this with
  | Some (a, this', _) => Some (a, this')
  | None => None
  end.

Module Stage.
Section Contract.
Context {V : Type}.

Definition hasNext (stage : Stage V) : option bool :=
  match stage with
  | MapStage p => option_map fst (call MapProcessor.hasNext p)
  | FilterStage p => option_map fst (call FilterProcessor.hasNext p)
  | LimitStage p => option_map fst (call LimitProcessor.hasNext p)
  end.

Definition accept (input : V) (stage : Stage V) : option (Stage V) :=
  match stage with
  | MapStage p => option_map (fun r => MapStage (snd r)) (call (MapProcessor.add (Val input)) p)
  | FilterStage p =>
      option_map (fun r => FilterStage (snd r)) (call (FilterProcessor.add (Val input)) p)
  | LimitStage p =>
      option_map (fun r => LimitStage (snd r)) (call (LimitProcessor.add (Val input)) p)
  end.

Definition pullNext (stage : Stage V) : option (Optional V * Stage V) :=
  match stage with
  | MapStage p =>
      option_map (fun r => (fst r, MapStage (snd r))) (call MapProcessor.processAndGetNext p)
  | FilterStage p =>
      option_map (fun r => (fst r, FilterStage (snd r)))
        (call FilterProcessor.processAndGetNext p)
  | LimitStage p =>
      option_map (fun r => (fst r, LimitStage (snd r)))
        (call LimitProcessor.processAndGetNext p)
  end.

(** "Reports permanently exhausted": only a limit stage ever does. *)
Definition isExhausted (stage : Stage V) : option bool :=
  match stage with
  | MapStage _ | FilterStage _ => Some false
  | LimitStage p => option_map fst (call LimitProcessor.isExhausted p)
  end.

End Contract.
End Stage.

(** Modelled from the spec: the pipeline, "an ordered list of Stages with a
    Source at its head", and its pull algorithm: "to get the next output of
    the last stage, first try to pull from the last stage; if it yields a
    value, return it.  If it yields nothing [...] pull one element from the
    stage before it (recursively, down to the Source), feed it to the last
    stage via accept, and retry.  [...] if the Source is exhausted, there is
    no more input to feed forward, and the algorithm must then ask each
    stage still holding buffered state to keep emitting from their buffer
    until all stages report no more output"; and "once a limit stage has
    emitted its bound, the pipeline must stop requesting further upstream
    pulls entirely for that branch". *)
Module Pipeline.
Section Class.
Context {S V : Type} `{Source S V}.

(** [stages] holds the last stage first; [sourcePulls] counts the calls of
    [produceNext] made so far. *)
Record t : Type := mk {
  source : S;
  sourcePulls : nat;
  stages : list (Stage V)
}.

Definition create (source : S) : t := mk source 0 [].

Definition addProcessor (stage : Stage V) (this : t) : t :=
  mk (source this) (sourcePulls this) (stage :: stages this).

(** The next output of the first stage of [chain] (the stages before it
    follow it in [chain], the source is [src]).  [fuel] bounds the depth of
    the recursion. *)
Fixpoint pull (fuel : nat) (chain : list (Stage V)) (src : S) (pulls : nat)
  : option (Optional V * list (Stage V) * S * nat) :=
  match fuel with
  | O => None
  | Datatypes.S fuel' =>
      match chain with
      | [] =>
          let (next, src') := produceNext src in
          Some (next, [], src', Datatypes.S pulls)
      | stage :: upstream =>
          match Stage.pullNext stage with
          | None => None
          | Some (Present v, stage') => Some (Present v, stage' :: upstream, src, pulls)
          | Some (Empty, stage') =>
              match Stage.isExhausted stage' with
              | None => None
              | Some true => Some (Empty, stage' :: upstream, src, pulls)
              | Some false =>
                  match pull fuel' upstream src pulls with
                  | None => None
                  | Some (Present v, upstream', src', pulls') =>
                      match Stage.accept v stage' with
                      | None => None
                      | Some stage'' => pull fuel' (stage'' :: upstream') src' pulls'
                      end
                  | Some (Empty, upstream', src', pulls') =>
                      match Stage.hasNext stage' with
                      | None => None
                      | Some true => pull fuel' (stage' :: upstream') src' pulls'
                      | Some false => Some (Empty, stage' :: upstream', src', pulls')
                      end
                  end
              end
          end
      end
  end.

Definition getNextResult (fuel : nat) (this : t) : option (Optional V * t) :=
  match pull fuel (stages this) (source this) (sourcePulls this) with
  | None => None
  | Some (next, chain', src', pulls') => Some (next, mk src' pulls' chain')
  end.

#[global] Instance pipeline : ProcessorPipeline t V :=
  Build_ProcessorPipeline getNextResult.

End Class.
Arguments t : clear implicits.
End Pipeline.

(** ** src/stream/index.ts: the static methods and the intermediate operations *)

Module Stream.

Definition ofSource {S V} `{Source S V} (source : S)
  : PipelineStream.t (Pipeline.t S V) :=
  PipelineStream.new (Pipeline.create source).

(** [Stream.of] ([of] is reserved in Rocq). *)
Definition of_ {V} (source : list V) : PipelineStream.t (Pipeline.t (ArraySource.t V) V) :=
  ofSource (SourceFactory.arraySource source).

Definition empty {V} : PipelineStream.t (Pipeline.t (ArraySource.t V) V) :=
  of_ [].

Definition iterate {V} (seed : V) (getNext : V -> V)
  : PipelineStream.t (Pipeline.t (IterateSource.t V) V) :=
  ofSource (SourceFactory.iterateSource seed getNext).

Definition range (startInclusive endExclusive : Number.t) (step : JsValue Number.t)
  : PipelineStream.t (Pipeline.t RangeSource.t Number.t) :=
  ofSource (SourceFactory.rangeSource startInclusive endExclusive step).

Definition rangeClosed (startInclusive endInclusive : Number.t) (step : JsValue Number.t)
  : PipelineStream.t (Pipeline.t RangeSource.t Number.t) :=
  if Number.lt startInclusive endInclusive
  then range startInclusive (Number.add endInclusive Number.one) step
  else range startInclusive (Number.sub endInclusive Number.one) step.

Section Intermediate.
Context {S V : Type} `{Source S V}.

Definition newPipeline (processor : Stage V) (this : PipelineStream.t (Pipeline.t S V))
  : Pipeline.t S V :=
  Pipeline.addProcessor processor (PipelineStream.pipeline this).

Definition map (f : Transformer V V) (this : PipelineStream.t (Pipeline.t S V))
  : PipelineStream.t (Pipeline.t S V) :=
  PipelineStream.new (newPipeline (MapStage (MapProcessor.new f)) this).

Definition filter (predicate : Predicate V) (this : PipelineStream.t (Pipeline.t S V))
  : PipelineStream.t (Pipeline.t S V) :=
  PipelineStream.new (newPipeline (FilterStage (FilterProcessor.new predicate)) this).

Definition limit (maxSize : Z) (this : PipelineStream.t (Pipeline.t S V))
  : PipelineStream.t (Pipeline.t S V) :=
  PipelineStream.new (newPipeline (LimitStage (LimitProcessor.new maxSize)) this).

End Intermediate.
End Stream.

(** ** Definitions the proofs are stated with *)

Section MatchWhile.
Context {Pipe T : Type} `{ProcessorPipeline Pipe T}.

(** The three match loops are one loop: it stops with [onStop] at the first
    element on which the predicate answers [stopOn], and ends with [onEnd]
    when the pipeline has no further element. *)
Fixpoint match_while (stopOn onStop onEnd : bool) (budget fuel : nat)
  (predicate : Predicate T) (nextItem : Optional T) : Eff (PipelineStream.t Pipe) (PipelineStream.Event T) bool :=
  if Optional.isPresent nextItem then
    match fuel with
    | O => abort
    | S fuel' =>
        x <- Optional.get nextItem ;;
        b <- PipelineStream.callPredicate predicate x ;;
        if Bool.eqb b stopOn then ret onStop
        else
          nextItem <- PipelineStream.getNextProcessedItem budget ;;
          match_while stopOn onStop onEnd budget fuel' predicate nextItem
    end
  else ret onEnd.

(** One step of [reduce]: the value carried after the element [x]. *)
Definition reduceStep (accumulator : BiFunction T) (currentValue : Optional T) (x : T) : T :=
  match currentValue with
  | Empty => x
  | Present c => accumulator c x
  end.

End MatchWhile.

(** The mantissa [p * 2 ^ k]. *)
Definition shl (p : positive) (k : Z) : positive :=
  match k with
  | Zpos k => Pos.iter xO p k
  | _ => p
  end.

(** The binary64 number of the integer of sign [s] and magnitude [p],
    where [p < 2 ^ 53]: the mantissa is [p] brought to 53 bits. *)
Definition canonical (s : bool) (p : positive) : Number.t :=
  S754_finite s (shl p (53 - Zpos (digits2_pos p))) (Zpos (digits2_pos p) - 53).

(** An optional step given as an integer. *)
Definition integerStep (step : JsValue Z) : JsValue Number.t :=
  match step with
  | Val s => Val (Number.of_Z s)
  | Undefined => Undefined
  | Null => Null
  end.

(** The size of an optional integer step: its magnitude, and 1 when no
    step is given. *)
Definition stepSize (step : JsValue Z) : Z :=
  match step with
  | Val s => Z.abs s
  | Undefined | Null => 1%Z
  end.

(** What the pull number [k] (from 0) on a range source over integers
    returns: the value [nv + k * st] while it is before the bound [e]. *)
Definition rangeAt (ascending : bool) (nv e st : Z) (k : nat) : Optional Number.t :=
  let v := (nv + Z.of_nat k * st)%Z in
  if (if ascending then v <? e else e <? v)%Z then Present (Number.of_Z v) else Empty.

(** The closed integer range from [a] towards [b] in steps of size [m]:
    at position [k] the value [a + k * m] ([a - k * m] when [a] is not
    below [b]) while it lies within the closed interval. *)
Definition closedRangeAt (a b m : Z) (k : nat) : Optional Number.t :=
  let v := if (a <? b)%Z then (a + Z.of_nat k * m)%Z else (a - Z.of_nat k * m)%Z in
  if ((Z.min a b <=? v) && (v <=? Z.max a b))%Z then Present (Number.of_Z v) else Empty.

(** [v] lies strictly on the side of [bound] on which [start] lies (on
    the far side when [start] is not below it). *)
Definition beforeBound (start bound v : Number.t) : bool :=
  if Number.lt start bound then Number.lt v bound else Number.lt bound v.

(** The exclusive bound that [rangeClosed] passes to [range]. *)
Definition widenedBound (startInclusive endInclusive : Number.t) : Number.t :=
  if Number.lt startInclusive endInclusive
  then Number.add endInclusive Number.one
  else Number.sub endInclusive Number.one.

(** The first [n] values of the seeded iteration: [s, f s, f (f s), ...]. *)
Definition iterates {V : Type} (s : V) (f : V -> V) (n : nat) : list V :=
  map (fun k => Nat.iter k f s) (seq 0 n).

(** The pipeline [iterate(s, f).limit(n)] after its first [k] outputs. *)
Definition limitedIterate {V : Type} (s : V) (f : V -> V) (n k : nat)
  : Pipeline.t (IterateSource.t V) V :=
  Pipeline.mk
    (IterateSource.mk s f
       match k with
       | O => Empty
       | S j => Present (Nat.iter j f s)
       end)
    k
    [LimitStage (LimitProcessor.mk [] (Z.of_nat n) (Z.of_nat k))].

(** ** JavaScript arrays as objects *)

(** An array that a caller's function hands to the code is an object: the
    function, the caller and the code may all hold it, and what one of
    them does to it the others see.  The store holds the arrays of the
    program; a reference is the position of an array in the store. *)
Module Store.
Section Store.
Context {O : Type}.

Definition Ref : Type := nat.

Definition t : Type := list (list (JsValue O)).

(** The contents of the array [r]; a reference that denotes no array of
    the store (no JavaScript value is one) reads as an empty array. *)
Definition read (r : Ref) (s : t) : list (JsValue O) := nth r s [].

(** The store after the array [r] was given the contents [a], in place. *)
Fixpoint write (r : Ref) (a : list (JsValue O)) (s : t) : t :=
  match s, r with
  | [], _ => []
  | _ :: rest, 0%nat => a :: rest
  | b :: rest, S r' => b :: write r' a rest
  end.

(** A new array with the contents [a]. *)
Definition alloc (a : list (JsValue O)) (s : t) : Ref * t := (length s, s ++ [a]).

End Store.
Arguments t : clear implicits.
End Store.

(** ** src/processor.ts: the list flat-map processor *)

(** [ListFlatMapProcessor]: the pending outputs of the last input taken
    ([outputList]) are handed out before the next input is taken.  The
    field [outputList] holds the array that the transformer returned, not
    a copy of it, and [shift] removes the outputs from that array. *)
Module ListFlatMapProcessor.
Section Class.
Context {T O : Type}.

Inductive Event : Type :=
| TransformerCall (x : T).

(** A [Transformer<Input, Output[]>]: given an input and the arrays of
    the program it returns an array, one it creates or one that exists,
    and the arrays as it leaves them. *)
Definition ArrayTransformer : Type := T -> Store.t O -> Store.Ref * Store.t O.

Record t : Type := mk {
  inputs : list (JsValue T);
  outputList : Store.Ref;
  transformer : ArrayTransformer
}.

(** The processor and the arrays of the program. *)
Record World : Type := world {
  this : t;
  arrays : Store.t O
}.

#[global] Instance queue : AbstractProcessor.Queue World (JsValue T) := {|
  AbstractProcessor.inputs := fun w => inputs (this w);
  AbstractProcessor.set_inputs := fun l w =>
    world (mk l (outputList (this w)) (transformer (this w))) (arrays w)
|}.

(** [this.outputList], as it is now. *)
Definition pending (w : World) : list (JsValue O) :=
  Store.read (outputList (this w)) (arrays w).

(** The constructor: [this.outputList = []] is a new array. *)
Definition new (transformer : ArrayTransformer) (arrays : Store.t O) : World :=
  let (r, arrays') := Store.alloc [] arrays in
  world (mk [] r transformer) arrays'.

Definition add (input : JsValue T) : Eff World Event unit :=
  AbstractProcessor.add input.

Definition hasNext : Eff World Event bool :=
  w <- get ;;
  ret ((0 <? length (pending w))%nat || (0 <? length (inputs (this w)))%nat).

(** [fuel] bounds the depth of the method's recursion on itself. *)
Fixpoint processAndGetNext (fuel : nat) : Eff World Event (Optional O) :=
  w <- get ;;
  if (0 <? length (pending w))%nat then
    let (x, rest) := shift (pending w) in
    put (world (this w) (Store.write (outputList (this w)) rest (arrays w))) ;;
    ret (Optional.ofNullable x)
  else if (0 <? length (inputs (this w)))%nat then
    nextSource <- AbstractProcessor.takeNextInput ;;
    if Optional.isPresent nextSource then
      match fuel with
      | 0%nat => abort
      | S fuel' =>
          x <- Optional.get nextSource ;;
          w <- get ;;
          emit (TransformerCall x) ;;
          let (r, arrays') := transformer (this w) x (arrays w) in
          put (world (mk (inputs (this w)) r (transformer (this w))) arrays') ;;
          processAndGetNext fuel'
      end
    else ret Optional.empty
  else ret Optional.empty.

Definition isStateless : Eff World Event bool := ret true.

(** [n] successive calls, with the results in the order of the calls. *)
Fixpoint processAndGetNext_times (fuel n : nat) : Eff World Event (list (Optional O)) :=
  match n with
  | 0%nat => ret []
  | S n' =>
      o <- processAndGetNext fuel ;;
      os <- processAndGetNext_times fuel n' ;;
      ret (o :: os)
  end.

End Class.
Arguments t : clear implicits.
Arguments World : clear implicits.
Arguments Event : clear implicits.
Arguments ArrayTransformer : clear implicits.
End ListFlatMapProcessor.

(** A transformer that returns a new array each time, with the contents
    [f x]: what [x => [...]] does. *)
Definition freshArray {T O : Type} (f : T -> list (JsValue O))
  : ListFlatMapProcessor.ArrayTransformer T O :=
  fun x arrays => Store.alloc (f x) arrays.

(** A transformer that returns, each time, the one array [r] that its
    caller holds, as it is: what [x => held] does. *)
Definition heldArray {T O : Type} (r : Store.Ref)
  : ListFlatMapProcessor.ArrayTransformer T O :=
  fun _ arrays => (r, arrays).

(** What the list flat-map processor hands out for the queue [q] once its
    pending outputs are used up, one entry per call: for every queued
    value the contents of the array that the transformer returns, as they
    are when it returns; the array is empty once they are handed out.  An
    input that is [undefined] or [null] costs one call, which returns
    empty. *)
Fixpoint drained {T O : Type} (transformer : ListFlatMapProcessor.ArrayTransformer T O)
  (q : list (JsValue T)) (arrays : Store.t O) : list (Optional O) :=
  match q with
  | [] => []
  | Val x :: q' =>
      let (r, arrays') := transformer x arrays in
      map Optional.ofNullable (Store.read r arrays')
      ++ drained transformer q' (Store.write r [] arrays')
  | (Undefined | Null) :: q' => Empty :: drained transformer q' arrays
  end.

(** What the processor still has to hand out: its pending outputs, then
    what it hands out for the queue. *)
Definition flatResults {T O : Type} (w : ListFlatMapProcessor.World T O)
  : list (Optional O) :=
  map Optional.ofNullable (ListFlatMapProcessor.pending w)
  ++ drained (ListFlatMapProcessor.transformer (ListFlatMapProcessor.this w))
       (ListFlatMapProcessor.inputs (ListFlatMapProcessor.this w))
       (Store.write (ListFlatMapProcessor.outputList (ListFlatMapProcessor.this w)) []
          (ListFlatMapProcessor.arrays w)).

(** The outputs of a function from values to lists over the queue [q],
    one entry per output, and one empty entry per input that is
    [undefined] or [null]. *)
Definition flattened {T O : Type} (f : T -> list (JsValue O)) (q : list (JsValue T))
  : list (Optional O) :=
  flat_map (fun input =>
              match input with
              | Val x => map Optional.ofNullable (f x)
              | Undefined | Null => [Empty]
              end) q.

(** The array and the arrays of the program after the transformer was
    called on each of [xs] in turn. *)
Definition transformedAll {T O : Type}
  (transformer : ListFlatMapProcessor.ArrayTransformer T O) (xs : list T)
  (r : Store.Ref) (arrays : Store.t O) : Store.Ref * Store.t O :=
  fold_left (fun state x => transformer x (snd state)) xs (r, arrays).

(** The first [n] entries of [results], with empty for every call past
    them. *)
Definition firstCalls {A : Type} (n : nat) (results : list (Optional A)) : list (Optional A) :=
  firstn n results ++ repeat Empty (n - length results).

(** [n] successive calls of [processAndGetNext] on a map or on a filter
    processor. *)
Fixpoint map_times {T O : Type} (n : nat)
  : Eff (MapProcessor.t T O) (MapProcessor.Event T) (list (Optional O)) :=
  match n with
  | 0%nat => ret []
  | S n' =>
      o <- MapProcessor.processAndGetNext ;;
      os <- map_times n' ;;
      ret (o :: os)
  end.

Fixpoint filter_times {T : Type} (n : nat)
  : Eff (FilterProcessor.t T) (FilterProcessor.Event T) (list (Optional T)) :=
  match n with
  | O => ret []
  | S n' =>
      o <- FilterProcessor.processAndGetNext ;;
      os <- filter_times n' ;;
      ret (o :: os)
  end.

(** The values among queue entries: [undefined] and [null] are no value. *)
Definition values {T : Type} (q : list (JsValue T)) : list T :=
  flat_map (fun x => match x with Val v => [v] | Undefined | Null => [] end) q.

(** ** src/functions/index.ts: the default comparator *)

Definition Comparator (T : Type) : Type := T -> T -> Z.
Definition Consumer (T : Type) : Type := T -> unit.

(** [Comparator.default()]; [lessThan] is the operator [<] on the values
    of [T], and [i1 > i2] is [i2 < i1]. *)
Definition Comparator_default {T} (lessThan : T -> T -> bool) : Comparator T :=
  fun i1 i2 =>
    if lessThan i1 i2 then (-1)%Z
    else if lessThan i2 i1 then 1%Z
    else 0%Z.

(** ** src/stream/index.ts: the other terminal operations *)

(** A computation with its events renamed. *)
Definition relabel {St Ev Ev' A} (f : Ev -> Ev') (m : Eff St Ev A) : Eff St Ev' A :=
  fun s =>
    match m s with
    | Some (a, s', evs) => Some (a, s', map f evs)
    | None => None
    end.

Module PipelineStreamRest.
Section Class.
Context {Pipe T : Type} `{ProcessorPipeline Pipe T}.

(** What these operations do that a caller can observe: a pull on the
    pipeline, a call of the consumer, a call of the comparator. *)
Inductive Event : Type :=
| Pulled
| ConsumerCall (x : T)
| ComparatorCall (t1 t2 : T).

(** [this.getNextProcessedItem()], of [PipelineStream]. *)
Definition getNextProcessedItem (fuel : nat)
  : Eff (PipelineStream.t Pipe) Event (Optional T) :=
  relabel (fun _ => Pulled) (PipelineStream.getNextProcessedItem fuel).

Definition tryAdvance (fuel : nat) (consumer : Consumer T)
  : Eff (PipelineStream.t Pipe) Event bool :=
  next <- getNextProcessedItem fuel ;;
  if Optional.isPresent next then
    x <- Optional.get next ;;
    emit (ConsumerCall x) ;;
    ret true
  else ret false.

(** The loop of [count]: [fuel] bounds its iterations, [budget] is the
    fuel of each pull. *)
Fixpoint count_while (budget fuel : nat) (count : Z) (nextItem : Optional T)
  : Eff (PipelineStream.t Pipe) Event Z :=
  if Optional.isPresent nextItem then
    match fuel with
    | O => abort
    | S fuel' =>
        let count := (count + 1)%Z in
        nextItem <- getNextProcessedItem budget ;;
        count_while budget fuel' count nextItem
    end
  else ret count.

Definition count (fuel : nat) : Eff (PipelineStream.t Pipe) Event Z :=
  let count := 0%Z in
  nextItem <- getNextProcessedItem fuel ;;
  count_while fuel fuel count nextItem.

Fixpoint forEachOrdered_while (budget fuel : nat) (consumer : Consumer T)
  (nextItem : Optional T) : Eff (PipelineStream.t Pipe) Event unit :=
  if Optional.isPresent nextItem then
    match fuel with
    | O => abort
    | S fuel' =>
        x <- Optional.get nextItem ;;
        emit (ConsumerCall x) ;;
        nextItem <- getNextProcessedItem budget ;;
        forEachOrdered_while budget fuel' consumer nextItem
    end
  else ret tt.

Definition forEachOrdered (fuel : nat) (consumer : Consumer T)
  : Eff (PipelineStream.t Pipe) Event unit :=
  nextItem <- getNextProcessedItem fuel ;;
  forEachOrdered_while fuel fuel consumer nextItem.

Definition forEach (fuel : nat) (consumer : Consumer T)
  : Eff (PipelineStream.t Pipe) Event unit :=
  forEachOrdered fuel consumer.

Section Extremes.
(** The operator [<] on the values of [T], for the default comparator. *)
Variable lessThan : T -> T -> bool.

Fixpoint max_while (budget fuel : nat) (comparatorToUse : Comparator T)
  (maxValue nextValue : Optional T) : Eff (PipelineStream.t Pipe) Event (Optional T) :=
  if Optional.isPresent nextValue then
    match fuel with
    | O => abort
    | S fuel' =>
        a <- Optional.get nextValue ;;
        b <- Optional.get maxValue ;;
        emit (ComparatorCall a b) ;;
        let result := comparatorToUse a b in
        let maxValue := if (0 <? result)%Z then nextValue else maxValue in
        nextValue <- getNextProcessedItem budget ;;
        max_while budget fuel' comparatorToUse maxValue nextValue
    end
  else ret maxValue.

(** [comparator?]: [None] when the caller passes none. *)
Definition max (fuel : nat) (comparator : option (Comparator T))
  : Eff (PipelineStream.t Pipe) Event (Optional T) :=
  let comparatorToUse :=
    match comparator with
    | Some c => c
    | None => Comparator_default lessThan
    end in
  maxValue <- getNextProcessedItem fuel ;;
  let nextValue := maxValue in
  max_while fuel fuel comparatorToUse maxValue nextValue.

Fixpoint min_while (budget fuel : nat) (comparatorToUse : Comparator T)
  (minValue nextValue : Optional T) : Eff (PipelineStream.t Pipe) Event (Optional T) :=
  if Optional.isPresent nextValue then
    match fuel with
    | O => abort
    | S fuel' =>
        a <- Optional.get nextValue ;;
        b <- Optional.get minValue ;;
        emit (ComparatorCall a b) ;;
        let result := comparatorToUse a b in
        let minValue := if (result <? 0)%Z then nextValue else minValue in
        nextValue <- getNextProcessedItem budget ;;
        min_while budget fuel' comparatorToUse minValue nextValue
    end
  else ret minValue.

Definition min (fuel : nat) (comparator : option (Comparator T))
  : Eff (PipelineStream.t Pipe) Event (Optional T) :=
  let comparatorToUse :=
    match comparator with
    | Some c => c
    | None => Comparator_default lessThan
    end in
  minValue <- getNextProcessedItem fuel ;;
  let nextValue := minValue in
  min_while fuel fuel comparatorToUse minValue nextValue.

End Extremes.
End Class.
Arguments Event : clear implicits.
End PipelineStreamRest.

(** The element [max] keeps after [best] when it meets [x]: [x] if the
    comparator puts it strictly above, and [min] likewise, strictly below. *)
Definition keepGreater {T} (comparator : Comparator T) (best x : T) : T :=
  if (0 <? comparator x best)%Z then x else best.

Definition keepSmaller {T} (comparator : Comparator T) (best x : T) : T :=
  if (comparator x best <? 0)%Z then x else best.

(** One call of the list flat-map processor's [processAndGetNext], as a
    function: the result, the processor and the arrays after the call, and
    how many inputs it took. *)
Fixpoint flatNext {T O : Type} (transformer : ListFlatMapProcessor.ArrayTransformer T O)
  (q : list (JsValue T)) (r : Store.Ref) (arrays : Store.t O) {struct q}
  : Optional O * ListFlatMapProcessor.World T O * nat :=
  match Store.read r arrays with
  | o :: rest =>
      (Optional.ofNullable o,
       ListFlatMapProcessor.world (ListFlatMapProcessor.mk q r transformer)
         (Store.write r rest arrays), 0)
  | [] =>
      match q with
      | [] =>
          (Empty, ListFlatMapProcessor.world (ListFlatMapProcessor.mk [] r transformer) arrays, 0)
      | Val x :: q' =>
          let (r', arrays') := transformer x arrays in
          let '(res, w, taken) := flatNext transformer q' r' arrays' in
          (res, w, S taken)
      | (Undefined | Null) :: q' =>
          (Empty, ListFlatMapProcessor.world (ListFlatMapProcessor.mk q' r transformer) arrays, 1)
      end
  end.

(** The values of the present results. *)
Definition presents {A : Type} (results : list (Optional A)) : list A :=
  flat_map (fun o => match o with Present v => [v] | Empty => [] end) results.

(** What [max] (with [keepGreater]) or [min] (with [keepSmaller]) does on
    the elements [xs] when [best] is kept so far: the comparator on each
    element and the element kept, then a pull. *)
Fixpoint extremeTrace {T} (keep : T -> T -> T) (best : T) (xs : list T)
  : list (PipelineStreamRest.Event T) :=
  match xs with
  | [] => []
  | x :: rest =>
      PipelineStreamRest.ComparatorCall x best
        :: PipelineStreamRest.Pulled
        :: extremeTrace keep (keep best x) rest
  end.

(** The result of a map or of a filter processor on one queue entry. *)
Definition mapResult {T U} (f : Transformer T U) (x : JsValue T) : Optional U :=
  match x with
  | Val v => Present (f v)
  | Undefined | Null => Empty
  end.

Definition filterResult {T} (p : Predicate T) (x : JsValue T) : Optional T :=
  match x with
  | Val v => if p v then Present v else Empty
  | Undefined | Null => Empty
  end.

(** [comparator ? comparator : Comparator.default()], of [max] and [min]. *)
Definition comparatorToUse {T} (lessThan : T -> T -> bool)
  (comparator : option (Comparator T)) : Comparator T :=
  match comparator with
  | Some c => c
  | None => Comparator_default lessThan
  end.

(** ** src/processor.ts: the [Processor] interface *)

(** What a caller of a stage can do and see: the four methods of the
    interface [Processor<Input, Output>], the value each call returns, and
    the calls the stage makes to the caller's callback. *)
Module Processor.

Class Interface (P Ev Input Output : Type) : Type := {
  add : JsValue Input -> Eff P Ev unit;
  hasNext : Eff P Ev bool;
  processAndGetNext : Eff P Ev (Optional Output);
  isStateless : Eff P Ev bool
}.

#[global] Instance mapProcessor {T O}
  : Interface (MapProcessor.t T O) (MapProcessor.Event T) T O := {|
  add := MapProcessor.add;
  hasNext := MapProcessor.hasNext;
  processAndGetNext := MapProcessor.processAndGetNext;
  isStateless := MapProcessor.isStateless
|}.

#[global] Instance filterProcessor {T}
  : Interface (FilterProcessor.t T) (FilterProcessor.Event T) T T := {|
  add := FilterProcessor.add;
  hasNext := FilterProcessor.hasNext;
  processAndGetNext := FilterProcessor.processAndGetNext;
  isStateless := FilterProcessor.isStateless
|}.

Inductive Call (Input : Type) : Type :=
| Add (input : JsValue Input)
| HasNext
| ProcessAndGetNext
| IsStateless.
Arguments HasNext {Input}.
Arguments ProcessAndGetNext {Input}.
Arguments IsStateless {Input}.

Inductive Answer (Output : Type) : Type :=
| Void
| Bool (b : bool)
| Item (o : Optional Output).
Arguments Void {Output}.
Arguments Bool {Output} b.

Section Calls.
Context {P Ev Input Output : Type} `{Interface P Ev Input Output}.

Definition invoke (c : Call Input) : Eff P Ev (Answer Output) :=
  match c with
  | Add input => add input ;; ret Void
  | HasNext => b <- hasNext ;; ret (Bool b)
  | ProcessAndGetNext => o <- processAndGetNext ;; ret (Item o)
  | IsStateless => b <- isStateless ;; ret (Bool b)
  end.

Fixpoint invokeAll (calls : list (Call Input)) : Eff P Ev (list (Answer Output)) :=
  match calls with
  | [] => ret []
  | c :: rest =>
      a <- invoke c ;;
      answers <- invokeAll rest ;;
      ret (a :: answers)
  end.

(** What the caller sees of a sequence of calls: the answers and the
    callback invocations. *)
Definition observe (calls : list (Call Input)) (this : P)
  : option (list (Answer Output) * list Ev) :=
  match invokeAll calls this with
  | Some (answers, _, evs) => Some (answers, evs)
  | None => None
  end.

(** Two stages that no sequence of calls tells apart. *)
Definition Indistinguishable (p1 p2 : P) : Prop :=
  forall calls, observe calls p1 = observe calls p2.

End Calls.
End Processor.

(** * Properties of the processors *)

(** ** The monad *)

Lemma bind_Some {St Ev A B} (m : Eff St Ev A) (k : A -> Eff St Ev B) s a s1 e1 :
  m s = Some (a, s1, e1) ->
  bind m k s = match k a s1 with
               | None => None
               | Some (b, s2, e2) => Some (b, s2, e1 ++ e2)
               end.
Proof. intros E. unfold bind. now rewrite E. Qed.

Lemma bind_None {St Ev A B} (m : Eff St Ev A) (k : A -> Eff St Ev B) s :
  m s = None -> bind m k s = None.
Proof. intros E. unfold bind. now rewrite E. Qed.

Ltac eff_unfold :=
  unfold bind, ret, get, put, modify, emit, abort; simpl.

(** ** The distinct processor *)

Section DistinctFacts.
Context {T : Type}.
Implicit Types (this : DistinctProcessor.t T) (xs kept : list (JsValue T)).

Import DistinctProcessor.

Lemma add_eq this input :
  add input this
  = Some (tt, mk (inputs this ++ [input]) (comparator this) (distinctList this), []).
Proof. reflexivity. Qed.

Lemma filter_doesMatchItem this item kept :
  Array_filter (doesMatchItem item) kept this
  = Some (filter (comparator this item) kept, this, map (ComparatorCall item) kept).
Proof.
  induction kept as [|d kept IH]; cbn [Array_filter filter map]; [reflexivity|].
  rewrite (bind_Some _ _ _
             (eq_refl : doesMatchItem item d this
                        = Some (comparator this item d, this, [ComparatorCall item d]))).
  rewrite (bind_Some _ _ _ IH). cbn [ret].
  rewrite app_nil_r. now destruct (comparator this item d).
Qed.

Lemma no_match_existsb {A} (p : A -> bool) (l : list A) :
  (length (filter p l) =? 0)%nat = negb (existsb p l).
Proof.
  induction l as [|a l IH]; simpl; [reflexivity|].
  now destruct (p a).
Qed.

Lemma forEach_keepFirst this xs : forall kept,
  Array_forEach
    (fun distinctList item =>
       matchingItems <- Array_filter (doesMatchItem item) distinctList ;;
       ret (if (length matchingItems =? 0)%nat
            then push distinctList item
            else distinctList))
    xs kept this
  = Some (keepFirst (comparator this) kept xs, this, comparisons (comparator this) kept xs).
Proof.
  induction xs as [|x xs IH]; intros kept; simpl; [reflexivity|].
  unfold bind. rewrite filter_doesMatchItem. cbn [ret].
  rewrite no_match_existsb.
  destruct (existsb (fun d => comparator this x d) kept) eqn:E; cbn [negb];
    fold (@bind (t T) (Event T)); rewrite IH, !app_nil_r; reflexivity.
Qed.

Lemma processValues_eq this :
  processValues this
  = Some (tt,
          mk [] (comparator this) (Present (keepFirst (comparator this) [] (inputs this))),
          comparisons (comparator this) [] (inputs this)).
Proof.
  unfold processValues.
  rewrite (bind_Some _ _ _ (eq_refl : get this = Some (this, this, []))).
  rewrite (bind_Some _ _ _ (forEach_keepFirst this (inputs this) [])).
  eff_unfold. now rewrite !app_nil_r.
Qed.

Lemma processAndGetNext_running fuel this buffer :
  distinctList this = Present buffer ->
  processAndGetNext fuel this
  = Some (Optional.ofNullable (fst (shift buffer)),
          mk (inputs this) (comparator this) (Present (snd (shift buffer))),
          []).
Proof.
  intros E. destruct this as [q c d]; simpl in E; subst d.
  destruct fuel; destruct buffer; reflexivity.
Qed.

Lemma processAndGetNext_first fuel this :
  distinctList this = Empty ->
  let buffer := keepFirst (comparator this) [] (inputs this) in
  processAndGetNext (S fuel) this
  = Some (Optional.ofNullable (fst (shift buffer)),
          mk [] (comparator this) (Present (snd (shift buffer))),
          comparisons (comparator this) [] (inputs this)).
Proof.
  intros E buffer. destruct this as [q c d]; simpl in E; subst d.
  cbn [processAndGetNext].
  rewrite (bind_Some _ _ _ (eq_refl : get (mk q c Empty) = Some (mk q c Empty, mk q c Empty, []))).
  cbn [distinctList Optional.isPresent negb].
  rewrite (bind_Some _ _ _ (processValues_eq (mk q c Empty))). cbn [inputs comparator].
  rewrite (processAndGetNext_running fuel
             (mk [] c (Present (keepFirst c [] q))) eq_refl).
  cbn [inputs comparator app]. now rewrite !app_nil_r.
Qed.

End DistinctFacts.

Section DistinctRunning.
Context {T : Type}.
Implicit Types (this : DistinctProcessor.t T) (buffer : list (JsValue T)).

Import DistinctProcessor.

(** Once the buffer exists, the calls of a client only shift the buffer
    and lengthen the queue. *)
Lemma runOps_running (ops : list (Op T)) : forall this buffer,
  distinctList this = Present buffer ->
  runOps ops this
  = Some (map Optional.ofNullable (firstn (asked ops) buffer)
            ++ repeat Empty (asked ops - length buffer),
          mk (inputs this ++ added ops) (comparator this)
             (Present (skipn (asked ops) buffer)),
          []).
Proof.
  induction ops as [|[x|] ops IH]; intros this buffer E.
  - destruct this as [q c d]; simpl in E; subst d.
    cbn. now rewrite app_nil_r.
  - cbn [runOps].
    rewrite (bind_Some _ _ _ (add_eq this x)).
    rewrite (IH (mk (inputs this ++ [x]) (comparator this) (distinctList this)) buffer E).
    cbn [inputs comparator added flat_map app asked filter].
    now rewrite <- app_assoc.
  - cbn [runOps].
    rewrite (bind_Some _ _ _ (processAndGetNext_running 1 this E)).
    unfold bind.
    rewrite (IH (mk (inputs this) (comparator this) (Present (snd (shift buffer))))
                (snd (shift buffer)) eq_refl).
    cbn [inputs comparator ret added flat_map app asked filter length].
    destruct buffer as [|b buffer]; cbn [shift fst snd].
    + rewrite !firstn_nil, !skipn_nil. cbn. now rewrite Nat.sub_0_r.
    + reflexivity.
Qed.

Lemma times_as_ops (n : nat) this :
  processAndGetNext_times n this = runOps (repeat OpNext n) this.
Proof.
  revert this. induction n as [|n IH]; intros this; [reflexivity|].
  cbn [processAndGetNext_times repeat runOps]. unfold bind.
  destruct (processAndGetNext 1 this) as [[[o s] e]|]; [|reflexivity].
  now rewrite IH.
Qed.

Lemma asked_repeat (n : nat) : asked (repeat (@OpNext T) n) = n.
Proof.
  unfold asked. induction n as [|n IH]; [reflexivity|].
  cbn [repeat filter length]. now rewrite IH.
Qed.

Lemma added_repeat (n : nat) : added (repeat (@OpNext T) n) = [].
Proof.
  unfold added. induction n as [|n IH]; [reflexivity|].
  cbn [repeat flat_map app]. exact IH.
Qed.

Lemma addAll_eq (xs : list (JsValue T)) : forall this,
  addAll xs this
  = Some (tt, mk (inputs this ++ xs) (comparator this) (distinctList this), []).
Proof.
  induction xs as [|x xs IH]; intros [q c d]; cbn [addAll].
  - cbn. now rewrite app_nil_r.
  - rewrite (bind_Some _ _ _ (add_eq (mk q c d) x)), IH.
    cbn [inputs comparator distinctList app]. now rewrite <- app_assoc.
Qed.

End DistinctRunning.

(** ** The kept elements *)

Section KeepFirstFacts.
Context {T : Type}.
Variable equalityTest : BiPredicate (JsValue T) (JsValue T).
Implicit Types (xs kept : list (JsValue T)).

Lemma Subsequence_nil_l {A} (l : list A) : Subsequence [] l.
Proof. induction l; constructor; assumption. Qed.

Lemma keepFirst_extends xs : forall kept,
  exists news, keepFirst equalityTest kept xs = kept ++ news /\ Subsequence news xs.
Proof.
  induction xs as [|x xs IH]; intros kept; cbn [keepFirst].
  - exists []. split; [now rewrite app_nil_r | constructor].
  - destruct (existsb (fun d => equalityTest x d) kept).
    + destruct (IH kept) as [news [E S]]. exists news. split; [exact E | now constructor].
    + destruct (IH (kept ++ [x])) as [news [E S]]. exists (x :: news).
      split; [now rewrite E, <- app_assoc | now constructor].
Qed.

Lemma Subsequence_of_values (vs : list T) : forall kept,
  Subsequence kept (map Val vs) ->
  exists ks, kept = map Val ks /\ Subsequence ks vs.
Proof.
  induction vs as [|v vs IH]; intros kept Hsub; cbn [map] in Hsub.
  - inversion Hsub; subst. exists []. split; [reflexivity | constructor].
  - inversion Hsub as [|? ? ? Hsub'|? l1 ? Hsub']; subst.
    + destruct (IH _ Hsub') as [ks [-> Hks]]. exists ks. split; [reflexivity|].
      now constructor.
    + destruct (IH _ Hsub') as [ks [-> Hks]]. exists (v :: ks). split; [reflexivity|].
      now constructor.
Qed.

Lemma keepFirst_subsequence xs : Subsequence (keepFirst equalityTest [] xs) xs.
Proof. destruct (keepFirst_extends xs []) as [news [E S]]. now rewrite E. Qed.

Lemma NoEqualPredecessor_snoc kept x :
  NoEqualPredecessor equalityTest kept ->
  existsb (fun d => equalityTest x d) kept = false ->
  NoEqualPredecessor equalityTest (kept ++ [x]).
Proof.
  intros N E i j d y Hij Hi Hj.
  assert (Hjlen : (j < length (kept ++ [x]))%nat)
    by (apply nth_error_Some; congruence).
  rewrite length_app in Hjlen. cbn in Hjlen.
  rewrite nth_error_app1 in Hi by lia.
  destruct (Nat.eq_dec j (length kept)) as [-> | Hne].
  - rewrite nth_error_app2, Nat.sub_diag in Hj by lia. cbn in Hj.
    injection Hj as <-.
    destruct (equalityTest x d) eqn:Exd; [|reflexivity].
    assert (existsb (fun d => equalityTest x d) kept = true); [|congruence].
    apply existsb_exists. exists d. split; [|exact Exd].
    eapply nth_error_In; eassumption.
  - rewrite nth_error_app1 in Hj by lia. exact (N i j d y Hij Hi Hj).
Qed.

Lemma keepFirst_NoEqualPredecessor xs : forall kept,
  NoEqualPredecessor equalityTest kept ->
  NoEqualPredecessor equalityTest (keepFirst equalityTest kept xs).
Proof.
  induction xs as [|x xs IH]; intros kept N; cbn [keepFirst]; [exact N|].
  destruct (existsb (fun d => equalityTest x d) kept) eqn:E.
  - now apply IH.
  - apply IH. now apply NoEqualPredecessor_snoc.
Qed.

Lemma keepFirst_covers xs : forall kept x,
  In x xs ->
  exists d, In d (keepFirst equalityTest kept xs) /\ (d = x \/ equalityTest x d = true).
Proof.
  induction xs as [|a xs IH]; intros kept x Hin; [destruct Hin|].
  cbn [keepFirst]. destruct Hin as [-> | Hin].
  - destruct (existsb (fun d => equalityTest x d) kept) eqn:E.
    + apply existsb_exists in E. destruct E as [d [Hd Exd]].
      exists d. split; [|now right].
      destruct (keepFirst_extends xs kept) as [news [-> _]].
      apply in_or_app. now left.
    + exists x. split; [|now left].
      destruct (keepFirst_extends xs (kept ++ [x])) as [news [-> _]].
      apply in_or_app. left. apply in_or_app. right. now left.
  - destruct (existsb (fun d => equalityTest a d) kept); now apply IH.
Qed.

End KeepFirstFacts.

Section DistinctDrain.
Context {T : Type}.
Implicit Types (this : DistinctProcessor.t T).

Import DistinctProcessor.

Lemma hasNext_eq this :
  hasNext this
  = Some ((0 <? length (inputs this))%nat
          || match distinctList this with
             | Present l => (0 <? length l)%nat
             | Empty => false
             end,
          this, []).
Proof. destruct this as [q c [|l]]; reflexivity. Qed.

(** The calls on a processor that has not run yet: the first one computes
    the buffer from the whole queue, and the calls hand it out in order. *)
Lemma times_first (n : nat) this :
  distinctList this = Empty ->
  let buffer := keepFirst (comparator this) [] (inputs this) in
  processAndGetNext_times (S n) this
  = Some (map Optional.ofNullable (firstn (S n) buffer)
            ++ repeat Empty (S n - length buffer),
          mk [] (comparator this) (Present (skipn (S n) buffer)),
          comparisons (comparator this) [] (inputs this)).
Proof.
  intros E buffer. cbn [processAndGetNext_times].
  rewrite (bind_Some _ _ _ (processAndGetNext_first 0 this E)).
  fold buffer. unfold bind. rewrite times_as_ops.
  rewrite (runOps_running (repeat OpNext n)
             (mk [] (comparator this) (Present (snd (shift buffer)))) eq_refl).
  rewrite asked_repeat, added_repeat. cbn [inputs comparator ret app].
  rewrite !app_nil_r.
  destruct buffer as [|b buffer]; cbn [shift fst snd].
  - rewrite !firstn_nil, !skipn_nil. cbn. now rewrite Nat.sub_0_r.
  - reflexivity.
Qed.

End DistinctDrain.

(** * The claims on the processors *)

(** C2. The stateful stage (the distinct processor): [add] enqueues its
    input, invokes no equality test and returns nothing, so that after any
    number of [add]s nothing has been computed; the first
    [processAndGetNext] empties the whole queue into the buffer of kept
    elements before it returns the first of them; every later call returns
    the next element of that buffer (or empty), touching neither the queue
    nor the equality test. *)
Theorem distinct_stateful_contract
  (T : Type) (this : DistinctProcessor.t T) :
  (forall input,
      DistinctProcessor.add input this
      = Some (tt,
              DistinctProcessor.mk (DistinctProcessor.inputs this ++ [input])
                (DistinctProcessor.comparator this)
                (DistinctProcessor.distinctList this),
              []))
  /\ (forall xs,
      addAll xs this
      = Some (tt,
              DistinctProcessor.mk (DistinctProcessor.inputs this ++ xs)
                (DistinctProcessor.comparator this)
                (DistinctProcessor.distinctList this),
              []))
  /\ (DistinctProcessor.distinctList this = Empty ->
      forall fuel,
        let buffer :=
          keepFirst (DistinctProcessor.comparator this) [] (DistinctProcessor.inputs this) in
        DistinctProcessor.processAndGetNext (S fuel) this
        = Some (Optional.ofNullable (fst (shift buffer)),
                DistinctProcessor.mk [] (DistinctProcessor.comparator this)
                  (Present (snd (shift buffer))),
                comparisons (DistinctProcessor.comparator this) []
                  (DistinctProcessor.inputs this)))
  /\ (forall buffer,
      DistinctProcessor.distinctList this = Present buffer ->
      forall fuel,
        DistinctProcessor.processAndGetNext fuel this
        = Some (Optional.ofNullable (fst (shift buffer)),
                DistinctProcessor.mk (DistinctProcessor.inputs this)
                  (DistinctProcessor.comparator this)
                  (Present (snd (shift buffer))),
                [])).
Proof.
  split; [|split; [|split]].
  - intros input. apply add_eq.
  - intros xs. apply addAll_eq.
  - intros E fuel. now apply processAndGetNext_first.
  - intros buffer E fuel. now apply processAndGetNext_running.
Qed.

Lemma distinct_stateful_contract_witness :
  let cmp := defaultEquality Z.eqb in
  DistinctProcessor.processAndGetNext 1
    (DistinctProcessor.mk [Val 7; Val 7; Val 8]%Z cmp Empty)
  = Some (Present 7%Z,
          DistinctProcessor.mk [] cmp (Present [Val 8%Z]),
          [DistinctProcessor.ComparatorCall (Val 7) (Val 7);
           DistinctProcessor.ComparatorCall (Val 8) (Val 7)]%Z)
  /\ DistinctProcessor.processAndGetNext 0
       (DistinctProcessor.mk [Val 9%Z] cmp (Present [Val 8%Z]))
     = Some (Present 8%Z, DistinctProcessor.mk [Val 9%Z] cmp (Present []), []).
Proof.
  intros cmp. split.
  - exact (proj1 (proj2 (proj2
             (distinct_stateful_contract
                (DistinctProcessor.mk [Val 7; Val 7; Val 8]%Z cmp Empty))))
             eq_refl 0%nat).
  - exact (proj2 (proj2 (proj2
             (distinct_stateful_contract
                (DistinctProcessor.mk [Val 9%Z] cmp (Present [Val 8%Z])))))
             [Val 8%Z] eq_refl 0%nat).
Defined.

(** C3. For every input list and every equality test, the distinct
    processor hands out, one element per call and in order, exactly the
    elements that pass the test against no element kept before them
    ([keepFirst]): they are a subsequence of the inputs, no kept element
    passes the test against an earlier kept one, and every input is kept or
    passes the test against a kept element.  With the default equality
    [===] the inputs [1,2,2,3,1] give [1,2,3] and then nothing. *)
Theorem distinct_keeps_first_occurrences :
  (forall (T : Type) (equalityTest : BiPredicate (JsValue T) (JsValue T))
          (xs : list (JsValue T)),
      let kept := keepFirst equalityTest [] xs in
      (Subsequence kept xs
       /\ NoEqualPredecessor equalityTest kept
       /\ (forall x, In x xs ->
             exists d, In d kept /\ (d = x \/ equalityTest x d = true)))
      /\ (forall n : nat,
           (addAll xs ;; processAndGetNext_times (S n))
             (DistinctProcessor.new equalityTest)
           = Some (map Optional.ofNullable (firstn (S n) kept)
                     ++ repeat Empty (S n - length kept),
                   DistinctProcessor.mk [] equalityTest (Present (skipn (S n) kept)),
                   comparisons equalityTest [] xs)))
  /\ (forall (T : Type) (equalityTest : BiPredicate (JsValue T) (JsValue T))
             (vs : list T),
      exists ks,
        keepFirst equalityTest [] (map Val vs) = map Val ks
        /\ Subsequence ks vs
        /\ forall n : nat,
            returned ((addAll (map Val vs) ;; processAndGetNext_times (S n))
                        (DistinctProcessor.new equalityTest))
            = Some (map Present (firstn (S n) ks) ++ repeat Empty (S n - length ks)))
  /\ (exists evs,
        (addAll (map Val [1; 2; 2; 3; 1]%Z) ;; processAndGetNext_times 4)
          (DistinctProcessor.new (defaultEquality Z.eqb))
        = Some ([Present 1; Present 2; Present 3; Empty]%Z,
                DistinctProcessor.mk [] (defaultEquality Z.eqb) (Present []),
                evs)).
Proof.
  assert (Hcalls : forall (T : Type) (equalityTest : BiPredicate (JsValue T) (JsValue T))
                          (xs : list (JsValue T)) (n : nat),
             (addAll xs ;; processAndGetNext_times (S n))
               (DistinctProcessor.new equalityTest)
             = Some (map Optional.ofNullable (firstn (S n) (keepFirst equalityTest [] xs))
                       ++ repeat Empty (S n - length (keepFirst equalityTest [] xs)),
                     DistinctProcessor.mk [] equalityTest
                       (Present (skipn (S n) (keepFirst equalityTest [] xs))),
                     comparisons equalityTest [] xs)).
  { intros T equalityTest xs n.
    rewrite (bind_Some _ _ _ (addAll_eq xs (DistinctProcessor.new equalityTest))).
    unfold DistinctProcessor.new, Optional.empty.
    cbn [DistinctProcessor.inputs DistinctProcessor.comparator
         DistinctProcessor.distinctList app].
    rewrite (times_first n (DistinctProcessor.mk xs equalityTest Empty) eq_refl).
    reflexivity. }
  split; [|split].
  - intros T equalityTest xs kept. split.
    + split; [apply keepFirst_subsequence|]. split.
      * apply keepFirst_NoEqualPredecessor.
        intros i j d y _ Hi _. now destruct i.
      * intros x Hx. now apply keepFirst_covers.
    + intros n. apply Hcalls.
  - intros T equalityTest vs.
    destruct (Subsequence_of_values vs
                (keepFirst_subsequence equalityTest (map Val vs))) as [ks [E Hks]].
    exists ks. split; [exact E|]. split; [exact Hks|].
    intros n. rewrite Hcalls, E. cbn [returned].
    now rewrite firstn_map, map_map, length_map.
  - eexists. reflexivity.
Qed.

Lemma distinct_keeps_first_occurrences_witness :
  let equalityTest : BiPredicate (JsValue Z) (JsValue Z) :=
    fun item distinct =>
      match item, distinct with
      | Val a, Val b => (a mod 3 =? b mod 3)%Z
      | _, _ => false
      end in
  exists d,
    In d (keepFirst equalityTest [] [Val 4; Val 5; Val 7]%Z)
    /\ (d = Val 7%Z \/ equalityTest (Val 7%Z) d = true).
Proof.
  intros equalityTest.
  apply (proj2 (proj2 (proj1 (proj1 distinct_keeps_first_occurrences Z equalityTest
                                [Val 4; Val 5; Val 7]%Z)))).
  cbn. right. right. now left.
Defined.

(** C9, as the claim states it: a stage whose queue holds [undefined] would
    be indistinguishable, at the stage interface, from one whose queue
    holds no input.  It is not: [hasNext] answers true on the first and
    false on the second, for the map and for the filter processor. *)
Lemma undefined_head_is_told_apart_by_hasNext :
  Processor.observe [Processor.HasNext]
    (MapProcessor.mk [Undefined] (fun x : Z => (x + 1)%Z))
  = Some ([Processor.Bool true], [])
  /\ Processor.observe [Processor.HasNext]
       (MapProcessor.mk [] (fun x : Z => (x + 1)%Z))
     = Some ([Processor.Bool false], [])
  /\ ~ Processor.Indistinguishable
         (MapProcessor.mk [Undefined] (fun x : Z => (x + 1)%Z))
         (MapProcessor.mk [] (fun x : Z => (x + 1)%Z))
  /\ ~ Processor.Indistinguishable
         (FilterProcessor.mk [Undefined] (fun x : Z => (0 <? x)%Z))
         (FilterProcessor.mk [] (fun x : Z => (0 <? x)%Z)).
Proof.
  split; [reflexivity|]. split; [reflexivity|]. split.
  - intros H. specialize (H [Processor.HasNext]). discriminate H.
  - intros H. specialize (H [Processor.HasNext]). discriminate H.
Qed.

(** C9, amended.  A map or filter processor whose queue starts with
    [undefined] removes that element and returns the empty optional
    without invoking the transformer or the predicate: the same result,
    with the same (no) callback invocations, as on an empty queue.  The
    element is dropped without a trace: whatever is called afterwards
    answers as on a stage whose queue never held it.  Before the call the
    stage interface does show it: [hasNext] answers true while it is
    queued, and false on an empty queue. *)
Theorem undefined_head_is_dropped (T O : Type) :
  (forall (this : MapProcessor.t T O) rest,
      MapProcessor.inputs this = Undefined :: rest ->
      MapProcessor.processAndGetNext this
      = Some (Empty, MapProcessor.mk rest (MapProcessor.transformer this), [])
      /\ MapProcessor.hasNext this = Some (true, this, [])
      /\ forall calls,
           Processor.observe (Processor.ProcessAndGetNext :: calls) this
           = match Processor.observe calls
                     (MapProcessor.mk rest (MapProcessor.transformer this)) with
             | Some (answers, evs) => Some (Processor.Item Empty :: answers, evs)
             | None => None
             end)
  /\ (forall (this : MapProcessor.t T O),
      MapProcessor.inputs this = [] ->
      MapProcessor.processAndGetNext this
      = Some (Empty, MapProcessor.mk [] (MapProcessor.transformer this), [])
      /\ MapProcessor.hasNext this = Some (false, this, []))
  /\ (forall (this : FilterProcessor.t T) rest,
      FilterProcessor.inputs this = Undefined :: rest ->
      FilterProcessor.processAndGetNext this
      = Some (Empty, FilterProcessor.mk rest (FilterProcessor.predicate this), [])
      /\ FilterProcessor.hasNext this = Some (true, this, [])
      /\ forall calls,
           Processor.observe (Processor.ProcessAndGetNext :: calls) this
           = match Processor.observe calls
                     (FilterProcessor.mk rest (FilterProcessor.predicate this)) with
             | Some (answers, evs) => Some (Processor.Item Empty :: answers, evs)
             | None => None
             end)
  /\ (forall (this : FilterProcessor.t T),
      FilterProcessor.inputs this = [] ->
      FilterProcessor.processAndGetNext this
      = Some (Empty, FilterProcessor.mk [] (FilterProcessor.predicate this), [])
      /\ FilterProcessor.hasNext this = Some (false, this, [])).
Proof.
  split; [|split; [|split]].
  - intros [q f] rest E. cbn in E. subst q.
    split; [reflexivity|]. split; [reflexivity|].
    intros calls. unfold Processor.observe. cbn [Processor.invokeAll].
    unfold bind, ret. cbn.
    destruct (Processor.invokeAll calls (MapProcessor.mk rest f)) as [[[answers p] evs]|];
      [rewrite app_nil_r|]; reflexivity.
  - intros [q f] E. cbn in E. subst q. split; reflexivity.
  - intros [q p] rest E. cbn in E. subst q.
    split; [reflexivity|]. split; [reflexivity|].
    intros calls. unfold Processor.observe. cbn [Processor.invokeAll].
    unfold bind, ret. cbn.
    destruct (Processor.invokeAll calls (FilterProcessor.mk rest p)) as [[[answers p'] evs]|];
      [rewrite app_nil_r|]; reflexivity.
  - intros [q p] E. cbn in E. subst q. split; reflexivity.
Qed.

Lemma undefined_head_is_dropped_witness :
  MapProcessor.processAndGetNext
    (MapProcessor.mk [Undefined; Val 3%Z] (fun x => (x + 1)%Z))
  = Some (Empty, MapProcessor.mk [Val 3%Z] (fun x => (x + 1)%Z), [])
  /\ FilterProcessor.hasNext
       (FilterProcessor.mk [Undefined; Val 3%Z] (fun x => (0 <? x)%Z))
     = Some (true, FilterProcessor.mk [Undefined; Val 3%Z] (fun x => (0 <? x)%Z), []).
Proof.
  split.
  - exact (proj1 (proj1 (undefined_head_is_dropped Z Z)
                    (MapProcessor.mk [Undefined; Val 3%Z] (fun x => (x + 1)%Z))
                    [Val 3%Z] eq_refl)).
  - exact (proj1 (proj2 (proj1 (proj2 (proj2 (undefined_head_is_dropped Z Z)))
                           (FilterProcessor.mk [Undefined; Val 3%Z] (fun x => (0 <? x)%Z))
                           [Val 3%Z] eq_refl))).
Defined.

(** C10. Once [processAndGetNext] has been called on a distinct processor,
    whatever a client adds and asks afterwards, the outputs are the
    elements of the buffer computed by that first call, in order, and empty
    once it is used up: the elements added later stay in the queue, are
    never handed out and are never compared.  While one of them sits in the
    queue [hasNext] answers true, also when the buffer is used up and every
    [processAndGetNext] returns empty. *)
Theorem distinct_ignores_late_inputs
  (T : Type) (this0 : DistinctProcessor.t T) (fuel : nat) :
  DistinctProcessor.distinctList this0 = Empty ->
  exists first this1 evs buffer,
    DistinctProcessor.processAndGetNext (S fuel) this0 = Some (first, this1, evs)
    /\ this1 = DistinctProcessor.mk [] (DistinctProcessor.comparator this0) (Present buffer)
    /\ forall ops : list (Op T),
        let this2 :=
          DistinctProcessor.mk (added ops) (DistinctProcessor.comparator this0)
            (Present (skipn (asked ops) buffer)) in
        runOps ops this1
        = Some (map Optional.ofNullable (firstn (asked ops) buffer)
                  ++ repeat Empty (asked ops - length buffer),
                this2, [])
        /\ (added ops <> [] ->
            DistinctProcessor.hasNext this2 = Some (true, this2, []))
        /\ (length buffer <= asked ops ->
            forall fuel',
              DistinctProcessor.processAndGetNext fuel' this2 = Some (Empty, this2, [])).
Proof.
  intros E.
  pose proof (processAndGetNext_first fuel this0 E) as F. cbv zeta in F.
  set (kept := keepFirst (DistinctProcessor.comparator this0) []
                 (DistinctProcessor.inputs this0)) in *.
  eexists _, _, _, (snd (shift kept)). split; [exact F|]. split; [reflexivity|].
  intros ops this2. split; [|split].
  - rewrite (runOps_running ops
               (DistinctProcessor.mk [] (DistinctProcessor.comparator this0)
                  (Present (snd (shift kept)))) eq_refl).
    reflexivity.
  - intros Hadded. rewrite hasNext_eq. subst this2.
    cbn [DistinctProcessor.inputs DistinctProcessor.distinctList].
    destruct (added ops); [congruence|reflexivity].
  - intros Hlen fuel'. subst this2.
    rewrite (processAndGetNext_running fuel'
               (DistinctProcessor.mk (added ops) (DistinctProcessor.comparator this0)
                  (Present (skipn (asked ops) (snd (shift kept))))) eq_refl).
    rewrite skipn_all2 by exact Hlen. reflexivity.
Qed.

Lemma distinct_ignores_late_inputs_witness :
  exists first this1 evs buffer,
    DistinctProcessor.processAndGetNext 1
      (DistinctProcessor.mk [Val 1%Z; Val 1%Z] (defaultEquality Z.eqb) Empty)
    = Some (first, this1, evs)
    /\ this1 = DistinctProcessor.mk [] (defaultEquality Z.eqb) (Present buffer)
    /\ runOps [OpAdd (Val 5%Z); OpNext; OpNext] this1
       = Some ([Empty; Empty],
               DistinctProcessor.mk [Val 5%Z] (defaultEquality Z.eqb) (Present []), []).
Proof.
  destruct (@distinct_ignores_late_inputs Z
              (DistinctProcessor.mk [Val 1%Z; Val 1%Z] (defaultEquality Z.eqb) Empty)
              0%nat eq_refl)
    as [first [this1 [evs [buffer [F [E R]]]]]].
  exists first, this1, evs, buffer. split; [exact F|]. split; [exact E|].
  subst this1. injection F as _ Hbuf _. subst buffer. reflexivity.
Defined.

(** * Properties of the terminal operations *)

Lemma last_nonempty_default {A} (l : list A) : forall a d1 d2,
  last (a :: l) d1 = last (a :: l) d2.
Proof.
  induction l as [|b l IH]; intros a d1 d2; [reflexivity|].
  change (last (a :: b :: l) d1) with (last (b :: l) d1).
  change (last (a :: b :: l) d2) with (last (b :: l) d2).
  apply IH.
Qed.

Section StreamFacts.
Context {Pipe T : Type} `{ProcessorPipeline Pipe T}.
Implicit Types (s : PipelineStream.t Pipe) (p : Pipe) (xs ys : list T).

Import PipelineStream.

Lemma getNextProcessedItem_eq fuel s o p' :
  getNextResult fuel (pipeline s) = Some (o, p') ->
  getNextProcessedItem fuel s = Some (o, mk p' true, [Pull]).
Proof.
  intros E. destruct s as [p started]. cbn in E.
  unfold getNextProcessedItem. eff_unfold. rewrite E. reflexivity.
Qed.

Lemma getNextProcessedItem_None fuel s :
  getNextResult fuel (pipeline s) = None ->
  getNextProcessedItem fuel s = None.
Proof.
  intros E. destruct s as [p started]. cbn in E.
  unfold getNextProcessedItem. eff_unfold. rewrite E. reflexivity.
Qed.

Ltac while_is_match_while :=
  let fuel := fresh "fuel" in
  let IH := fresh "IH" in
  let nextItem := fresh "nextItem" in
  let s := fresh "s" in
  let predicate := fresh "predicate" in
  let x := fresh "x" in
  intros ? fuel; induction fuel as [|fuel IH]; intros predicate nextItem s;
  destruct nextItem as [|x]; try reflexivity;
  cbn; unfold bind; cbn;
  destruct (predicate x); cbn; try reflexivity;
  match goal with
  | |- context [getNextResult ?b ?p] =>
      destruct (getNextResult b p) as [[? ?]|]; [|reflexivity]
  end;
  cbn; unfold bind; cbn; rewrite IH; reflexivity.

Lemma allMatch_while_eq : forall budget fuel predicate nextItem s,
  allMatch_while budget fuel predicate nextItem s
  = match_while false false true budget fuel predicate nextItem s.
Proof. while_is_match_while. Qed.

Lemma noneMatch_while_eq : forall budget fuel predicate nextItem s,
  noneMatch_while budget fuel predicate nextItem s
  = match_while true false true budget fuel predicate nextItem s.
Proof. while_is_match_while. Qed.

Lemma anyMatch_while_eq : forall budget fuel predicate nextItem s,
  anyMatch_while budget fuel predicate nextItem s
  = match_while true true false budget fuel predicate nextItem s.
Proof. while_is_match_while. Qed.

Lemma match_while_step stopOn onStop onEnd budget fuel predicate x s :
  match_while stopOn onStop onEnd budget (S fuel) predicate (Present x) s
  = if Bool.eqb (predicate x) stopOn
    then Some (onStop, s, [PredicateCall x])
    else match getNextProcessedItem budget s with
         | Some (nextItem, s1, e1) =>
             match match_while stopOn onStop onEnd budget fuel predicate nextItem s1 with
             | Some (b, s2, e2) => Some (b, s2, PredicateCall x :: e1 ++ e2)
             | None => None
             end
         | None => None
         end.
Proof.
  cbn [match_while Optional.isPresent Optional.get].
  unfold callPredicate. unfold bind, emit, ret. cbn [app].
  destruct (Bool.eqb (predicate x) stopOn); [reflexivity|].
  destruct (getNextProcessedItem budget s) as [[[nextItem s1] e1]|]; [|reflexivity].
  destruct (match_while stopOn onStop onEnd budget fuel predicate nextItem s1)
    as [[[b s2] e2]|]; reflexivity.
Qed.

(** The loop stops at the first determining element: the pipeline is left
    as it was when that element was pulled. *)
Lemma match_while_stops stopOn onStop onEnd budget predicate ys :
  forall x p p' fuel,
    Yields budget p ys p' ->
    forallb (fun y => negb (Bool.eqb (predicate y) stopOn)) (removelast (x :: ys)) = true ->
    Bool.eqb (predicate (last (x :: ys) x)) stopOn = true ->
    length ys < fuel ->
    match_while stopOn onStop onEnd budget fuel predicate (Present x) (mk p true)
    = Some (onStop, mk p' true, PredicateCall x :: matchTrace ys).
Proof.
  induction ys as [|y ys IH]; intros x p p' fuel Y Hall Hlast Hfuel.
  - inversion Y; subst. destruct fuel as [|fuel]; [inversion Hfuel|].
    cbn in Hlast. rewrite match_while_step. now rewrite Hlast.
  - inversion Y as [|? ? p1 ? ? Hpull Y']; subst.
    destruct fuel as [|fuel]; [inversion Hfuel|].
    change (removelast (x :: y :: ys)) with (x :: removelast (y :: ys)) in Hall.
    cbn [forallb] in Hall. apply andb_true_iff in Hall. destruct Hall as [Hx Hall].
    change (last (x :: y :: ys) x) with (last (y :: ys) x) in Hlast.
    rewrite (last_nonempty_default ys y x y) in Hlast.
    apply negb_true_iff in Hx.
    rewrite match_while_step, Hx.
    rewrite (getNextProcessedItem_eq budget (mk p true) Hpull).
    rewrite (IH y p1 p' fuel Y' Hall Hlast ltac:(cbn in Hfuel; lia)).
    reflexivity.
Qed.

(** Without a determining element the loop runs until the pipeline is
    exhausted. *)
Lemma match_while_ends stopOn onStop onEnd budget predicate ys :
  forall x p p1 p2 fuel,
    Yields budget p ys p1 ->
    getNextResult budget p1 = Some (Empty, p2) ->
    forallb (fun y => negb (Bool.eqb (predicate y) stopOn)) (x :: ys) = true ->
    length ys < fuel ->
    match_while stopOn onStop onEnd budget fuel predicate (Present x) (mk p true)
    = Some (onEnd, mk p2 true, PredicateCall x :: matchTrace ys ++ [Pull]).
Proof.
  induction ys as [|y ys IH]; intros x p p1 p2 fuel Y Hend Hall Hfuel;
    (destruct fuel as [|fuel]; [inversion Hfuel|]);
    cbn [forallb] in Hall; apply andb_true_iff in Hall; destruct Hall as [Hx Hall];
    apply negb_true_iff in Hx; rewrite match_while_step, Hx.
  - inversion Y; subst.
    rewrite (getNextProcessedItem_eq budget (mk p1 true) Hend).
    destruct fuel; reflexivity.
  - inversion Y as [|? ? p' ? ? Hpull Y']; subst.
    rewrite (getNextProcessedItem_eq budget (mk p true) Hpull).
    rewrite (IH y p' p1 p2 fuel Y' Hend Hall ltac:(cbn in Hfuel; lia)).
    reflexivity.
Qed.

(** A match operation on a pipeline whose first determining element is
    [d], after the elements [xs]. *)
Lemma match_stops stopOn onStop onEnd budget fuel predicate xs d s p' :
  Yields budget (pipeline s) (xs ++ [d]) p' ->
  forallb (fun y => negb (Bool.eqb (predicate y) stopOn)) xs = true ->
  Bool.eqb (predicate d) stopOn = true ->
  length xs < fuel ->
  (nextItem <- getNextProcessedItem budget ;;
   match_while stopOn onStop onEnd budget fuel predicate nextItem) s
  = Some (onStop, mk p' true, matchTrace (xs ++ [d])).
Proof.
  intros Y Hall Hd Hfuel.
  destruct xs as [|x xs].
  - cbn [app] in Y. inversion Y as [|? ? p1 ? ? Hpull Y']; subst.
    rewrite (bind_Some _ _ _ (getNextProcessedItem_eq budget s Hpull)).
    rewrite (@match_while_stops stopOn onStop onEnd budget predicate [] d p1 p' fuel
               Y' eq_refl Hd Hfuel).
    reflexivity.
  - change ((x :: xs) ++ [d]) with (x :: (xs ++ [d])) in Y.
    inversion Y as [|? ? p1 ? ? Hpull Y']; subst.
    rewrite (bind_Some _ _ _ (getNextProcessedItem_eq budget s Hpull)).
    rewrite (@match_while_stops stopOn onStop onEnd budget predicate (xs ++ [d]) x p1 p' fuel Y').
    + reflexivity.
    + change (x :: xs ++ [d]) with ((x :: xs) ++ [d]). now rewrite removelast_last.
    + change (x :: xs ++ [d]) with ((x :: xs) ++ [d]). now rewrite last_last.
    + rewrite length_app. cbn in *. lia.
Qed.

Lemma forallb_pointwise {A} (f g : A -> bool) (l : list A) :
  (forall a, f a = g a) -> forallb f l = forallb g l.
Proof.
  intros E. induction l as [|a l IH]; [reflexivity|].
  cbn. now rewrite E, IH.
Qed.

(** *** reduce *)

Lemma reduce_while_step budget fuel accumulator currentValue x s :
  reduce_while budget (S fuel) accumulator currentValue (Present x) s
  = match getNextProcessedItem budget s with
    | Some (nextItem, s1, e1) =>
        match reduce_while budget fuel accumulator
                (Present (reduceStep accumulator currentValue x)) nextItem s1 with
        | Some (r, s2, e2) =>
            Some (r, s2,
                  match currentValue with
                  | Present c => [ReducerCall c x]
                  | Empty => []
                  end ++ e1 ++ e2)
        | None => None
        end
    | None => None
    end.
Proof.
  cbn [reduce_while Optional.isPresent].
  destruct currentValue as [|c]; cbn [Optional.isPresent Optional.get reduceStep];
    unfold Optional.of_, bind, emit, ret; cbn [app];
    (destruct (getNextProcessedItem budget s) as [[[nextItem s1] e1]|]; [|reflexivity]);
    match goal with
    | |- context [reduce_while ?b ?f ?a ?c ?n ?s] =>
        destruct (reduce_while b f a c n s) as [[[r s2] e2]|]; reflexivity
    end.
Qed.

Lemma reduce_while_folds budget accumulator ys :
  forall x currentValue p p1 p2 fuel,
    Yields budget p ys p1 ->
    getNextResult budget p1 = Some (Empty, p2) ->
    length ys < fuel ->
    exists evs,
      reduce_while budget fuel accumulator currentValue (Present x) (mk p true)
      = Some (Present (fold_left accumulator ys (reduceStep accumulator currentValue x)),
              mk p2 true, evs).
Proof.
  induction ys as [|y ys IH]; intros x currentValue p p1 p2 fuel Y Hend Hfuel;
    (destruct fuel as [|fuel]; [inversion Hfuel|]); rewrite reduce_while_step.
  - inversion Y; subst.
    rewrite (getNextProcessedItem_eq budget (mk p1 true) Hend).
    destruct fuel; eexists; reflexivity.
  - inversion Y as [|? ? p' ? ? Hpull Y']; subst.
    rewrite (getNextProcessedItem_eq budget (mk p true) Hpull).
    destruct (IH y (Present (reduceStep accumulator currentValue x)) p' p1 p2 fuel
                Y' Hend ltac:(cbn in Hfuel; lia)) as [evs ->].
    eexists. reflexivity.
Qed.

Lemma reduce_folds budget accumulator initialValue s xs p1 p2 :
  Yields budget (pipeline s) xs p1 ->
  getNextResult budget p1 = Some (Empty, p2) ->
  length xs <= budget ->
  exists evs,
    reduce budget accumulator initialValue s
    = Some (match xs with
            | [] => Optional.ofNullable initialValue
            | x :: rest =>
                Present (fold_left accumulator rest
                           (reduceStep accumulator (Optional.ofNullable initialValue) x))
            end,
            mk p2 true, evs).
Proof.
  intros Y Hend Hfuel. unfold reduce.
  inversion Y as [|? x p' ys ? Hpull Y']; subst.
  - rewrite (bind_Some _ _ _ (getNextProcessedItem_eq budget s Hend)).
    destruct budget; eexists; reflexivity.
  - rewrite (bind_Some _ _ _ (getNextProcessedItem_eq budget s Hpull)).
    assert (Hlt : length ys < budget) by (cbn in Hfuel; lia).
    destruct (reduce_while_folds accumulator x (Optional.ofNullable initialValue)
                Y' Hend Hlt) as [evs ->].
    eexists. reflexivity.
Qed.

(** *** collect *)

Lemma collect_while_step {R} budget fuel (accumulator : BiConsumer R T) container x s :
  collect_while budget (S fuel) accumulator container (Present x) s
  = match getNextProcessedItem budget s with
    | Some (nextItem, s1, e1) =>
        match collect_while budget fuel accumulator (accumulator container x) nextItem s1 with
        | Some (c, s2, e2) => Some (c, s2, AccumulatorCall x :: e1 ++ e2)
        | None => None
        end
    | None => None
    end.
Proof.
  cbn [collect_while Optional.isPresent Optional.get].
  unfold bind, emit, ret. cbn [app].
  destruct (getNextProcessedItem budget s) as [[[nextItem s1] e1]|]; [|reflexivity].
  destruct (collect_while budget fuel accumulator (accumulator container x) nextItem s1)
    as [[[c s2] e2]|]; reflexivity.
Qed.

Lemma collect_while_yields {R} budget (accumulator : BiConsumer R T) ys :
  forall x container p p1 p2 fuel,
    Yields budget p ys p1 ->
    getNextResult budget p1 = Some (Empty, p2) ->
    length ys < fuel ->
    collect_while budget fuel accumulator container (Present x) (mk p true)
    = Some (fold_left accumulator (x :: ys) container, mk p2 true,
            AccumulatorCall x
              :: flat_map (fun y => [Pull; AccumulatorCall y]) ys ++ [Pull]).
Proof.
  induction ys as [|y ys IH]; intros x container p p1 p2 fuel Y Hend Hfuel;
    (destruct fuel as [|fuel]; [inversion Hfuel|]); rewrite collect_while_step.
  - inversion Y; subst.
    rewrite (getNextProcessedItem_eq budget (mk p1 true) Hend).
    destruct fuel; reflexivity.
  - inversion Y as [|? ? p' ? ? Hpull Y']; subst.
    rewrite (getNextProcessedItem_eq budget (mk p true) Hpull).
    rewrite (IH y (accumulator container x) p' p1 p2 fuel Y' Hend
               ltac:(cbn in Hfuel; lia)).
    reflexivity.
Qed.

(** [customCollect] on a stream that yields [xs] and is then exhausted. *)
Lemma customCollect_yields {R} fuel (supplier : Supplier R)
  (accumulator : BiConsumer R T) (combiner : BiConsumer R R) s xs p1 p2 :
  Yields fuel (pipeline s) xs p1 ->
  getNextResult fuel p1 = Some (Empty, p2) ->
  length xs <= fuel ->
  customCollect fuel supplier accumulator combiner s
  = Some (fold_left accumulator xs (supplier tt), mk p2 true, collectTrace xs).
Proof.
  intros Y Hend Hfuel. unfold customCollect, collectTrace.
  rewrite (bind_Some _ _ _ (eq_refl : emit SupplierCall s = Some (tt, s, [SupplierCall]))).
  inversion Y as [|? x p' ys ? Hpull Y']; subst.
  - rewrite (bind_Some _ _ _ (getNextProcessedItem_eq fuel s Hend)).
    destruct fuel; reflexivity.
  - rewrite (bind_Some _ _ _ (getNextProcessedItem_eq fuel s Hpull)).
    assert (Hlt : length ys < fuel) by (cbn in Hfuel; lia).
    rewrite (bind_Some _ _ _
               (collect_while_yields accumulator x (supplier tt) Y' Hend Hlt)).
    cbn [ret app flat_map fold_left]. now rewrite app_nil_r.
Qed.

Lemma fold_left_push {A} (xs : list A) : forall l,
  fold_left (fun l x => push l x) xs l = l ++ xs.
Proof.
  induction xs as [|x xs IH]; intros l; cbn [fold_left].
  - now rewrite app_nil_r.
  - rewrite IH. unfold push. now rewrite <- app_assoc.
Qed.

(** [toArray] on a stream that yields [xs] and is then exhausted. *)
Lemma toArray_yields fuel s xs p1 p2 :
  Yields fuel (pipeline s) xs p1 ->
  getNextResult fuel p1 = Some (Empty, p2) ->
  length xs <= fuel ->
  toArray fuel s = Some (Val xs, mk p2 true, collectTrace xs ++ [FinisherCall]).
Proof.
  intros Y Hend Hfuel. unfold toArray, collectTrace. cbn [collect].
  rewrite (bind_Some _ _ _ (eq_refl : emit SupplierCall s = Some (tt, s, [SupplierCall]))).
  inversion Y as [|? x p' ys ? Hpull Y']; subst.
  - rewrite (bind_Some _ _ _ (getNextProcessedItem_eq fuel s Hend)).
    destruct fuel; reflexivity.
  - rewrite (bind_Some _ _ _ (getNextProcessedItem_eq fuel s Hpull)).
    assert (Hlt : length ys < fuel) by (cbn in Hfuel; lia).
    rewrite (bind_Some _ _ _
               (collect_while_yields
                  (Collector.accumulator Collectors.toList) x
                  (Collector.supplier Collectors.toList tt) Y' Hend Hlt)).
    cbn [Collectors.toList Collector.accumulator Collector.supplier Collector.finisher].
    rewrite (fold_left_push (x :: ys) []).
    cbn [bind emit ret app flat_map]. unfold bind, emit, ret.
    cbn [app]. now rewrite <- !app_assoc.
Qed.

End StreamFacts.

(** * The claims on the terminal operations *)

(** C4. On a stream whose first pull finds nothing, [allMatch] returns
    true, [anyMatch] false and [noneMatch] true, after that one pull and
    without any call of the predicate.  On a stream that yields [xs] and
    then a first determining element [d] (the first element failing the
    predicate for [allMatch], the first element passing it for [anyMatch]
    and [noneMatch]) the operation returns at [d]: the predicate has been
    called on [xs] and [d] in order, once each, and the pipeline is left as
    it was when [d] was pulled. *)
Theorem match_operations_short_circuit
  (Pipe T : Type) (PP : ProcessorPipeline Pipe T)
  (predicate : Predicate T) (fuel : nat) (s : PipelineStream.t Pipe) :
  (forall p',
      getNextResult fuel (PipelineStream.pipeline s) = Some (Empty, p') ->
      PipelineStream.allMatch fuel predicate s
      = Some (true, PipelineStream.mk p' true, [PipelineStream.Pull])
      /\ PipelineStream.anyMatch fuel predicate s
         = Some (false, PipelineStream.mk p' true, [PipelineStream.Pull])
      /\ PipelineStream.noneMatch fuel predicate s
         = Some (true, PipelineStream.mk p' true, [PipelineStream.Pull]))
  /\ (forall xs d p',
      Yields fuel (PipelineStream.pipeline s) (xs ++ [d]) p' ->
      length xs < fuel ->
      (forallb predicate xs = true -> predicate d = false ->
       PipelineStream.allMatch fuel predicate s
       = Some (false, PipelineStream.mk p' true, matchTrace (xs ++ [d])))
      /\ (forallb (fun x => negb (predicate x)) xs = true -> predicate d = true ->
          PipelineStream.anyMatch fuel predicate s
          = Some (true, PipelineStream.mk p' true, matchTrace (xs ++ [d]))
          /\ PipelineStream.noneMatch fuel predicate s
             = Some (false, PipelineStream.mk p' true, matchTrace (xs ++ [d])))).
Proof.
  split.
  - intros p' E.
    unfold PipelineStream.allMatch, PipelineStream.anyMatch, PipelineStream.noneMatch.
    rewrite !(bind_Some _ _ _ (getNextProcessedItem_eq fuel s E)).
    destruct fuel; repeat split; reflexivity.
  - intros xs d p' Y Hfuel. split.
    + intros Hall Hd. unfold PipelineStream.allMatch.
      rewrite <- (@match_stops _ _ _ false false true fuel fuel predicate xs d s p' Y);
        [ | | now rewrite Hd | exact Hfuel].
      * unfold bind.
        destruct (PipelineStream.getNextProcessedItem fuel s) as [[[n s1] e1]|];
          [|reflexivity].
        now rewrite allMatch_while_eq.
      * etransitivity; [|exact Hall]. apply forallb_pointwise. intros a. now destruct (predicate a).
    + intros Hall Hd. split.
      * unfold PipelineStream.anyMatch.
        rewrite <- (@match_stops _ _ _ true true false fuel fuel predicate xs d s p' Y);
          [ | | now rewrite Hd | exact Hfuel].
        -- unfold bind.
           destruct (PipelineStream.getNextProcessedItem fuel s) as [[[n s1] e1]|];
             [|reflexivity].
           now rewrite anyMatch_while_eq.
        -- etransitivity; [|exact Hall]. apply forallb_pointwise. intros a. now destruct (predicate a).
      * unfold PipelineStream.noneMatch.
        rewrite <- (@match_stops _ _ _ true false true fuel fuel predicate xs d s p' Y);
          [ | | now rewrite Hd | exact Hfuel].
        -- unfold bind.
           destruct (PipelineStream.getNextProcessedItem fuel s) as [[[n s1] e1]|];
             [|reflexivity].
           now rewrite noneMatch_while_eq.
        -- etransitivity; [|exact Hall]. apply forallb_pointwise. intros a. now destruct (predicate a).
Qed.

Lemma match_operations_short_circuit_witness :
  PipelineStream.allMatch 5 Z.even (Stream.of_ [])
  = Some (true,
          PipelineStream.mk (Pipeline.mk (ArraySource.mk []) 1 []) true,
          [PipelineStream.Pull])
  /\ PipelineStream.allMatch 5 Z.even (Stream.of_ [2; 4; 5; 6]%Z)
     = Some (false,
             PipelineStream.mk (Pipeline.mk (ArraySource.mk [6%Z]) 3 []) true,
             matchTrace [2; 4; 5]%Z)
  /\ PipelineStream.anyMatch 5 Z.even (Stream.of_ [1; 3; 4; 6]%Z)
     = Some (true,
             PipelineStream.mk (Pipeline.mk (ArraySource.mk [6%Z]) 3 []) true,
             matchTrace [1; 3; 4]%Z).
Proof.
  split; [|split].
  - exact (proj1 (proj1 (match_operations_short_circuit _ Z.even 5 (Stream.of_ []))
                    _ eq_refl)).
  - refine (proj1 (proj2 (match_operations_short_circuit _ Z.even 5
                            (Stream.of_ [2; 4; 5; 6]%Z))
                     [2; 4]%Z 5%Z _ _ _) eq_refl eq_refl).
    + repeat (eapply Yields_cons; [reflexivity|]). apply Yields_nil.
    + cbn. lia.
  - refine (proj1 (proj2 (proj2 (match_operations_short_circuit _ Z.even 5
                                   (Stream.of_ [1; 3; 4; 6]%Z))
                            [1; 3]%Z 4%Z _ _ _) eq_refl eq_refl)).
    + repeat (eapply Yields_cons; [reflexivity|]). apply Yields_nil.
    + cbn. lia.
Defined.

(** C5. [reduce] on a stream that yields the elements [xs] and is then
    exhausted: with no seed the result is empty when [xs] is empty and
    otherwise the left-to-right fold of the other elements from the first
    one; with a seed it is the left-to-right fold of [xs] from the seed,
    wrapped present (the seed itself when [xs] is empty).  In particular
    [reduce((a,b) => a+b)] on [1,2,3,4] with no seed returns 10. *)
Theorem reduce_folds_left :
  (forall (Pipe T : Type) (PP : ProcessorPipeline Pipe T)
          (accumulator : BiFunction T) (fuel : nat) (s : PipelineStream.t Pipe)
          (xs : list T) (p1 p2 : Pipe),
      Yields fuel (PipelineStream.pipeline s) xs p1 ->
      getNextResult fuel p1 = Some (Empty, p2) ->
      length xs <= fuel ->
      (exists evs,
          PipelineStream.reduce fuel accumulator Undefined s
          = Some (match xs with
                  | [] => Empty
                  | x :: rest => Present (fold_left accumulator rest x)
                  end,
                  PipelineStream.mk p2 true, evs))
      /\ (forall seed, exists evs,
          PipelineStream.reduce fuel accumulator (Val seed) s
          = Some (Present (fold_left accumulator xs seed),
                  PipelineStream.mk p2 true, evs)))
  /\ (exists s' evs,
        PipelineStream.reduce 5 Z.add Undefined (Stream.of_ [1; 2; 3; 4]%Z)
        = Some (Present 10%Z, s', evs)).
Proof.
  split.
  - intros Pipe T PP accumulator fuel s xs p1 p2 Y Hend Hfuel. split.
    + destruct (reduce_folds accumulator Undefined s Y Hend Hfuel) as [evs E].
      exists evs. rewrite E. now destruct xs.
    + intros seed.
      destruct (reduce_folds accumulator (Val seed) s Y Hend Hfuel) as [evs E].
      exists evs. rewrite E. now destruct xs.
  - eexists _, _. reflexivity.
Qed.

Lemma reduce_folds_left_witness :
  (exists evs,
      PipelineStream.reduce 5 Z.mul Undefined (Stream.of_ [2; 3; 4]%Z)
      = Some (Present 24%Z,
              PipelineStream.mk (Pipeline.mk (ArraySource.mk []) 4 []) true, evs))
  /\ (exists evs,
      PipelineStream.reduce 5 Z.mul (Val 7%Z) (Stream.of_ [])
      = Some (Present 7%Z,
              PipelineStream.mk (Pipeline.mk (ArraySource.mk []) 1 []) true, evs)).
Proof.
  split.
  - refine (proj1 (proj1 reduce_folds_left _ _ _ Z.mul 5 (Stream.of_ [2; 3; 4]%Z)
                     [2; 3; 4]%Z
                     (Pipeline.mk (ArraySource.mk []) 3 [])
                     (Pipeline.mk (ArraySource.mk []) 4 []) _ eq_refl _)).
    + repeat (eapply Yields_cons; [reflexivity|]). apply Yields_nil.
    + cbn. lia.
  - refine (proj2 (proj1 reduce_folds_left _ _ _ Z.mul 5 (Stream.of_ [])
                     []
                     (Pipeline.mk (ArraySource.mk []) 0 [])
                     (Pipeline.mk (ArraySource.mk []) 1 []) _ eq_refl _) 7%Z).
    + apply Yields_nil.
    + cbn. lia.
Defined.

(** C7 (the code departs from it). On a stream that yields [xs] and is
    then exhausted, [customCollect(supplier, accumulator, combiner)] calls
    the supplier once and the accumulator once per element in pull order,
    never the combiner, and returns the container so filled.
    [collect(supplier, accumulator, combiner)] runs [customCollect] on its
    three arguments and then drops the container: it makes the same calls,
    leaves the stream in the same state, and returns [undefined].  On the
    stream of [1,2,3] with an array as the container, [customCollect]
    returns [1,2,3] and [collect] returns [undefined]. *)
Theorem collect_with_supplier_drops_container :
  (forall (Pipe T : Type) (PP : ProcessorPipeline Pipe T) (R : Type) (fuel : nat)
          (supplier : Supplier R) (accumulator : BiConsumer R T)
          (combiner : BiConsumer R R) (s : PipelineStream.t Pipe),
      PipelineStream.collect (A := R) fuel (inr supplier) (Some accumulator) (Some combiner) s
      = match PipelineStream.customCollect fuel supplier accumulator combiner s with
        | Some (_, s', evs) => Some (Undefined, s', evs)
        | None => None
        end)
  /\ (forall (Pipe T : Type) (PP : ProcessorPipeline Pipe T) (R : Type) (fuel : nat)
             (supplier : Supplier R) (accumulator : BiConsumer R T)
             (combiner : BiConsumer R R) (s : PipelineStream.t Pipe)
             (xs : list T) (p1 p2 : Pipe),
      Yields fuel (PipelineStream.pipeline s) xs p1 ->
      getNextResult fuel p1 = Some (Empty, p2) ->
      length xs <= fuel ->
      PipelineStream.customCollect fuel supplier accumulator combiner s
      = Some (fold_left accumulator xs (supplier tt),
              PipelineStream.mk p2 true, collectTrace xs)
      /\ PipelineStream.collect (A := R) fuel (inr supplier) (Some accumulator)
           (Some combiner) s
         = Some (Undefined, PipelineStream.mk p2 true, collectTrace xs))
  /\ (let supplier : Supplier (list Z) := fun _ => [] in
      let accumulator : BiConsumer (list Z) Z := fun l x => push l x in
      let combiner : BiConsumer (list Z) (list Z) := fun l1 l2 => l1 ++ l2 in
      let s' := PipelineStream.mk (Pipeline.mk (ArraySource.mk []) 4 []) true in
      let evs :=
        [PipelineStream.SupplierCall;
         PipelineStream.Pull; PipelineStream.AccumulatorCall 1%Z;
         PipelineStream.Pull; PipelineStream.AccumulatorCall 2%Z;
         PipelineStream.Pull; PipelineStream.AccumulatorCall 3%Z;
         PipelineStream.Pull] in
      PipelineStream.customCollect 5 supplier accumulator combiner (Stream.of_ [1; 2; 3]%Z)
      = Some ([1; 2; 3]%Z, s', evs)
      /\ PipelineStream.collect (A := list Z) 5 (inr supplier) (Some accumulator)
           (Some combiner) (Stream.of_ [1; 2; 3]%Z)
         = Some (Undefined, s', evs)).
Proof.
  assert (Hdrop :
    forall (Pipe T : Type) (PP : ProcessorPipeline Pipe T) (R : Type) (fuel : nat)
           (supplier : Supplier R) (accumulator : BiConsumer R T)
           (combiner : BiConsumer R R) (s : PipelineStream.t Pipe),
      PipelineStream.collect (A := R) fuel (inr supplier) (Some accumulator) (Some combiner) s
      = match PipelineStream.customCollect fuel supplier accumulator combiner s with
        | Some (_, s', evs) => Some (Undefined, s', evs)
        | None => None
        end).
  { intros Pipe T PP R fuel supplier accumulator combiner s.
    cbn [PipelineStream.collect]. unfold bind at 1.
    destruct (PipelineStream.customCollect fuel supplier accumulator combiner s)
      as [[[c s'] evs]|]; [|reflexivity].
    cbn. now rewrite app_nil_r. }
  split; [exact Hdrop|]. split.
  - intros Pipe T PP R fuel supplier accumulator combiner s xs p1 p2 Y Hend Hfuel.
    pose proof (customCollect_yields supplier accumulator combiner s Y Hend Hfuel) as E.
    split; [exact E|]. now rewrite Hdrop, E.
  - cbv zeta. split; reflexivity.
Qed.

Lemma collect_with_supplier_drops_container_witness :
  let supplier : Supplier Z := fun _ => 0%Z in
  let accumulator : BiConsumer Z Z := fun total x => (total + x)%Z in
  let combiner : BiConsumer Z Z := fun t1 t2 => (t1 + t2)%Z in
  let s' := PipelineStream.mk (Pipeline.mk (ArraySource.mk []) 3 []) true in
  PipelineStream.customCollect 4 supplier accumulator combiner (Stream.of_ [20; 22]%Z)
  = Some (42%Z, s', collectTrace [20; 22]%Z)
  /\ PipelineStream.collect (A := Z) 4 (inr supplier) (Some accumulator) (Some combiner)
       (Stream.of_ [20; 22]%Z)
     = Some (Undefined, s', collectTrace [20; 22]%Z).
Proof.
  intros supplier accumulator combiner s'.
  refine (proj1 (proj2 collect_with_supplier_drops_container) _ _ _ Z 4
            supplier accumulator combiner (Stream.of_ [20; 22]%Z) [20; 22]%Z
            (Pipeline.mk (ArraySource.mk []) 2 [])
            (Pipeline.mk (ArraySource.mk []) 3 []) _ eq_refl _).
  - repeat (eapply Yields_cons; [reflexivity|]). apply Yields_nil.
  - cbn. lia.
Defined.

(** C8. [findAny] and [findFirst] are the same function of the stream: the
    outcome of one pull on the pipeline, which is the first element of the
    source wrapped present, or empty when there is none. *)
Theorem findAny_is_findFirst :
  (forall (Pipe T : Type) (PP : ProcessorPipeline Pipe T) (fuel : nat)
          (s : PipelineStream.t Pipe),
      PipelineStream.findAny fuel s = PipelineStream.findFirst fuel s
      /\ PipelineStream.findFirst fuel s
         = match getNextResult fuel (PipelineStream.pipeline s) with
           | Some (next, pipeline') =>
               Some (next, PipelineStream.mk pipeline' true, [PipelineStream.Pull])
           | None => None
           end)
  /\ (forall (V : Type) (source : list V) (fuel : nat),
      PipelineStream.findAny (S fuel) (Stream.of_ source)
      = Some (match source with [] => Empty | x :: _ => Present x end,
              PipelineStream.mk (Pipeline.mk (ArraySource.mk (tl source)) 1 []) true,
              [PipelineStream.Pull])).
Proof.
  split.
  - intros Pipe T PP fuel s. split; [reflexivity|].
    unfold PipelineStream.findFirst.
    destruct (getNextResult fuel (PipelineStream.pipeline s)) as [[next p']|] eqn:E.
    + now apply getNextProcessedItem_eq.
    + now apply getNextProcessedItem_None.
  - intros V [|x source] fuel; reflexivity.
Qed.

(** * Properties of the pipeline *)

Section LimitFacts.
Context {S V : Type} `{Source S V}.
Implicit Types (l : LimitProcessor.t V) (chain after before : list (Stage V)).

Lemma exhausted_limit_pullNext l :
  (LimitProcessor.maxSize l <= LimitProcessor.emitted l)%Z ->
  Stage.pullNext (LimitStage l) = Some (Empty, LimitStage l)
  /\ Stage.isExhausted (LimitStage l) = Some true.
Proof.
  intros Hex. destruct l as [q m e]. cbn in Hex.
  unfold Stage.pullNext, Stage.isExhausted, call,
    LimitProcessor.processAndGetNext, LimitProcessor.isExhausted.
  eff_unfold.
  replace (e <? m)%Z with false by (symmetry; apply Z.ltb_ge; lia).
  replace (m <=? e)%Z with true by (symmetry; apply Z.leb_le; lia).
  split; reflexivity.
Qed.

(** A pull through a chain that holds an exhausted limit stage leaves that
    stage, every stage before it and the source as they are: nothing is
    requested upstream of the limit stage. *)
Lemma pull_stops_at_exhausted_limit l before src pulls :
  (LimitProcessor.maxSize l <= LimitProcessor.emitted l)%Z ->
  forall fuel after next chain' src' pulls',
    Pipeline.pull fuel (after ++ LimitStage l :: before) src pulls
    = Some (next, chain', src', pulls') ->
    src' = src /\ pulls' = pulls
    /\ exists after',
        chain' = after' ++ LimitStage l :: before /\ length after' = length after.
Proof.
  intros Hex.
  destruct (exhausted_limit_pullNext l Hex) as [Hpull Hisex].
  induction fuel as [|fuel IH]; intros after next chain' src' pulls' E; [discriminate|].
  destruct after as [|stage after].
  - cbn [app Pipeline.pull] in E. rewrite Hpull, Hisex in E.
    injection E as <- <- <- <-. repeat split. now exists [].
  - cbn [app Pipeline.pull] in E.
    destruct (Stage.pullNext stage) as [[[|v] stage']|]; [| |discriminate].
    + destruct (Stage.isExhausted stage') as [[|]|]; [| |discriminate].
      * injection E as <- <- <- <-. repeat split. now exists (stage' :: after).
      * destruct (Pipeline.pull fuel (after ++ LimitStage l :: before) src pulls)
          as [[[[up_next up_chain] up_src] up_pulls]|] eqn:Eup; [|discriminate].
        destruct (IH _ _ _ _ _ Eup) as [-> [-> [after1 [-> Hlen1]]]].
        destruct up_next as [|v].
        -- destruct (Stage.hasNext stage') as [[|]|]; [| |discriminate].
           ++ change (stage' :: after1 ++ LimitStage l :: before)
                with ((stage' :: after1) ++ LimitStage l :: before) in E.
              destruct (IH _ _ _ _ _ E) as [-> [-> [after2 [-> Hlen2]]]].
              repeat split. exists after2. split; [reflexivity|]. cbn in *. lia.
           ++ injection E as <- <- <- <-. repeat split.
              exists (stage' :: after1). split; [reflexivity|]. cbn. lia.
        -- destruct (Stage.accept v stage') as [stage''|]; [|discriminate].
           change (stage'' :: after1 ++ LimitStage l :: before)
             with ((stage'' :: after1) ++ LimitStage l :: before) in E.
           destruct (IH _ _ _ _ _ E) as [-> [-> [after2 [-> Hlen2]]]].
           repeat split. exists after2. split; [reflexivity|]. cbn in *. lia.
    + injection E as <- <- <- <-. repeat split. now exists (stage' :: after).
Qed.

(** A pipeline that ends in an exhausted limit stage answers at once. *)
Lemma exhausted_limit_answers_empty l before src pulls fuel :
  (LimitProcessor.maxSize l <= LimitProcessor.emitted l)%Z ->
  Pipeline.getNextResult (Datatypes.S fuel) (Pipeline.mk src pulls (LimitStage l :: before))
  = Some (Empty, Pipeline.mk src pulls (LimitStage l :: before)).
Proof.
  intros Hex. destruct (exhausted_limit_pullNext l Hex) as [Hpull Hisex].
  unfold Pipeline.getNextResult.
  cbn [Pipeline.stages Pipeline.source Pipeline.sourcePulls Pipeline.pull].
  now rewrite Hpull, Hisex.
Qed.

(** A limit stage below its bound, with an empty queue, passes on the next
    element of the source: one call of the source, one more emitted. *)
Lemma limit_passes_next (src src' : S) (v : V) pulls (m e : Z) fuel :
  (e < m)%Z ->
  produceNext src = (Present v, src') ->
  Pipeline.getNextResult (Datatypes.S (Datatypes.S fuel))
    (Pipeline.mk src pulls [LimitStage (LimitProcessor.mk [] m e)])
  = Some (Present v,
          Pipeline.mk src' (Datatypes.S pulls)
            [LimitStage (LimitProcessor.mk [] m (e + 1)%Z)]).
Proof.
  intros Hlt Hsrc.
  assert (E1 : (e <? m)%Z = true) by (apply Z.ltb_lt; lia).
  assert (E2 : (m <=? e)%Z = false) by (apply Z.leb_gt; lia).
  unfold Pipeline.getNextResult.
  cbn [Pipeline.stages Pipeline.source Pipeline.sourcePulls Pipeline.pull].
  unfold Stage.pullNext, Stage.isExhausted, Stage.accept, call,
    LimitProcessor.processAndGetNext, LimitProcessor.isExhausted, LimitProcessor.add,
    AbstractProcessor.takeNextInput, AbstractProcessor.add.
  eff_unfold. rewrite E1. cbn. rewrite E2, Hsrc. cbn. rewrite E1. reflexivity.
Qed.

End LimitFacts.

(** ** iterate(s, f).limit(n) *)

Section IterateLimit.
Context {V : Type}.
Variables (s : V) (f : V -> V) (n : nat).

Lemma limitedIterate_next k fuel :
  k < n ->
  Pipeline.getNextResult (Datatypes.S (Datatypes.S fuel)) (limitedIterate s f n k)
  = Some (Present (Nat.iter k f s), limitedIterate s f n (Datatypes.S k)).
Proof.
  intros Hk. unfold limitedIterate.
  assert (Hlt : (Z.of_nat k < Z.of_nat n)%Z) by lia.
  rewrite (@limit_passes_next _ V _
             (IterateSource.mk s f match k with O => Empty | Datatypes.S j => Present (Nat.iter j f s) end)
             (IterateSource.mk s f (Present (Nat.iter k f s)))
             (Nat.iter k f s) k (Z.of_nat n) (Z.of_nat k) fuel Hlt);
    [ | now destruct k ].
  now rewrite Nat2Z.inj_succ, Z.add_1_r.
Qed.

Lemma limitedIterate_yields fuel j : forall k,
  k + j <= n ->
  Yields (Datatypes.S (Datatypes.S fuel)) (limitedIterate s f n k)
    (map (fun i => Nat.iter i f s) (seq k j)) (limitedIterate s f n (k + j)).
Proof.
  induction j as [|j IH]; intros k Hk.
  - rewrite Nat.add_0_r. apply Yields_nil.
  - cbn [seq map]. eapply Yields_cons.
    + apply limitedIterate_next. lia.
    + rewrite Nat.add_succ_r. apply (IH (Datatypes.S k)). lia.
Qed.

Lemma limitedIterate_done fuel :
  Pipeline.getNextResult (Datatypes.S fuel) (limitedIterate s f n n)
  = Some (Empty, limitedIterate s f n n).
Proof.
  unfold limitedIterate. apply exhausted_limit_answers_empty. cbn. lia.
Qed.

Lemma toArray_limit_iterate fuel :
  PipelineStream.toArray (2 + n + fuel) (Stream.limit (Z.of_nat n) (Stream.iterate s f))
  = Some (Val (iterates s f n),
          PipelineStream.mk (limitedIterate s f n n) true,
          collectTrace (iterates s f n) ++ [PipelineStream.FinisherCall]).
Proof.
  apply toArray_yields with (p1 := limitedIterate s f n n).
  - exact (limitedIterate_yields (n + fuel) n 0 (Nat.le_refl n)).
  - exact (limitedIterate_done (Datatypes.S (n + fuel))).
  - unfold iterates. rewrite length_map, length_seq. lia.
Qed.

End IterateLimit.

(** ** Binary64 arithmetic on integers below 2^53 is exact *)

Section Binary64Facts.
Local Open Scope Z_scope.

Lemma shl_Z p k : 0 <= k -> Zpos (shl p k) = Zpos p * 2 ^ k.
Proof.
  destruct k as [|k|k]; cbn [shl]; intros Hk; [lia | | lia].
  induction k as [|k IH] using Pos.peano_ind.
  - cbn [Pos.iter]. lia.
  - rewrite Pos.iter_succ, Pos2Z.inj_xO, IH by lia.
    rewrite Pos2Z.inj_succ, Z.pow_succ_r by lia. ring.
Qed.

Lemma digits_shl p k :
  0 <= k -> Zpos (digits2_pos (shl p k)) = Zpos (digits2_pos p) + k.
Proof.
  destruct k as [|k|k]; cbn [shl]; intros Hk; [lia | | lia].
  induction k as [|k IH] using Pos.peano_ind.
  - cbn [Pos.iter digits2_pos]. lia.
  - rewrite Pos.iter_succ. cbn [digits2_pos]. rewrite Pos2Z.inj_succ, IH by lia. lia.
Qed.

Lemma pow2_step d : 0 < d -> 2 ^ d = 2 * 2 ^ (d - 1).
Proof.
  intros Hd. replace d with (Z.succ (d - 1)) at 1 by lia.
  apply Z.pow_succ_r. lia.
Qed.

Lemma digits_bounds p :
  2 ^ (Zpos (digits2_pos p) - 1) <= Zpos p < 2 ^ Zpos (digits2_pos p).
Proof.
  induction p as [p IH|p IH|]; cbn [digits2_pos]; [| |cbn; lia].
  - rewrite Pos2Z.inj_succ, (Pos2Z.inj_xI p).
    rewrite (@pow2_step (Z.succ (Zpos (digits2_pos p)))) by lia.
    replace (Z.succ (Zpos (digits2_pos p)) - 1) with (Zpos (digits2_pos p)) by lia.
    pose proof (@pow2_step (Zpos (digits2_pos p)) ltac:(lia)). lia.
  - rewrite Pos2Z.inj_succ, (Pos2Z.inj_xO p).
    rewrite (@pow2_step (Z.succ (Zpos (digits2_pos p)))) by lia.
    replace (Z.succ (Zpos (digits2_pos p)) - 1) with (Zpos (digits2_pos p)) by lia.
    pose proof (@pow2_step (Zpos (digits2_pos p)) ltac:(lia)). lia.
Qed.

Lemma iter_pos_iter {A} (f : A -> A) (n : positive) : forall x,
  iter_pos f n x = Pos.iter f x n.
Proof.
  induction n as [n IH|n IH|]; intros x; cbn [iter_pos Pos.iter].
  - rewrite !IH, !Pos.iter_swap. reflexivity.
  - rewrite !IH. reflexivity.
  - reflexivity.
Qed.

Lemma shr_exact (q : positive) : forall m,
  iter_pos shr_1 q (Build_shr_record (Zpos (Pos.iter xO m q)) false false)
  = Build_shr_record (Zpos m) false false.
Proof.
  intros m. rewrite iter_pos_iter. revert m.
  induction q as [|q IH] using Pos.peano_ind; intros m.
  - reflexivity.
  - rewrite Pos.iter_succ, Pos.iter_succ_r, IH. reflexivity.
Qed.

Lemma fexp_small e : -1021 <= e -> fexp 53 1024 e = e - 53.
Proof. unfold fexp, emin. lia. Qed.

Lemma shl_shl p a b : 0 <= a -> 0 <= b -> shl (shl p a) b = shl p (a + b).
Proof.
  intros Ha Hb. apply Pos2Z.inj.
  rewrite !shl_Z, Z.pow_add_r by lia. ring.
Qed.

Lemma binary_round_aux_canonical s m e :
  fexp 53 1024 (Zpos (digits2_pos m) + e) = e -> e <= 971 ->
  binary_round_aux 53 1024 s (Zpos m) e loc_Exact = S754_finite s m e.
Proof.
  intros Hcanon He. unfold binary_round_aux, shr_fexp. cbn [Zdigits2].
  rewrite Hcanon, Z.sub_diag.
  cbn [shr shr_record_of_loc shr_m loc_of_shr_record round_nearest_even Zdigits2].
  rewrite Hcanon, Z.sub_diag. cbn [shr shr_record_of_loc shr_m].
  replace (e <=? 1024 - 53) with true by (symmetry; apply Z.leb_le; lia).
  reflexivity.
Qed.

Lemma binary_round_exact s p k :
  0 <= k -> Zpos (digits2_pos p) <= 53 ->
  binary_round 53 1024 s (shl p k) (- k)
  = S754_finite s (shl p (53 - Zpos (digits2_pos p))) (Zpos (digits2_pos p) - 53).
Proof.
  intros Hk Hd. unfold binary_round.
  rewrite digits_shl by exact Hk.
  set (d := Zpos (digits2_pos p)) in *.
  assert (Hd1 : 1 <= d) by (unfold d; lia).
  replace (d + k + - k) with d by lia.
  rewrite fexp_small by lia.
  unfold shl_align.
  destruct (d - 53 - - k) as [|q|q] eqn:E.
  - replace k with (53 - d) by lia. replace (- (53 - d)) with (d - 53) by lia.
    apply binary_round_aux_canonical; [|lia].
    rewrite digits_shl by lia. fold d. rewrite fexp_small by lia. lia.
  - unfold binary_round_aux, shr_fexp. cbn [Zdigits2].
    rewrite digits_shl by exact Hk. fold d.
    replace (d + k + - k) with d by lia.
    rewrite fexp_small by lia. rewrite E.
    cbn [shr shr_record_of_loc].
    replace (shl p k) with (Pos.iter xO (shl p (53 - d)) q).
    2:{ change (Pos.iter xO (shl p (53 - d)) q) with (shl (shl p (53 - d)) (Zpos q)).
        rewrite shl_shl by lia. f_equal. lia. }
    rewrite shr_exact.
    cbn [shr_m loc_of_shr_record round_nearest_even Zdigits2].
    rewrite digits_shl by lia. fold d.
    replace (d + (53 - d) + (- k + Zpos q)) with d by lia.
    rewrite fexp_small by lia.
    replace (d - 53 - (- k + Zpos q)) with 0 by lia.
    cbn [shr shr_record_of_loc shr_m].
    replace (- k + Zpos q <=? 1024 - 53) with true by (symmetry; apply Z.leb_le; lia).
    f_equal. lia.
  - change (Pos.iter xO (shl p k) q) with (shl (shl p k) (Zpos q)).
    rewrite shl_shl by lia.
    replace (k + Zpos q) with (53 - d) by lia.
    apply binary_round_aux_canonical; [|lia].
    rewrite digits_shl by lia. fold d. rewrite fexp_small by lia. lia.
Qed.

Lemma digits_le_53 p : Zpos p < 2 ^ 53 -> Zpos (digits2_pos p) <= 53.
Proof.
  intros Hp. destruct (Z.le_gt_cases (Zpos (digits2_pos p)) 53) as [H|H]; [exact H|].
  exfalso. pose proof (digits_bounds p) as [Hlo _].
  assert (2 ^ 53 <= 2 ^ (Zpos (digits2_pos p) - 1)) by (apply Z.pow_le_mono_r; lia).
  lia.
Qed.

Lemma binary_round_int s p :
  Zpos p < 2 ^ 53 -> binary_round 53 1024 s p 0 = canonical s p.
Proof.
  intros Hp. apply (@binary_round_exact s p 0); [lia | now apply digits_le_53].
Qed.

Lemma of_Z_pos p : Zpos p < 2 ^ 53 -> Number.of_Z (Zpos p) = canonical false p.
Proof. apply binary_round_int. Qed.

Lemma of_Z_neg p : Zpos p < 2 ^ 53 -> Number.of_Z (Zneg p) = canonical true p.
Proof. apply binary_round_int. Qed.

Lemma normalize_exact n k :
  0 <= k -> Z.abs n < 2 ^ 53 ->
  binary_normalize 53 1024 (n * 2 ^ k) (- k) false = Number.of_Z n.
Proof.
  intros Hk Hn.
  destruct n as [|p|p].
  - reflexivity.
  - replace (Zpos p * 2 ^ k) with (Zpos (shl p k)) by (now rewrite shl_Z).
    rewrite of_Z_pos by lia. cbn [binary_normalize].
    apply binary_round_exact; [lia | apply digits_le_53; lia].
  - replace (Zneg p * 2 ^ k) with (Zneg (shl p k)).
    2:{ rewrite <- !Pos2Z.opp_pos, shl_Z by lia. ring. }
    rewrite of_Z_neg by lia. cbn [binary_normalize].
    apply binary_round_exact; [lia | apply digits_le_53; lia].
Qed.

Lemma of_Z_nonzero n :
  n <> 0 -> Z.abs n < 2 ^ 53 ->
  Number.of_Z n = canonical (n <? 0) (Z.to_pos (Z.abs n)).
Proof.
  intros Hn Hb. destruct n as [|p|p]; [congruence | |].
  - now apply of_Z_pos.
  - now apply of_Z_neg.
Qed.

Lemma cond_Zopp_abs n :
  n <> 0 -> cond_Zopp (n <? 0) (Zpos (Z.to_pos (Z.abs n))) = n.
Proof. intros Hn. destruct n as [|p|p]; [congruence | reflexivity | reflexivity]. Qed.

Lemma shl_align_fst m ex ez :
  ez <= ex -> fst (shl_align m ex ez) = shl m (ex - ez).
Proof.
  intros H. unfold shl_align.
  destruct (ez - ex) as [|d|d] eqn:E.
  - replace (ex - ez) with 0 by lia. reflexivity.
  - lia.
  - replace (ex - ez) with (Zpos d) by lia. reflexivity.
Qed.

Lemma cond_Zopp_mul s a b : cond_Zopp s (a * b) = cond_Zopp s a * b.
Proof. destruct s; cbn [cond_Zopp]; ring. Qed.

(** The aligned mantissas of two canonical integers. *)
Lemma aligned_canonical s p ez :
  Zpos p < 2 ^ 53 -> ez <= Zpos (digits2_pos p) - 53 ->
  cond_Zopp s (Zpos (fst (shl_align (shl p (53 - Zpos (digits2_pos p)))
                                     (Zpos (digits2_pos p) - 53) ez)))
  = cond_Zopp s (Zpos p) * 2 ^ (- ez).
Proof.
  intros Hp Hez. pose proof (@digits_le_53 p Hp) as Hd.
  rewrite shl_align_fst by exact Hez.
  rewrite shl_shl by lia.
  rewrite shl_Z by lia. rewrite cond_Zopp_mul. f_equal. f_equal. lia.
Qed.

Lemma add_exact x y :
  Z.abs x < 2 ^ 53 -> Z.abs y < 2 ^ 53 -> Z.abs (x + y) < 2 ^ 53 ->
  Number.add (Number.of_Z x) (Number.of_Z y) = Number.of_Z (x + y).
Proof.
  intros Hx Hy Hxy.
  destruct (Z.eq_dec x 0) as [->|Hx0].
  { destruct (Z.eq_dec y 0) as [->|Hy0]; [reflexivity|].
    rewrite (@of_Z_nonzero y Hy0 Hy) at 1. cbn [Z.add]. 
    rewrite (@of_Z_nonzero y Hy0 Hy). reflexivity. }
  destruct (Z.eq_dec y 0) as [->|Hy0].
  { rewrite Z.add_0_r. rewrite (@of_Z_nonzero x Hx0 Hx). reflexivity. }
  rewrite (@of_Z_nonzero x Hx0 Hx), (@of_Z_nonzero y Hy0 Hy).
  unfold canonical, Number.add, SFadd.
  set (px := Z.to_pos (Z.abs x)). set (py := Z.to_pos (Z.abs y)).
  assert (Hpx : Zpos px < 2 ^ 53) by (unfold px; lia).
  assert (Hpy : Zpos py < 2 ^ 53) by (unfold py; lia).
  set (ez := Z.min (Zpos (digits2_pos px) - 53) (Zpos (digits2_pos py) - 53)).
  pose proof (@digits_le_53 px Hpx). pose proof (@digits_le_53 py Hpy).
  rewrite !aligned_canonical by (try assumption; unfold ez; lia).
  unfold px, py. rewrite !cond_Zopp_abs by assumption.
  rewrite <- Z.mul_add_distr_r.
  pose proof (@normalize_exact (x + y) (- ez)) as E.
  rewrite Z.opp_involutive in E. apply E; [unfold ez; lia | exact Hxy].
Qed.

Lemma sub_exact x y :
  Z.abs x < 2 ^ 53 -> Z.abs y < 2 ^ 53 -> Z.abs (x - y) < 2 ^ 53 ->
  Number.sub (Number.of_Z x) (Number.of_Z y) = Number.of_Z (x - y).
Proof.
  intros Hx Hy Hxy.
  destruct (Z.eq_dec y 0) as [->|Hy0].
  { rewrite Z.sub_0_r. destruct (Z.eq_dec x 0) as [->|Hx0]; [reflexivity|].
    rewrite (@of_Z_nonzero x Hx0 Hx). reflexivity. }
  destruct (Z.eq_dec x 0) as [->|Hx0].
  { rewrite (@of_Z_nonzero y Hy0 Hy), (@of_Z_nonzero (0 - y)) by lia.
    unfold canonical. cbn [Number.of_Z binary_normalize Number.sub SFsub].
    replace (Z.abs (0 - y)) with (Z.abs y) by lia.
    replace (0 - y <? 0) with (negb (y <? 0)); [reflexivity|].
    destruct (Z.ltb_spec y 0), (Z.ltb_spec (0 - y) 0); cbn; lia || reflexivity. }
  rewrite (@of_Z_nonzero x Hx0 Hx), (@of_Z_nonzero y Hy0 Hy).
  unfold canonical, Number.sub, SFsub.
  set (px := Z.to_pos (Z.abs x)). set (py := Z.to_pos (Z.abs y)).
  assert (Hpx : Zpos px < 2 ^ 53) by (unfold px; lia).
  assert (Hpy : Zpos py < 2 ^ 53) by (unfold py; lia).
  set (ez := Z.min (Zpos (digits2_pos px) - 53) (Zpos (digits2_pos py) - 53)).
  pose proof (@digits_le_53 px Hpx). pose proof (@digits_le_53 py Hpy).
  rewrite !aligned_canonical by (try assumption; unfold ez; lia).
  unfold px, py. rewrite !cond_Zopp_abs by assumption.
  rewrite <- Z.mul_sub_distr_r.
  pose proof (@normalize_exact (x - y) (- ez)) as E.
  rewrite Z.opp_involutive in E. apply E; [unfold ez; lia | exact Hxy].
Qed.

Lemma neg_exact x :
  x <> 0 -> Z.abs x < 2 ^ 53 -> Number.neg (Number.of_Z x) = Number.of_Z (- x).
Proof.
  intros Hx0 Hx. rewrite (@of_Z_nonzero x Hx0 Hx), (@of_Z_nonzero (- x)) by lia.
  unfold canonical. cbn [Number.neg SFopp]. rewrite Z.abs_opp.
  replace (- x <? 0) with (negb (x <? 0)); [reflexivity|].
  destruct (Z.ltb_spec x 0), (Z.ltb_spec (- x) 0); cbn; lia || reflexivity.
Qed.

Lemma digits_lt px py :
  Zpos (digits2_pos px) < Zpos (digits2_pos py) -> Zpos px < Zpos py.
Proof.
  intros H. pose proof (digits_bounds px) as [_ Hx]. pose proof (digits_bounds py) as [Hy _].
  assert (2 ^ Zpos (digits2_pos px) <= 2 ^ (Zpos (digits2_pos py) - 1))
    by (apply Z.pow_le_mono_r; lia).
  lia.
Qed.

Lemma compare_canonical px py :
  Zpos px < 2 ^ 53 -> Zpos py < 2 ^ 53 ->
  match Zpos (digits2_pos px) - 53 ?= Zpos (digits2_pos py) - 53 with
  | Lt => Lt
  | Gt => Gt
  | Eq => Pos.compare_cont Eq (shl px (53 - Zpos (digits2_pos px)))
                              (shl py (53 - Zpos (digits2_pos py)))
  end = (Zpos px ?= Zpos py).
Proof.
  intros Hx Hy.
  pose proof (@digits_le_53 px Hx). pose proof (@digits_le_53 py Hy).
  destruct (Z.compare_spec (Zpos (digits2_pos px) - 53) (Zpos (digits2_pos py) - 53)) as [E|E|E].
  - assert (E' : Zpos (digits2_pos px) = Zpos (digits2_pos py)) by lia.
    rewrite E'. change (Pos.compare_cont Eq ?a ?b) with (Pos.compare a b).
    rewrite Pos2Z.inj_compare, !shl_Z by lia.
    symmetry. apply Zmult_compare_compat_r. apply Z.lt_gt, Z.pow_pos_nonneg; lia.
  - symmetry. apply Z.compare_lt_iff. apply digits_lt. lia.
  - symmetry. apply Z.compare_gt_iff. apply digits_lt. lia.
Qed.

Lemma lt_exact x y :
  Z.abs x < 2 ^ 53 -> Z.abs y < 2 ^ 53 ->
  Number.lt (Number.of_Z x) (Number.of_Z y) = (x <? y).
Proof.
  intros Hx Hy. unfold Number.lt, SFltb.
  destruct x as [|px|px], y as [|py|py];
    rewrite ?of_Z_pos, ?of_Z_neg by lia; try reflexivity;
    unfold canonical; cbn [SFcompare].
  - pose proof (@compare_canonical px py ltac:(lia) ltac:(lia)) as E.
    unfold Z.ltb. rewrite <- E. reflexivity.
  - pose proof (@compare_canonical px py ltac:(lia) ltac:(lia)) as E.
    unfold Z.ltb.
    change (Zneg px ?= Zneg py) with (CompOpp (Zpos px ?= Zpos py)).
    rewrite <- E.
    destruct (Zpos (digits2_pos px) - 53 ?= Zpos (digits2_pos py) - 53); reflexivity.
Qed.

End Binary64Facts.

(** ** The range source *)

Lemma range_pull (fuel : nat) (r : RangeSource.t) pulls started :
  PipelineStream.getNext (Datatypes.S fuel)
    (PipelineStream.mk (Pipeline.mk r pulls []) started)
  = Some (fst (produceNext r),
          PipelineStream.mk (Pipeline.mk (snd (produceNext r)) (Datatypes.S pulls) []) true,
          [PipelineStream.Pull]).
Proof.
  apply getNextProcessedItem_eq. cbn.
  unfold Pipeline.getNextResult. cbn.
  now destruct (RangeSource.inRange r).
Qed.

(** Whatever the numbers, a range yields only values strictly on the
    start's side of its exclusive bound. *)
Lemma getNext_times_beforeBound (start bound : Number.t) (fuel n : nat) :
  forall r pulls started,
  RangeSource.endExclusive r = bound ->
  RangeSource.ascending r = Number.lt start bound ->
  exists outs s' evs,
    PipelineStream.getNext_times (Datatypes.S fuel) n
      (PipelineStream.mk (Pipeline.mk r pulls []) started)
    = Some (outs, s', evs)
    /\ forall v, In (Present v) outs -> beforeBound start bound v = true.
Proof.
  induction n as [|n IH]; intros r pulls started Hend Hasc.
  - eexists _, _, _. split; [reflexivity|]. intros v [].
  - assert (Hnext : RangeSource.endExclusive (snd (produceNext r)) = bound
                    /\ RangeSource.ascending (snd (produceNext r)) = Number.lt start bound
                    /\ forall v, fst (produceNext r) = Present v ->
                                 beforeBound start bound v = true).
    { destruct r as [nv e st asc]. cbn in Hend, Hasc. subst e asc.
      cbn. unfold RangeSource.inRange, beforeBound. cbn.
      destruct (Number.lt start bound);
        [destruct (Number.lt nv bound) eqn:E | destruct (Number.lt bound nv) eqn:E];
        cbn; (split; [reflexivity | split; [reflexivity|]]);
        intros v [= <-] || discriminate; exact E. }
    destruct Hnext as [Hend' [Hasc' Hv]].
    destruct (IH (snd (produceNext r)) (Datatypes.S pulls) true Hend' Hasc')
      as [outs [s' [evs [E Houts]]]].
    cbn [PipelineStream.getNext_times].
    rewrite (bind_Some _ _ _ (range_pull fuel r pulls started)).
    unfold bind. rewrite E.
    eexists _, _, _. split; [reflexivity|].
    intros v [Hv1 | Hv2]; [now apply Hv | now apply Houts].
Qed.

(** Pull by pull, a range source over integers yields [rangeAt]. *)
Lemma getNext_times_rangeAt (asc : bool) (e st : Z) (fuel n : nat) :
  (Z.abs e <= 2 ^ 52)%Z -> (Z.abs st < 2 ^ 52)%Z ->
  (if asc then 0 <= st else st <= 0)%Z ->
  forall nv pulls started,
  (Z.abs nv < 2 ^ 53)%Z ->
  exists s' evs,
    PipelineStream.getNext_times (Datatypes.S fuel) n
      (PipelineStream.mk
         (Pipeline.mk (RangeSource.mk (Number.of_Z nv) (Number.of_Z e) (Number.of_Z st) asc)
            pulls [])
         started)
    = Some (map (rangeAt asc nv e st) (seq 0 n), s', evs).
Proof.
  intros He Hst Hdir.
  induction n as [|n IH]; intros nv pulls started Hnv.
  - eexists _, _. reflexivity.
  - cbn [PipelineStream.getNext_times].
    set (r := RangeSource.mk (Number.of_Z nv) (Number.of_Z e) (Number.of_Z st) asc).
    assert (Hp : produceNext r
                 = if (if asc then nv <? e else e <? nv)%Z
                   then (Present (Number.of_Z nv),
                         RangeSource.mk (Number.of_Z (nv + st)) (Number.of_Z e)
                           (Number.of_Z st) asc)
                   else (Empty, r)).
    { unfold produceNext, RangeSource.source, RangeSource.inRange, r.
      cbn [RangeSource.nextValue RangeSource.endExclusive RangeSource.step
           RangeSource.ascending].
      destruct asc; rewrite lt_exact by lia.
      - destruct (Z.ltb_spec nv e); [rewrite add_exact by lia|]; reflexivity.
      - destruct (Z.ltb_spec e nv); [rewrite add_exact by lia|]; reflexivity. }
    pose proof (range_pull fuel r pulls started) as Hpull. rewrite Hp in Hpull.
    assert (Hhead : rangeAt asc nv e st 0
                    = if (if asc then nv <? e else e <? nv)%Z
                      then Present (Number.of_Z nv) else Empty).
    { unfold rangeAt. cbn [Z.of_nat]. now rewrite Z.mul_0_l, Z.add_0_r. }
    cbn [seq map]. rewrite <- seq_shift, map_map, Hhead.
    destruct (if asc then nv <? e else e <? nv)%Z eqn:E; cbn [fst snd] in Hpull;
      rewrite (bind_Some _ _ _ Hpull).
    + assert (Hnext : (Z.abs (nv + st) < 2 ^ 53)%Z).
      { destruct asc; [apply Z.ltb_lt in E | apply Z.ltb_lt in E]; lia. }
      destruct (IH (nv + st)%Z (Datatypes.S pulls) true Hnext) as [s' [evs E']].
      unfold bind. rewrite E'. cbn [ret].
      eexists _, _. f_equal. f_equal. f_equal. f_equal.
      apply map_ext. intros k. unfold rangeAt.
      replace (nv + Z.of_nat (Datatypes.S k) * st)%Z with (nv + st + Z.of_nat k * st)%Z by lia.
      reflexivity.
    + destruct (IH nv (Datatypes.S pulls) true Hnv) as [s' [evs E']].
      fold r in E'. unfold bind. rewrite E'. cbn [ret].
      eexists _, _. f_equal. f_equal. f_equal. f_equal.
      apply map_ext_in. intros k _. unfold rangeAt.
      assert (Hk : (0 <= Z.of_nat k)%Z) by lia.
      assert (Hk' : (0 <= Z.of_nat (Datatypes.S k))%Z) by lia.
      destruct asc.
      * apply Z.ltb_ge in E.
        replace (nv + Z.of_nat k * st <? e)%Z with false by (symmetry; apply Z.ltb_ge; nia).
        replace (nv + Z.of_nat (Datatypes.S k) * st <? e)%Z with false
          by (symmetry; apply Z.ltb_ge; nia).
        reflexivity.
      * apply Z.ltb_ge in E.
        replace (e <? nv + Z.of_nat k * st)%Z with false by (symmetry; apply Z.ltb_ge; nia).
        replace (e <? nv + Z.of_nat (Datatypes.S k) * st)%Z with false
          by (symmetry; apply Z.ltb_ge; nia).
        reflexivity.
Qed.

(** [rangeClosed] on integers builds the range source of the closed range. *)
Lemma rangeClosed_source (a b : Z) (step : JsValue Z) :
  (Z.abs a < 2 ^ 52)%Z -> (Z.abs b < 2 ^ 52)%Z ->
  (forall s, step = Val s -> (Z.abs s < 2 ^ 52)%Z) ->
  Stream.rangeClosed (Number.of_Z a) (Number.of_Z b) (integerStep step)
  = PipelineStream.mk
      (Pipeline.mk
         (RangeSource.mk (Number.of_Z a)
            (Number.of_Z (if (a <? b)%Z then b + 1 else b - 1)%Z)
            (Number.of_Z (if (a <? b)%Z then stepSize step else - stepSize step)%Z)
            (a <? b)%Z)
         0 [])
      false.
Proof.
  intros Ha Hb Hstep.
  assert (H1 : (Z.abs 1 < 2 ^ 53)%Z) by (cbn; lia).
  assert (H0 : (Z.abs 0 < 2 ^ 53)%Z) by (cbn; lia).
  unfold Stream.rangeClosed, Stream.range, Stream.ofSource, SourceFactory.rangeSource,
    RangeSource.new, Number.one, Number.zero, PipelineStream.new, Pipeline.create.
  rewrite lt_exact by lia.
  destruct (Z.ltb_spec a b) as [E|E].
  - rewrite add_exact, lt_exact by lia.
    replace (a <? b + 1)%Z with true by (symmetry; apply Z.ltb_lt; lia).
    destruct step as [| |s]; cbn [integerStep stepSize].
    + rewrite lt_exact by lia. reflexivity.
    + rewrite lt_exact by lia. reflexivity.
    + specialize (Hstep s eq_refl). rewrite lt_exact by lia.
      destruct (Z.ltb_spec s 0) as [Es|Es].
      * rewrite neg_exact by lia. now replace (Z.abs s) with (- s)%Z by lia.
      * now replace (Z.abs s) with s by lia.
  - rewrite sub_exact, lt_exact by lia.
    replace (a <? b - 1)%Z with false by (symmetry; apply Z.ltb_ge; lia).
    destruct step as [| |s]; cbn [integerStep stepSize].
    + rewrite lt_exact by lia. cbn [Z.ltb Z.compare]. now rewrite neg_exact by lia.
    + rewrite lt_exact by lia. cbn [Z.ltb Z.compare]. now rewrite neg_exact by lia.
    + specialize (Hstep s eq_refl). rewrite lt_exact by lia.
      destruct (Z.ltb_spec 0 s) as [Es|Es].
      * rewrite neg_exact by lia. now replace (Z.abs s) with s by lia.
      * replace (- Z.abs s)%Z with s by lia. reflexivity.
Qed.

Lemma closedRangeAt_rangeAt (a b m : Z) (k : nat) :
  (0 <= m)%Z ->
  rangeAt (a <? b)%Z a (if (a <? b)%Z then b + 1 else b - 1)%Z
    (if (a <? b)%Z then m else - m)%Z k
  = closedRangeAt a b m k.
Proof.
  intros Hm. unfold rangeAt, closedRangeAt.
  assert (Hk : (0 <= Z.of_nat k * m)%Z) by nia.
  destruct (Z.ltb_spec a b) as [E|E].
  - destruct (Z.ltb_spec (a + Z.of_nat k * m) (b + 1)) as [Hv|Hv];
      destruct (Z.leb_spec (Z.min a b) (a + Z.of_nat k * m));
      destruct (Z.leb_spec (a + Z.of_nat k * m) (Z.max a b)); cbn; try reflexivity; lia.
  - replace (a + Z.of_nat k * - m)%Z with (a - Z.of_nat k * m)%Z by lia.
    destruct (Z.ltb_spec (b - 1) (a - Z.of_nat k * m)) as [Hv|Hv];
      destruct (Z.leb_spec (Z.min a b) (a - Z.of_nat k * m));
      destruct (Z.leb_spec (a - Z.of_nat k * m) (Z.max a b)); cbn; try reflexivity; lia.
Qed.

Lemma stepSize_bounds (step : JsValue Z) :
  (forall s, step = Val s -> (Z.abs s < 2 ^ 52)%Z) ->
  (0 <= stepSize step < 2 ^ 52)%Z.
Proof.
  intros H. destruct step as [| |s]; cbn; [lia | lia |].
  specialize (H s eq_refl). lia.
Qed.

Lemma getNext_times_rangeClosed (a b : Z) (step : JsValue Z) (fuel n : nat) :
  (Z.abs a < 2 ^ 52)%Z -> (Z.abs b < 2 ^ 52)%Z ->
  (forall s, step = Val s -> (Z.abs s < 2 ^ 52)%Z) ->
  exists s' evs,
    PipelineStream.getNext_times (Datatypes.S fuel) n
      (Stream.rangeClosed (Number.of_Z a) (Number.of_Z b) (integerStep step))
    = Some (map (closedRangeAt a b (stepSize step)) (seq 0 n), s', evs).
Proof.
  intros Ha Hb Hstep. pose proof (@stepSize_bounds step Hstep) as Hm.
  rewrite rangeClosed_source by assumption.
  destruct (@getNext_times_rangeAt (a <? b)%Z
              (if (a <? b)%Z then b + 1 else b - 1)%Z
              (if (a <? b)%Z then stepSize step else - stepSize step)%Z fuel n)
    with (nv := a) (pulls := 0) (started := false) as [s' [evs E]].
  - destruct (a <? b)%Z; lia.
  - destruct (a <? b)%Z; lia.
  - destruct (a <? b)%Z; lia.
  - lia.
  - exists s', evs. rewrite E. f_equal. f_equal. f_equal.
    apply map_ext. intros k. apply closedRangeAt_rangeAt. lia.
Qed.

Lemma closedRangeAt_within (a b m : Z) (k : nat) (x : Number.t) :
  closedRangeAt a b m k = Present x ->
  exists v, x = Number.of_Z v /\ (Z.min a b <= v <= Z.max a b)%Z.
Proof.
  unfold closedRangeAt.
  set (v := if (a <? b)%Z then (a + Z.of_nat k * m)%Z else (a - Z.of_nat k * m)%Z).
  destruct (Z.leb_spec (Z.min a b) v); destruct (Z.leb_spec v (Z.max a b)); cbn;
    try discriminate.
  intros [= <-]. exists v. split; [reflexivity | lia].
Qed.

Lemma closedRangeAt_bound (a b m : Z) (k : nat) :
  b = (if (a <? b)%Z then a + Z.of_nat k * m else a - Z.of_nat k * m)%Z ->
  closedRangeAt a b m k = Present (Number.of_Z b).
Proof.
  intros E. unfold closedRangeAt. rewrite <- E.
  replace (Z.min a b <=? b)%Z with true by (symmetry; apply Z.leb_le; lia).
  replace (b <=? Z.max a b)%Z with true by (symmetry; apply Z.leb_le; lia).
  reflexivity.
Qed.

(** * The claims on the pipeline and on the ranges *)

(** C1. Draining [iterate(s, f).limit(3)] with [toArray] returns, with
    any fuel from 3 on, the array [[s, f(s), f(f(s))]], after three calls of
    the source: the fourth pull, which ends the loop, asks the source for
    nothing.  For every bound [n], [iterate(s, f).limit(n)] is drained to the
    first [n] values of the iteration after [n] calls of the source.  In
    general a pipeline whose last stage is a limit stage that has emitted
    its bound answers a pull at once with empty and unchanged; and wherever
    such a limit stage stands in the chain, a pull that returns has left the
    source, the count of its calls, the stages before the limit stage and
    the limit stage itself as they were. *)
Theorem limit_bounds_the_pulls :
  (forall (V : Type) (s : V) (f : V -> V) (fuel : nat),
      PipelineStream.toArray (3 + fuel) (Stream.limit 3 (Stream.iterate s f))
      = Some (Val [s; f s; f (f s)],
              PipelineStream.mk
                (Pipeline.mk (IterateSource.mk s f (Present (f (f s)))) 3
                   [LimitStage (LimitProcessor.mk [] 3 3)])
                true,
              [PipelineStream.SupplierCall;
               PipelineStream.Pull; PipelineStream.AccumulatorCall s;
               PipelineStream.Pull; PipelineStream.AccumulatorCall (f s);
               PipelineStream.Pull; PipelineStream.AccumulatorCall (f (f s));
               PipelineStream.Pull;
               PipelineStream.FinisherCall]))
  /\ (forall (V : Type) (s : V) (f : V -> V) (n fuel : nat),
      PipelineStream.toArray (2 + n + fuel)
        (Stream.limit (Z.of_nat n) (Stream.iterate s f))
      = Some (Val (iterates s f n),
              PipelineStream.mk (limitedIterate s f n n) true,
              collectTrace (iterates s f n) ++ [PipelineStream.FinisherCall])
      /\ Pipeline.sourcePulls (limitedIterate s f n n) = n)
  /\ (forall (S V : Type) (Src : Source S V) (l : LimitProcessor.t V)
             (before : list (Stage V)) (src : S) (pulls : nat),
      (LimitProcessor.maxSize l <= LimitProcessor.emitted l)%Z ->
      (forall fuel,
          Pipeline.getNextResult (Datatypes.S fuel)
            (Pipeline.mk src pulls (LimitStage l :: before))
          = Some (Empty, Pipeline.mk src pulls (LimitStage l :: before)))
      /\ (forall fuel after next p',
          Pipeline.getNextResult fuel
            (Pipeline.mk src pulls (after ++ LimitStage l :: before))
          = Some (next, p') ->
          Pipeline.source p' = src
          /\ Pipeline.sourcePulls p' = pulls
          /\ exists after',
              Pipeline.stages p' = after' ++ LimitStage l :: before
              /\ length after' = length after)).
Proof.
  split; [|split].
  - intros V s f fuel. destruct fuel; reflexivity.
  - intros V s f n fuel. split; [apply toArray_limit_iterate | reflexivity].
  - intros S V Src l before src pulls Hex. split.
    + intros fuel. now apply exhausted_limit_answers_empty.
    + intros fuel after next p' E. unfold Pipeline.getNextResult in E.
      cbn [Pipeline.stages Pipeline.source Pipeline.sourcePulls] in E.
      destruct (Pipeline.pull fuel (after ++ LimitStage l :: before) src pulls)
        as [[[[n chain'] src'] pulls']|] eqn:Epull; [|discriminate].
      injection E as <- <-.
      exact (pull_stops_at_exhausted_limit l before src pulls Hex _ _ Epull).
Qed.

Lemma limit_bounds_the_pulls_witness :
  let spent : LimitProcessor.t Z := LimitProcessor.mk [] 2 2 in
  let src : IterateSource.t Z := IterateSource.mk 1%Z Z.succ (Present 2%Z) in
  let p :=
    Pipeline.mk src 2
      [FilterStage (FilterProcessor.mk [Val 5%Z; Val 6%Z] Z.even); LimitStage spent] in
  let p' :=
    Pipeline.mk src 2 [FilterStage (FilterProcessor.mk [] Z.even); LimitStage spent] in
  Pipeline.getNextResult 4 (Pipeline.mk src 2 [LimitStage spent])
  = Some (Empty, Pipeline.mk src 2 [LimitStage spent])
  /\ Pipeline.getNextResult 4 p = Some (Present 6%Z, p')
  /\ Pipeline.source p' = src
  /\ Pipeline.sourcePulls p' = 2.
Proof.
  intros spent src p p'.
  assert (Hex : (LimitProcessor.maxSize spent <= LimitProcessor.emitted spent)%Z)
    by (cbn; lia).
  split; [|split; [reflexivity|]].
  - exact (proj1 (proj2 (proj2 limit_bounds_the_pulls) _ _ _ spent [] src 2 Hex) 3).
  - destruct (proj2 (proj2 (proj2 limit_bounds_the_pulls) _ _ _ spent [] src 2 Hex) 4
                [FilterStage (FilterProcessor.mk [Val 5%Z; Val 6%Z] Z.even)]
                (Present 6%Z) p' eq_refl) as [Hsrc [Hpulls _]].
    split; [exact Hsrc | exact Hpulls].
Defined.

(** C6, as the claim states it, fails on both counts.  The closed bound is
    not widened by one full step: [rangeClosed(0, 5, 2)] yields [0,2,4]
    where [range(0, 5 + 2, 2)] yields [0,2,4,6].  And a value past the
    closed bound is yielded: [rangeClosed(0, 1, 0.5)] yields
    [0, 0.5, 1, 1.5], and [1 < 1.5]. *)
Lemma rangeClosed_shifts_by_one_and_overshoots_fractions :
  returned (PipelineStream.toArray 5
              (Stream.rangeClosed (Number.of_Z 0) (Number.of_Z 5) (Val (Number.of_Z 2))))
  = Some (Val (map Number.of_Z [0; 2; 4]%Z))
  /\ returned (PipelineStream.toArray 5
                 (Stream.range (Number.of_Z 0)
                    (Number.add (Number.of_Z 5) (Number.of_Z 2)) (Val (Number.of_Z 2))))
     = Some (Val (map Number.of_Z [0; 2; 4; 6]%Z))
  /\ returned (PipelineStream.toArray 5
                 (Stream.rangeClosed (Number.of_Z 0) (Number.of_Z 1)
                    (Val (Number.dyadic 1 (-1)))))
     = Some (Val [Number.of_Z 0; Number.dyadic 1 (-1); Number.of_Z 1; Number.dyadic 3 (-1)])
  /\ Number.lt (Number.of_Z 1) (Number.dyadic 3 (-1)) = true.
Proof. repeat split; vm_compute; reflexivity. Qed.

(** C6, amended.  Whatever the numbers, [rangeClosed(start, end, step)] is
    [range] with the closed bound moved outward by one, to [end + 1] when
    [start < end] and to [end - 1] otherwise, and every value it yields
    lies strictly before that widened bound (on the side of it on which
    [start] lies).  When [start], [end] and [step] are integers (of
    magnitude below [2 ^ 52], so that every sum is exact) it yields, pull
    by pull, the values [start + k * |step|] ([start - k * |step|] when
    [start] is not below [end]; the step is 1 when none is given) that lie
    within the closed interval between [start] and [end], and empty from
    the first that does not: no value past the closed bound, whatever the
    step, and the closed bound itself when a step lands on it.  And
    [rangeClosed(0, 5, 2)] yields [0,2,4]. *)
Theorem rangeClosed_shifts_bound_by_one :
  (forall (startInclusive endInclusive : Number.t) (step : JsValue Number.t)
          (fuel n : nat),
      Stream.rangeClosed startInclusive endInclusive step
      = Stream.range startInclusive (widenedBound startInclusive endInclusive) step
      /\ exists outs s' evs,
          PipelineStream.getNext_times (S fuel) n
            (Stream.rangeClosed startInclusive endInclusive step)
          = Some (outs, s', evs)
          /\ forall v, In (Present v) outs ->
                beforeBound startInclusive
                  (widenedBound startInclusive endInclusive) v = true)
  /\ (forall (a b : Z) (step : JsValue Z) (fuel n : nat),
      (Z.abs a < 2 ^ 52)%Z -> (Z.abs b < 2 ^ 52)%Z ->
      (forall s, step = Val s -> (Z.abs s < 2 ^ 52)%Z) ->
      exists outs s' evs,
        PipelineStream.getNext_times (S fuel) n
          (Stream.rangeClosed (Number.of_Z a) (Number.of_Z b) (integerStep step))
        = Some (outs, s', evs)
        /\ outs = map (closedRangeAt a b (stepSize step)) (seq 0 n)
        /\ (forall x, In (Present x) outs ->
               exists v, x = Number.of_Z v /\ (Z.min a b <= v <= Z.max a b)%Z)
        /\ (forall k, k < n ->
               b = (if (a <? b)%Z then a + Z.of_nat k * stepSize step
                    else a - Z.of_nat k * stepSize step)%Z ->
               nth k outs Empty = Present (Number.of_Z b)))
  /\ (forall fuel,
      returned (PipelineStream.toArray (3 + fuel)
                  (Stream.rangeClosed (Number.of_Z 0) (Number.of_Z 5)
                     (Val (Number.of_Z 2))))
      = Some (Val (map Number.of_Z [0; 2; 4]%Z))).
Proof.
  split; [|split].
  - intros a b step fuel n.
    assert (E : Stream.rangeClosed a b step = Stream.range a (widenedBound a b) step).
    { unfold Stream.rangeClosed, widenedBound. now destruct (Number.lt a b). }
    split; [exact E|]. rewrite E.
    unfold Stream.range, Stream.ofSource, SourceFactory.rangeSource, PipelineStream.new,
      Pipeline.create.
    apply getNext_times_beforeBound with (start := a) (bound := widenedBound a b).
    + unfold RangeSource.new. now destruct (Number.lt a (widenedBound a b)).
    + unfold RangeSource.new. now destruct (Number.lt a (widenedBound a b)).
  - intros a b step fuel n Ha Hb Hstep.
    destruct (@getNext_times_rangeClosed a b step fuel n Ha Hb Hstep) as [s' [evs E]].
    eexists _, s', evs. split; [exact E|]. split; [reflexivity|]. split.
    + intros x Hx. apply in_map_iff in Hx. destruct Hx as [k [Hk _]].
      now apply closedRangeAt_within in Hk.
    + intros k Hk Hb'.
      rewrite (nth_indep _ Empty (closedRangeAt a b (stepSize step) 0))
        by now rewrite length_map, length_seq.
      rewrite map_nth, seq_nth by exact Hk. now apply closedRangeAt_bound.
  - intros fuel. destruct fuel; vm_compute; reflexivity.
Qed.

Lemma rangeClosed_shifts_bound_by_one_witness :
  exists outs s' evs,
    PipelineStream.getNext_times 1 4
      (Stream.rangeClosed (Number.of_Z 0) (Number.of_Z 6) (Val (Number.of_Z (-2))))
    = Some (outs, s', evs)
    /\ outs = map Present (map Number.of_Z [0; 2; 4; 6]%Z)
    /\ (forall x, In (Present x) outs ->
           exists v, x = Number.of_Z v /\ (Z.min 0 6 <= v <= Z.max 0 6)%Z)
    /\ (forall k, k < 4 ->
           6%Z = (if (0 <? 6)%Z then 0 + Z.of_nat k * stepSize (Val (-2)%Z)
                  else 0 - Z.of_nat k * stepSize (Val (-2)%Z))%Z ->
           nth k outs Empty = Present (Number.of_Z 6)).
Proof.
  refine (proj1 (proj2 rangeClosed_shifts_bound_by_one) 0%Z 6%Z (Val (-2)%Z) 0 4 _ _ _).
  - reflexivity.
  - reflexivity.
  - intros s [= <-]. reflexivity.
Defined.

(** * Further properties of the processors *)

Lemma firstCalls_step {A} (n : nat) (results : list (Optional A)) :
  firstCalls (S n) results = hd Empty results :: firstCalls n (tl results).
Proof.
  unfold firstCalls. destruct results as [|r results]; cbn [hd tl length].
  - rewrite !firstn_nil. cbn. now rewrite Nat.sub_0_r.
  - reflexivity.
Qed.

Lemma values_app {T} (q1 q2 : list (JsValue T)) :
  values (q1 ++ q2) = values q1 ++ values q2.
Proof. unfold values. apply flat_map_app. Qed.

(** ** The map and filter processors *)

Section MapFilterFacts.
Context {T U : Type}.

Lemma map_call (q : list (JsValue T)) (f : Transformer T U) :
  MapProcessor.processAndGetNext (MapProcessor.mk q f)
  = Some (hd Empty (map (mapResult f) q), MapProcessor.mk (tl q) f,
          map MapProcessor.TransformerCall (values (firstn 1 q))).
Proof. destruct q as [|[| |v] q]; reflexivity. Qed.

Lemma map_times_eq (f : Transformer T U) (n : nat) : forall q,
  map_times n (MapProcessor.mk q f)
  = Some (firstCalls n (map (mapResult f) q), MapProcessor.mk (skipn n q) f,
          map MapProcessor.TransformerCall (values (firstn n q))).
Proof.
  induction n as [|n IH]; intros q.
  - reflexivity.
  - cbn [map_times]. rewrite (bind_Some _ _ _ (map_call q f)).
    unfold bind. rewrite IH. cbn [ret]. rewrite firstCalls_step, app_nil_r.
    destruct q as [|x q]; [cbn; now rewrite !firstn_nil, !skipn_nil|].
    cbn [tl map hd skipn]. rewrite <- map_app.
    change (firstn (S n) (x :: q)) with ([x] ++ firstn n q).
    rewrite values_app. now destruct x.
Qed.

Lemma filter_call (q : list (JsValue T)) (p : Predicate T) :
  FilterProcessor.processAndGetNext (FilterProcessor.mk q p)
  = Some (hd Empty (map (filterResult p) q), FilterProcessor.mk (tl q) p,
          map FilterProcessor.PredicateCall (values (firstn 1 q))).
Proof. destruct q as [|[| |v] q]; reflexivity. Qed.

Lemma filter_times_eq (p : Predicate T) (n : nat) : forall q,
  filter_times n (FilterProcessor.mk q p)
  = Some (firstCalls n (map (filterResult p) q), FilterProcessor.mk (skipn n q) p,
          map FilterProcessor.PredicateCall (values (firstn n q))).
Proof.
  induction n as [|n IH]; intros q.
  - reflexivity.
  - cbn [filter_times]. rewrite (bind_Some _ _ _ (filter_call q p)).
    unfold bind. rewrite IH. cbn [ret]. rewrite firstCalls_step, app_nil_r.
    destruct q as [|x q]; [cbn; now rewrite !firstn_nil, !skipn_nil|].
    cbn [tl map hd skipn]. rewrite <- map_app.
    change (firstn (S n) (x :: q)) with ([x] ++ firstn n q).
    rewrite values_app. now destruct x.
Qed.

Lemma presents_app {A} (r1 r2 : list (Optional A)) :
  presents (r1 ++ r2) = presents r1 ++ presents r2.
Proof. unfold presents. apply flat_map_app. Qed.

Lemma presents_repeat_Empty {A} (n : nat) : presents (repeat (@Optional.Empty A) n) = [].
Proof. induction n as [|n IH]; [reflexivity | exact IH]. Qed.

Lemma presents_mapResult (f : Transformer T U) (q : list (JsValue T)) :
  presents (map (mapResult f) q) = map f (values q).
Proof.
  induction q as [|[| |v] q IH]; cbn; try exact IH; [reflexivity|].
  f_equal. exact IH.
Qed.

Lemma presents_filterResult (p : Predicate T) (q : list (JsValue T)) :
  presents (map (filterResult p) q) = filter p (values q).
Proof.
  induction q as [|[| |v] q IH]; cbn; try exact IH; [reflexivity|].
  destruct (p v); cbn; [f_equal|]; exact IH.
Qed.

End MapFilterFacts.

(** ** The store of arrays *)

Section StoreFacts.
Context {O : Type}.
Implicit Types (s : Store.t O) (a b : list (JsValue O)) (r : Store.Ref).

Lemma read_nonempty_valid r : forall s, Store.read r s <> [] -> r < length s.
Proof.
  induction r as [|r IH]; intros [|c s] H; cbn in *; try congruence; [lia|].
  apply IH in H. lia.
Qed.

Lemma read_write r a : forall s, r < length s -> Store.read r (Store.write r a s) = a.
Proof.
  induction r as [|r IH]; intros [|c s] H; cbn in *; try lia; [reflexivity|].
  apply IH. lia.
Qed.

Lemma write_write r a b : forall s,
  Store.write r a (Store.write r b s) = Store.write r a s.
Proof.
  induction r as [|r IH]; intros [|c s]; cbn; try reflexivity.
  now rewrite IH.
Qed.

Lemma write_read r : forall s, Store.write r (Store.read r s) s = s.
Proof.
  induction r as [|r IH]; intros [|c s]; cbn; try reflexivity.
  unfold Store.read in IH. now rewrite IH.
Qed.

Lemma read_alloc a s : Store.read (fst (Store.alloc a s)) (snd (Store.alloc a s)) = a.
Proof.
  unfold Store.alloc, Store.read. cbn.
  rewrite app_nth2 by lia. now rewrite Nat.sub_diag.
Qed.

End StoreFacts.

(** ** The list flat-map processor *)

Section FlatMapFacts.
Context {T U : Type}.
Variable f : ListFlatMapProcessor.ArrayTransformer T U.
Implicit Types (q : list (JsValue T)) (r : Store.Ref) (s : Store.t U).

Import ListFlatMapProcessor.

Lemma flat_pending fuel q r s o rest :
  Store.read r s = o :: rest ->
  processAndGetNext fuel (world (mk q r f) s)
  = Some (Optional.ofNullable o, world (mk q r f) (Store.write r rest s), []).
Proof.
  intros E. destruct fuel; cbn [processAndGetNext];
    unfold bind, get, put, ret, pending; cbn [this arrays outputList];
    rewrite E; reflexivity.
Qed.

Lemma flat_take_value fuel x q r s :
  Store.read r s = [] ->
  processAndGetNext (S fuel) (world (mk (Val x :: q) r f) s)
  = match processAndGetNext fuel (world (mk q (fst (f x s)) f) (snd (f x s))) with
    | Some (res, w, evs) => Some (res, w, TransformerCall x :: evs)
    | None => None
    end.
Proof.
  intros E. cbn [processAndGetNext].
  unfold bind, get, put, modify, emit, ret, pending,
    AbstractProcessor.takeNextInput, Optional.get.
  cbn [this arrays outputList]. rewrite E. cbn.
  unfold bind, get, put, ret. cbn.
  destruct (f x s) as [r' s']. cbn.
  destruct (processAndGetNext fuel (world (mk q r' f) s')) as [[[res w] evs]|]; reflexivity.
Qed.

Lemma flat_skip_undefined fuel (x : JsValue T) q r s :
  Store.read r s = [] -> (x = Undefined \/ x = Null) ->
  processAndGetNext fuel (world (mk (x :: q) r f) s)
  = Some (Empty, world (mk q r f) s, []).
Proof.
  intros E [-> | ->]; destruct fuel; cbn [processAndGetNext];
    unfold bind, get, put, ret, pending, AbstractProcessor.takeNextInput;
    cbn [this arrays outputList]; rewrite E; reflexivity.
Qed.

Lemma flat_nothing fuel r s :
  Store.read r s = [] ->
  processAndGetNext fuel (world (mk [] r f) s) = Some (Empty, world (mk [] r f) s, []).
Proof.
  intros E. destruct fuel; cbn [processAndGetNext];
    unfold bind, get, put, ret, pending; cbn [this arrays outputList];
    rewrite E; reflexivity.
Qed.

Lemma flat_call q : forall fuel r s,
  length q <= fuel ->
  processAndGetNext fuel (world (mk q r f) s)
  = let '(res, w, taken) := flatNext f q r s in
    Some (res, w, map TransformerCall (values (firstn taken q))).
Proof.
  induction q as [|x q IH]; intros fuel r s Hfuel.
  - cbn [flatNext]. destruct (Store.read r s) as [|o rest] eqn:E.
    + now apply flat_nothing.
    + now apply flat_pending.
  - cbn [flatNext]. destruct (Store.read r s) as [|o rest] eqn:E.
    2:{ now apply flat_pending. }
    destruct x as [| |x].
    + apply flat_skip_undefined; [exact E | now left].
    + apply flat_skip_undefined; [exact E | now right].
    + destruct fuel as [|fuel]; [cbn in Hfuel; lia|].
      rewrite (@flat_take_value fuel x q r s E).
      destruct (f x s) as [r' s']. cbn [fst snd].
      rewrite (IH fuel r' s') by (cbn in Hfuel; lia).
      destruct (flatNext f q r' s') as [[res w] taken]. reflexivity.
Qed.

Lemma flatNext_spec q : forall r s,
  let '(res, w, taken) := flatNext f q r s in
  inputs (this w) = skipn taken q
  /\ transformer (this w) = f
  /\ taken <= length q
  /\ res = hd Empty (flatResults (world (mk q r f) s))
  /\ flatResults w = tl (flatResults (world (mk q r f) s)).
Proof.
  induction q as [|x q IH]; intros r s; cbn [flatNext].
  - destruct (Store.read r s) as [|o rest] eqn:E.
    + unfold flatResults, pending. cbn [this arrays outputList inputs transformer].
      rewrite E. cbn. repeat split; lia.
    + unfold flatResults, pending. cbn [this arrays outputList inputs transformer].
      rewrite E. cbn [map app hd tl skipn length drained].
      rewrite read_write by (apply read_nonempty_valid; congruence).
      repeat split; lia.
  - destruct (Store.read r s) as [|o rest] eqn:E.
    2:{ unfold flatResults, pending. cbn [this arrays outputList inputs transformer].
        rewrite E. cbn [map app hd tl skipn length].
        rewrite read_write by (apply read_nonempty_valid; congruence).
        rewrite write_write. repeat split; lia. }
    assert (Hs : Store.write r [] s = s) by (rewrite <- E; apply write_read).
    destruct x as [| |x].
    + unfold flatResults, pending. cbn [this arrays outputList inputs transformer].
      rewrite E, Hs. cbn. repeat split; lia.
    + unfold flatResults, pending. cbn [this arrays outputList inputs transformer].
      rewrite E, Hs. cbn. repeat split; lia.
    + specialize (IH (fst (f x s)) (snd (f x s))).
      assert (Hres : flatResults (world (mk (Val x :: q) r f) s)
                     = flatResults (world (mk q (fst (f x s)) f) (snd (f x s)))).
      { unfold flatResults, pending. cbn [this arrays outputList inputs transformer].
        rewrite E, Hs. cbn [map app drained].
        destruct (f x s) as [r' s']. reflexivity. }
      rewrite Hres.
      destruct (f x s) as [r' s']. cbn [fst snd] in *.
      destruct (flatNext f q r' s') as [[res w] taken].
      destruct IH as [Hq [Hf [Htaken [Hr Hrest]]]].
      repeat split; [exact Hq | exact Hf | cbn; lia | exact Hr | exact Hrest].
Qed.

Lemma flat_times (n : nat) : forall q r s fuel,
  length q <= fuel ->
  exists taken w,
    processAndGetNext_times fuel n (world (mk q r f) s)
    = Some (firstCalls n (flatResults (world (mk q r f) s)), w,
            map TransformerCall (values (firstn taken q)))
    /\ inputs (this w) = skipn taken q
    /\ transformer (this w) = f
    /\ taken <= length q.
Proof.
  induction n as [|n IH]; intros q r s fuel Hfuel.
  - exists 0, (world (mk q r f) s). repeat split; lia.
  - cbn [processAndGetNext_times].
    pose proof (@flat_call q fuel r s Hfuel) as Hcall.
    pose proof (flatNext_spec q r s) as Hspec.
    destruct (flatNext f q r s) as [[res w] taken].
    destruct Hspec as [Hq [Hf [Htaken [-> Hrest]]]].
    rewrite (bind_Some _ _ _ Hcall).
    destruct w as [[q1 r1 f1] s1]. cbn in Hq, Hf. subst q1 f1.
    destruct (IH (skipn taken q) r1 s1 fuel) as [taken2 [w2 [E [Hq2 [Hf2 Htaken2]]]]].
    { rewrite length_skipn. lia. }
    unfold bind. rewrite E. cbn [ret].
    rewrite length_skipn in Htaken2.
    exists (taken + taken2), w2. split; [|split; [|split; [exact Hf2 | lia]]].
    + rewrite firstCalls_step, Hrest, app_nil_r, <- map_app, <- values_app.
      replace (firstn taken q ++ firstn taken2 (skipn taken q)) with (firstn (taken + taken2) q);
        [reflexivity|].
      rewrite <- (firstn_skipn taken q) at 1.
      rewrite firstn_app, firstn_firstn, length_firstn.
      replace (Init.Nat.min (taken + taken2) taken) with taken by lia.
      replace (taken + taken2 - Init.Nat.min taken (length q)) with taken2 by lia.
      reflexivity.
    + rewrite Hq2, skipn_skipn. f_equal. lia.
Qed.

(** When the array the transformer returns holds [g x] as it returns,
    the queue is handed out flattened by [g]. *)
Lemma drained_flattened (g : T -> list (JsValue U)) :
  (forall x s, Store.read (fst (f x s)) (snd (f x s)) = g x) ->
  forall q s, drained f q s = flattened g q.
Proof.
  intros Hg. induction q as [|[| |x] q IH]; intros s; cbn [drained flattened flat_map].
  - reflexivity.
  - cbn [app]. f_equal. apply IH.
  - cbn [app]. f_equal. apply IH.
  - specialize (Hg x s). destruct (f x s) as [r' s']. cbn [fst snd] in Hg.
    rewrite Hg. f_equal. apply IH.
Qed.

End FlatMapFacts.

(** A held array is handed out once: the transformer that returns it as
    it is returns it empty from the second value on. *)
Lemma drained_held {T U : Type} (a : Store.Ref) (xs : list T) : forall (s : Store.t U),
  drained (heldArray a) (map Val xs) s
  = match xs with
    | [] => []
    | _ :: _ => map Optional.ofNullable (Store.read a s)
    end.
Proof.
  assert (Hempty : forall (ys : list T) (s : Store.t U),
             Store.read a s = [] ->
             drained (heldArray a) (map Val ys) s = []).
  { induction ys as [|y ys IH]; intros s E; [reflexivity|].
    cbn [map drained heldArray]. rewrite E. cbn [map app].
    apply IH. rewrite <- E at 1. now rewrite write_read. }
  destruct xs as [|x xs]; intros s; [reflexivity|].
  cbn [map drained heldArray].
  destruct (Store.read a s) as [|o rest] eqn:E.
  - cbn [map app]. apply Hempty. rewrite <- E at 1. now rewrite write_read.
  - rewrite Hempty; [now rewrite app_nil_r|].
    apply read_write. apply read_nonempty_valid. congruence.
Qed.

(** ** More on the kept elements of the distinct processor *)

Section KeepFirstMore.
Context {T : Type}.
Variable equalityTest : BiPredicate (JsValue T) (JsValue T).
Implicit Types (xs kept : list (JsValue T)).

(** A list without matching pairs is kept whole. *)
Lemma keepFirst_fixed xs : forall kept,
  NoEqualPredecessor equalityTest (kept ++ xs) ->
  keepFirst equalityTest kept xs = kept ++ xs.
Proof.
  induction xs as [|x xs IH]; intros kept N; cbn [keepFirst].
  - now rewrite app_nil_r.
  - assert (E : existsb (fun d => equalityTest x d) kept = false).
    { destruct (existsb (fun d => equalityTest x d) kept) eqn:E; [|reflexivity].
      apply existsb_exists in E. destruct E as [d [Hd Exd]].
      apply In_nth_error in Hd. destruct Hd as [i Hi].
      assert (Hlen : i < length kept) by (apply nth_error_Some; congruence).
      rewrite <- Exd. apply (N i (length kept) d x Hlen).
      - rewrite nth_error_app1 by exact Hlen. exact Hi.
      - rewrite nth_error_app2, Nat.sub_diag by lia. reflexivity. }
    rewrite E, IH; rewrite <- app_assoc; [reflexivity | exact N].
Qed.

Lemma keepFirst_idempotent xs :
  keepFirst equalityTest [] (keepFirst equalityTest [] xs) = keepFirst equalityTest [] xs.
Proof.
  apply (keepFirst_fixed (keepFirst equalityTest [] xs) []).
  apply keepFirst_NoEqualPredecessor. intros i j d y _ Hi _. now destruct i.
Qed.

(** The number of equality tests: every input against the elements kept
    before it, at most one per pair of inputs. *)
Lemma comparisons_bound xs : forall kept,
  2 * length (comparisons equalityTest kept xs) + length xs
  <= length xs * length xs + 2 * length kept * length xs.
Proof.
  induction xs as [|x xs IH]; intros kept; cbn [comparisons length]; [lia|].
  rewrite length_app, length_map.
  specialize (IH (if existsb (fun d => equalityTest x d) kept then kept else kept ++ [x])).
  assert (Hk : length (if existsb (fun d => equalityTest x d) kept then kept else kept ++ [x])
               <= S (length kept)).
  { destruct (existsb (fun d => equalityTest x d) kept); [lia|].
    rewrite length_app. cbn. lia. }
  nia.
Qed.

End KeepFirstMore.

Section DefaultEquality.
Context {T : Type}.
Variable eqb : T -> T -> bool.
Hypothesis eqb_eq : forall a b, eqb a b = true <-> a = b.

Lemma defaultEquality_eq (i1 i2 : JsValue T) :
  defaultEquality eqb i1 i2 = true <-> i1 = i2.
Proof.
  destruct i1 as [| |a], i2 as [| |b]; cbn; try (split; [discriminate | discriminate]);
    try (split; reflexivity).
  rewrite eqb_eq. split; [now intros -> | now intros [= ->]].
Qed.

Lemma keepFirst_In (xs : list (JsValue T)) : forall kept x,
  In x (keepFirst (defaultEquality eqb) kept xs) <-> In x kept \/ In x xs.
Proof.
  induction xs as [|a xs IH]; intros kept x; cbn [keepFirst].
  - cbn. tauto.
  - destruct (existsb (fun d => defaultEquality eqb a d) kept) eqn:E.
    + rewrite IH. apply existsb_exists in E. destruct E as [d [Hd Ead]].
      apply defaultEquality_eq in Ead. subst d. cbn. intuition (subst; auto).
    + rewrite IH, in_app_iff. cbn. tauto.
Qed.

Lemma keepFirst_NoDup (xs : list (JsValue T)) : forall kept,
  NoDup kept -> NoDup (keepFirst (defaultEquality eqb) kept xs).
Proof.
  induction xs as [|a xs IH]; intros kept N; cbn [keepFirst]; [exact N|].
  destruct (existsb (fun d => defaultEquality eqb a d) kept) eqn:E.
  - now apply IH.
  - apply IH. apply NoDup_app; [exact N | repeat constructor; intros [] |].
    intros d Hd [Had | []]. subst d.
    assert (existsb (fun d => defaultEquality eqb a d) kept = true) as E'; [|congruence].
    apply existsb_exists. exists a. split; [exact Hd|]. now apply defaultEquality_eq.
Qed.

End DefaultEquality.

(** * Further properties of the terminal operations *)

Section StreamRestFacts.
Context {Pipe T : Type} `{ProcessorPipeline Pipe T}.
Implicit Types (s : PipelineStream.t Pipe) (p : Pipe) (xs ys : list T).

Import PipelineStreamRest.

Lemma rest_pull fuel s o p' :
  getNextResult fuel (PipelineStream.pipeline s) = Some (o, p') ->
  getNextProcessedItem fuel s = Some (o, PipelineStream.mk p' true, [Pulled]).
Proof.
  intros E. unfold getNextProcessedItem, relabel.
  now rewrite (getNextProcessedItem_eq fuel s E).
Qed.

(** *** count *)

Lemma count_while_step budget fuel n x s :
  count_while budget (S fuel) n (Present x) s
  = match getNextProcessedItem budget s with
    | Some (nextItem, s1, e1) =>
        match count_while budget fuel (n + 1)%Z nextItem s1 with
        | Some (c, s2, e2) => Some (c, s2, e1 ++ e2)
        | None => None
        end
    | None => None
    end.
Proof. reflexivity. Qed.

Lemma count_while_yields budget ys : forall x n p p1 p2 fuel,
  Yields budget p ys p1 ->
  getNextResult budget p1 = Some (Empty, p2) ->
  length ys < fuel ->
  count_while budget fuel n (Present x) (PipelineStream.mk p true)
  = Some ((n + Z.of_nat (S (length ys)))%Z, PipelineStream.mk p2 true,
          repeat Pulled (S (length ys))).
Proof.
  induction ys as [|y ys IH]; intros x n p p1 p2 fuel Y Hend Hfuel;
    (destruct fuel as [|fuel]; [inversion Hfuel|]); rewrite count_while_step.
  - inversion Y; subst.
    rewrite (rest_pull budget (PipelineStream.mk p1 true) Hend).
    destruct fuel; reflexivity.
  - inversion Y as [|? ? p' ? ? Hpull Y']; subst.
    rewrite (rest_pull budget (PipelineStream.mk p true) Hpull).
    rewrite (IH y (n + 1)%Z p' p1 p2 fuel Y' Hend ltac:(cbn in Hfuel; lia)).
    cbn [length repeat app]. do 3 f_equal. lia.
Qed.

Lemma count_yields fuel s xs p1 p2 :
  Yields fuel (PipelineStream.pipeline s) xs p1 ->
  getNextResult fuel p1 = Some (Empty, p2) ->
  length xs <= fuel ->
  count fuel s
  = Some (Z.of_nat (length xs), PipelineStream.mk p2 true, repeat Pulled (S (length xs))).
Proof.
  intros Y Hend Hfuel. unfold count.
  inversion Y as [|? x p' ys ? Hpull Y']; subst.
  - rewrite (bind_Some _ _ _ (rest_pull fuel s Hend)). destruct fuel; reflexivity.
  - rewrite (bind_Some _ _ _ (rest_pull fuel s Hpull)).
    assert (Hlt : length ys < fuel) by (cbn in Hfuel; lia).
    rewrite (count_while_yields x 0%Z Y' Hend Hlt). reflexivity.
Qed.

(** *** forEach *)

Lemma forEachOrdered_while_step budget fuel consumer x s :
  forEachOrdered_while budget (S fuel) consumer (Present x) s
  = match getNextProcessedItem budget s with
    | Some (nextItem, s1, e1) =>
        match forEachOrdered_while budget fuel consumer nextItem s1 with
        | Some (u, s2, e2) => Some (u, s2, ConsumerCall x :: e1 ++ e2)
        | None => None
        end
    | None => None
    end.
Proof.
  cbn [forEachOrdered_while Optional.isPresent Optional.get].
  unfold bind, emit, ret. cbn [app].
  destruct (getNextProcessedItem budget s) as [[[nextItem s1] e1]|]; [|reflexivity].
  destruct (forEachOrdered_while budget fuel consumer nextItem s1)
    as [[[u s2] e2]|]; reflexivity.
Qed.

Lemma forEachOrdered_while_yields budget consumer ys : forall x p p1 p2 fuel,
  Yields budget p ys p1 ->
  getNextResult budget p1 = Some (Empty, p2) ->
  length ys < fuel ->
  forEachOrdered_while budget fuel consumer (Present x) (PipelineStream.mk p true)
  = Some (tt, PipelineStream.mk p2 true,
          flat_map (fun y => [ConsumerCall y; Pulled]) (x :: ys)).
Proof.
  induction ys as [|y ys IH]; intros x p p1 p2 fuel Y Hend Hfuel;
    (destruct fuel as [|fuel]; [inversion Hfuel|]); rewrite forEachOrdered_while_step.
  - inversion Y; subst.
    rewrite (rest_pull budget (PipelineStream.mk p1 true) Hend).
    destruct fuel; reflexivity.
  - inversion Y as [|? ? p' ? ? Hpull Y']; subst.
    rewrite (rest_pull budget (PipelineStream.mk p true) Hpull).
    rewrite (IH y p' p1 p2 fuel Y' Hend ltac:(cbn in Hfuel; lia)).
    reflexivity.
Qed.

Lemma forEachOrdered_yields fuel consumer s xs p1 p2 :
  Yields fuel (PipelineStream.pipeline s) xs p1 ->
  getNextResult fuel p1 = Some (Empty, p2) ->
  length xs <= fuel ->
  forEachOrdered fuel consumer s
  = Some (tt, PipelineStream.mk p2 true,
          Pulled :: flat_map (fun y => [ConsumerCall y; Pulled]) xs).
Proof.
  intros Y Hend Hfuel. unfold forEachOrdered.
  inversion Y as [|? x p' ys ? Hpull Y']; subst.
  - rewrite (bind_Some _ _ _ (rest_pull fuel s Hend)). destruct fuel; reflexivity.
  - rewrite (bind_Some _ _ _ (rest_pull fuel s Hpull)).
    assert (Hlt : length ys < fuel) by (cbn in Hfuel; lia).
    rewrite (forEachOrdered_while_yields consumer x Y' Hend Hlt). reflexivity.
Qed.

(** *** max and min *)

Section ExtremeFacts.
Variable lessThan : T -> T -> bool.

Lemma max_while_step budget fuel cmp m x s :
  max_while budget (S fuel) cmp (Present m) (Present x) s
  = match getNextProcessedItem budget s with
    | Some (nextValue, s1, e1) =>
        match max_while budget fuel cmp (Present (keepGreater cmp m x)) nextValue s1 with
        | Some (r, s2, e2) => Some (r, s2, ComparatorCall x m :: e1 ++ e2)
        | None => None
        end
    | None => None
    end.
Proof.
  cbn [max_while Optional.isPresent Optional.get].
  unfold bind, emit, ret, keepGreater. cbn [app].
  destruct (getNextProcessedItem budget s) as [[[nextValue s1] e1]|]; [|reflexivity].
  destruct (0 <? cmp x m)%Z;
    match goal with
    | |- context [max_while ?b ?f ?c ?v ?n ?s] =>
        destruct (max_while b f c v n s) as [[[r s2] e2]|]; reflexivity
    end.
Qed.

Lemma min_while_step budget fuel cmp m x s :
  min_while budget (S fuel) cmp (Present m) (Present x) s
  = match getNextProcessedItem budget s with
    | Some (nextValue, s1, e1) =>
        match min_while budget fuel cmp (Present (keepSmaller cmp m x)) nextValue s1 with
        | Some (r, s2, e2) => Some (r, s2, ComparatorCall x m :: e1 ++ e2)
        | None => None
        end
    | None => None
    end.
Proof.
  cbn [min_while Optional.isPresent Optional.get].
  unfold bind, emit, ret, keepSmaller. cbn [app].
  destruct (getNextProcessedItem budget s) as [[[nextValue s1] e1]|]; [|reflexivity].
  destruct (cmp x m <? 0)%Z;
    match goal with
    | |- context [min_while ?b ?f ?c ?v ?n ?s] =>
        destruct (min_while b f c v n s) as [[[r s2] e2]|]; reflexivity
    end.
Qed.

Lemma max_while_yields budget cmp ys : forall x m p p1 p2 fuel,
  Yields budget p ys p1 ->
  getNextResult budget p1 = Some (Empty, p2) ->
  length ys < fuel ->
  max_while budget fuel cmp (Present m) (Present x) (PipelineStream.mk p true)
  = Some (Present (fold_left (keepGreater cmp) (x :: ys) m), PipelineStream.mk p2 true,
          extremeTrace (keepGreater cmp) m (x :: ys)).
Proof.
  induction ys as [|y ys IH]; intros x m p p1 p2 fuel Y Hend Hfuel;
    (destruct fuel as [|fuel]; [inversion Hfuel|]); rewrite max_while_step.
  - inversion Y; subst.
    rewrite (rest_pull budget (PipelineStream.mk p1 true) Hend).
    destruct fuel; reflexivity.
  - inversion Y as [|? ? p' ? ? Hpull Y']; subst.
    rewrite (rest_pull budget (PipelineStream.mk p true) Hpull).
    rewrite (IH y (keepGreater cmp m x) p' p1 p2 fuel Y' Hend
               ltac:(cbn in Hfuel; lia)).
    reflexivity.
Qed.

Lemma min_while_yields budget cmp ys : forall x m p p1 p2 fuel,
  Yields budget p ys p1 ->
  getNextResult budget p1 = Some (Empty, p2) ->
  length ys < fuel ->
  min_while budget fuel cmp (Present m) (Present x) (PipelineStream.mk p true)
  = Some (Present (fold_left (keepSmaller cmp) (x :: ys) m), PipelineStream.mk p2 true,
          extremeTrace (keepSmaller cmp) m (x :: ys)).
Proof.
  induction ys as [|y ys IH]; intros x m p p1 p2 fuel Y Hend Hfuel;
    (destruct fuel as [|fuel]; [inversion Hfuel|]); rewrite min_while_step.
  - inversion Y; subst.
    rewrite (rest_pull budget (PipelineStream.mk p1 true) Hend).
    destruct fuel; reflexivity.
  - inversion Y as [|? ? p' ? ? Hpull Y']; subst.
    rewrite (rest_pull budget (PipelineStream.mk p true) Hpull).
    rewrite (IH y (keepSmaller cmp m x) p' p1 p2 fuel Y' Hend
               ltac:(cbn in Hfuel; lia)).
    reflexivity.
Qed.

Lemma max_yields fuel comparator s xs p1 p2 :
  Yields fuel (PipelineStream.pipeline s) xs p1 ->
  getNextResult fuel p1 = Some (Empty, p2) ->
  length xs <= fuel ->
  max lessThan fuel comparator s
  = Some (match xs with
          | [] => Empty
          | x :: _ => Present (fold_left (keepGreater (comparatorToUse lessThan comparator)) xs x)
          end,
          PipelineStream.mk p2 true,
          Pulled :: match xs with
                    | [] => []
                    | x :: _ => extremeTrace (keepGreater (comparatorToUse lessThan comparator)) x xs
                    end).
Proof.
  intros Y Hend Hfuel. unfold max. fold (comparatorToUse lessThan comparator).
  inversion Y as [|? x p' ys ? Hpull Y']; subst.
  - rewrite (bind_Some _ _ _ (rest_pull fuel s Hend)). destruct fuel; reflexivity.
  - rewrite (bind_Some _ _ _ (rest_pull fuel s Hpull)).
    assert (Hlt : length ys < fuel) by (cbn in Hfuel; lia).
    rewrite (max_while_yields (comparatorToUse lessThan comparator) x x Y' Hend Hlt). reflexivity.
Qed.

Lemma min_yields fuel comparator s xs p1 p2 :
  Yields fuel (PipelineStream.pipeline s) xs p1 ->
  getNextResult fuel p1 = Some (Empty, p2) ->
  length xs <= fuel ->
  min lessThan fuel comparator s
  = Some (match xs with
          | [] => Empty
          | x :: _ => Present (fold_left (keepSmaller (comparatorToUse lessThan comparator)) xs x)
          end,
          PipelineStream.mk p2 true,
          Pulled :: match xs with
                    | [] => []
                    | x :: _ => extremeTrace (keepSmaller (comparatorToUse lessThan comparator)) x xs
                    end).
Proof.
  intros Y Hend Hfuel. unfold min. fold (comparatorToUse lessThan comparator).
  inversion Y as [|? x p' ys ? Hpull Y']; subst.
  - rewrite (bind_Some _ _ _ (rest_pull fuel s Hend)). destruct fuel; reflexivity.
  - rewrite (bind_Some _ _ _ (rest_pull fuel s Hpull)).
    assert (Hlt : length ys < fuel) by (cbn in Hfuel; lia).
    rewrite (min_while_yields (comparatorToUse lessThan comparator) x x Y' Hend Hlt). reflexivity.
Qed.

End ExtremeFacts.

End StreamRestFacts.

(** The element kept by a scan is one of the elements and none is strictly
    above it, when the comparator is reflexive and its strict part carries
    over. *)
Section Scan.
Context {T : Type}.
Variable cmp : Comparator T.
Hypothesis cmp_refl : forall a, (cmp a a <= 0)%Z.
Hypothesis cmp_trans : forall a b c, (cmp a b <= 0)%Z -> (0 < cmp c b)%Z -> (cmp a c <= 0)%Z.

Lemma keepGreater_scan (ys : list T) : forall (seen : list T) (m : T),
  In m seen ->
  (forall y, In y seen -> (cmp y m <= 0)%Z) ->
  In (fold_left (keepGreater cmp) ys m) (seen ++ ys)
  /\ forall y, In y (seen ++ ys) -> (cmp y (fold_left (keepGreater cmp) ys m) <= 0)%Z.
Proof.
  induction ys as [|x ys IH]; intros seen m Hm Hseen.
  - rewrite app_nil_r. now split.
  - cbn [fold_left].
    replace (seen ++ x :: ys) with ((seen ++ [x]) ++ ys) by now rewrite <- app_assoc.
    apply IH; unfold keepGreater; destruct (0 <? cmp x m)%Z eqn:E.
    + apply in_or_app. right. now left.
    + apply in_or_app. now left.
    + apply Z.ltb_lt in E. intros y Hy. apply in_app_or in Hy.
      destruct Hy as [Hy | [<- | []]]; [|apply cmp_refl].
      apply cmp_trans with (b := m); [now apply Hseen | exact E].
    + apply Z.ltb_ge in E. intros y Hy. apply in_app_or in Hy.
      destruct Hy as [Hy | [<- | []]]; [now apply Hseen | exact E].
Qed.

End Scan.

Section StreamFinite.
Context {Pipe T : Type} `{ProcessorPipeline Pipe T}.
Implicit Types (s : PipelineStream.t Pipe) (p : Pipe) (xs ys : list T).

Import PipelineStream.

(** On a finite stream a match loop answers whether some element makes
    the predicate answer [stopOn]. *)
Lemma match_while_finite stopOn onStop onEnd budget predicate ys :
  forall x p p1 p2 fuel,
    Yields budget p ys p1 ->
    getNextResult budget p1 = Some (Empty, p2) ->
    length ys < fuel ->
    returned (match_while stopOn onStop onEnd budget fuel predicate (Present x) (mk p true))
    = Some (if existsb (fun y => Bool.eqb (predicate y) stopOn) (x :: ys)
            then onStop else onEnd).
Proof.
  induction ys as [|y ys IH]; intros x p p1 p2 fuel Y Hend Hfuel;
    (destruct fuel as [|fuel]; [inversion Hfuel|]); rewrite match_while_step;
    cbn [existsb]; destruct (Bool.eqb (predicate x) stopOn); try reflexivity.
  - inversion Y; subst.
    rewrite (getNextProcessedItem_eq budget (mk p1 true) Hend).
    destruct fuel; reflexivity.
  - inversion Y as [|? ? p' ? ? Hpull Y']; subst.
    rewrite (getNextProcessedItem_eq budget (mk p true) Hpull).
    specialize (IH y p' p1 p2 fuel Y' Hend ltac:(cbn in Hfuel; lia)).
    cbn [orb]. cbn [existsb] in IH.
    destruct (match_while stopOn onStop onEnd budget fuel predicate (Present y) (mk p' true))
      as [[[b s2] e2]|]; [|discriminate IH].
    exact IH.
Qed.

Lemma match_finite stopOn onStop onEnd fuel predicate s xs p1 p2 :
  Yields fuel (pipeline s) xs p1 ->
  getNextResult fuel p1 = Some (Empty, p2) ->
  length xs <= fuel ->
  returned ((nextItem <- getNextProcessedItem fuel ;;
             match_while stopOn onStop onEnd fuel fuel predicate nextItem) s)
  = Some (if existsb (fun y => Bool.eqb (predicate y) stopOn) xs then onStop else onEnd).
Proof.
  intros Y Hend Hfuel.
  inversion Y as [|? x p' ys ? Hpull Y']; subst.
  - rewrite (bind_Some _ _ _ (getNextProcessedItem_eq fuel s Hend)).
    destruct fuel; reflexivity.
  - rewrite (bind_Some _ _ _ (getNextProcessedItem_eq fuel s Hpull)).
    assert (Hlt : length ys < fuel) by (cbn in Hfuel; lia).
    pose proof (match_while_finite stopOn onStop onEnd predicate x Y' Hend Hlt) as E.
    destruct (match_while stopOn onStop onEnd fuel fuel predicate (Present x) (mk p' true))
      as [[[b s2] e2]|]; [|discriminate E].
    exact E.
Qed.

Lemma returned_ext {St Ev A} (m1 m2 : Eff St Ev A) (st : St) :
  m1 st = m2 st -> returned (m1 st) = returned (m2 st).
Proof. now intros ->. Qed.

Lemma bind_ext {St Ev A B} (m : Eff St Ev A) (k1 k2 : A -> Eff St Ev B) (st : St) :
  (forall a st', k1 a st' = k2 a st') -> bind m k1 st = bind m k2 st.
Proof.
  intros E. unfold bind. destruct (m st) as [[[a st'] e]|]; [|reflexivity].
  now rewrite E.
Qed.

(** The collector form of [collect] on a finite stream. *)
Lemma collect_collector_yields {A R} fuel (collector : Collector T A R)
  (accumulator : option (BiConsumer R T)) (combiner : option (BiConsumer R R))
  s xs p1 p2 :
  Yields fuel (pipeline s) xs p1 ->
  getNextResult fuel p1 = Some (Empty, p2) ->
  length xs <= fuel ->
  collect fuel (inl collector) accumulator combiner s
  = Some (Val (Collector.finisher collector
                 (fold_left (Collector.accumulator collector) xs
                    (Collector.supplier collector tt))),
          mk p2 true, collectTrace xs ++ [FinisherCall]).
Proof.
  intros Y Hend Hfuel. unfold collectTrace. cbn [collect].
  rewrite (bind_Some _ _ _ (eq_refl : emit SupplierCall s = Some (tt, s, [SupplierCall]))).
  inversion Y as [|? x p' ys ? Hpull Y']; subst.
  - rewrite (bind_Some _ _ _ (getNextProcessedItem_eq fuel s Hend)).
    destruct fuel; reflexivity.
  - rewrite (bind_Some _ _ _ (getNextProcessedItem_eq fuel s Hpull)).
    assert (Hlt : length ys < fuel) by (cbn in Hfuel; lia).
    rewrite (bind_Some _ _ _
               (collect_while_yields (Collector.accumulator collector) x
                  (Collector.supplier collector tt) Y' Hend Hlt)).
    unfold bind, emit, ret. cbn [app flat_map fold_left]. now rewrite <- !app_assoc.
Qed.

End StreamFinite.

Section ScanDown.
Context {T : Type}.
Variable cmp : Comparator T.
Hypothesis cmp_refl : forall a, (0 <= cmp a a)%Z.
Hypothesis cmp_trans : forall a b c, (0 <= cmp a b)%Z -> (cmp c b < 0)%Z -> (0 <= cmp a c)%Z.

Lemma keepSmaller_scan (ys : list T) : forall (seen : list T) (m : T),
  In m seen ->
  (forall y, In y seen -> (0 <= cmp y m)%Z) ->
  In (fold_left (keepSmaller cmp) ys m) (seen ++ ys)
  /\ forall y, In y (seen ++ ys) -> (0 <= cmp y (fold_left (keepSmaller cmp) ys m))%Z.
Proof.
  induction ys as [|x ys IH]; intros seen m Hm Hseen.
  - rewrite app_nil_r. now split.
  - cbn [fold_left].
    replace (seen ++ x :: ys) with ((seen ++ [x]) ++ ys) by now rewrite <- app_assoc.
    apply IH; unfold keepSmaller; destruct (cmp x m <? 0)%Z eqn:E.
    + apply in_or_app. right. now left.
    + apply in_or_app. now left.
    + apply Z.ltb_lt in E. intros y Hy. apply in_app_or in Hy.
      destruct Hy as [Hy | [<- | []]]; [|apply cmp_refl].
      apply cmp_trans with (b := m); [now apply Hseen | exact E].
    + apply Z.ltb_ge in E. intros y Hy. apply in_app_or in Hy.
      destruct Hy as [Hy | [<- | []]]; [now apply Hseen | exact E].
Qed.

End ScanDown.

(** * Further properties, beyond the claims *)

Lemma firstCalls_all {A} (results : list (Optional A)) :
  firstCalls (length results) results = results.
Proof. unfold firstCalls. now rewrite firstn_all, Nat.sub_diag, app_nil_r. Qed.

Lemma presents_ofNullable {A} (l : list (JsValue A)) :
  presents (map Optional.ofNullable l) = values l.
Proof.
  induction l as [|[| |v] l IH]; cbn; try exact IH; [reflexivity|].
  f_equal. exact IH.
Qed.

Lemma presents_flattened {T U} (g : T -> list (JsValue U)) (q : list (JsValue T)) :
  presents (flattened g q) = flat_map (fun x => values (g x)) (values q).
Proof.
  unfold flattened.
  induction q as [|[| |x] q IH]; cbn [flat_map values app]; try exact IH; [reflexivity|].
  rewrite presents_app, presents_ofNullable. f_equal. exact IH.
Qed.

(** X1. A map processor is a lazy queue: [n] calls of [processAndGetNext]
    take the first [n] queue entries in order, return each value
    transformed and wrapped present (empty for an entry that is
    [undefined] or [null], and for every call past the end of the queue),
    and call the transformer exactly once for each value taken and for none
    still queued.  Asked once per entry, it returns the transformed values
    of the queue, in order. *)
Theorem map_processor_is_lazy_fifo
  (T U : Type) (f : Transformer T U) (q : list (JsValue T)) :
  (forall n : nat,
      map_times n (MapProcessor.mk q f)
      = Some (firstCalls n (map (mapResult f) q),
              MapProcessor.mk (skipn n q) f,
              map MapProcessor.TransformerCall (values (firstn n q))))
  /\ presents (firstCalls (length q) (map (mapResult f) q)) = map f (values q).
Proof.
  split.
  - intros n. apply map_times_eq.
  - rewrite <- (length_map (mapResult f) q), firstCalls_all. apply presents_mapResult.
Qed.

(** X2. A filter processor takes one queue entry per call: [n] calls take
    the first [n] entries in order, return a value that satisfies the
    predicate wrapped present and empty for any other entry, and call the
    predicate exactly once for each value taken.  Asked once per entry, its
    present results are the values of the queue that satisfy the predicate,
    in order. *)
Theorem filter_processor_keeps_matching
  (T : Type) (p : Predicate T) (q : list (JsValue T)) :
  (forall n : nat,
      filter_times n (FilterProcessor.mk q p)
      = Some (firstCalls n (map (filterResult p) q),
              FilterProcessor.mk (skipn n q) p,
              map FilterProcessor.PredicateCall (values (firstn n q))))
  /\ presents (firstCalls (length q) (map (filterResult p) q)) = filter p (values q).
Proof.
  split.
  - intros n. apply filter_times_eq.
  - rewrite <- (length_map (filterResult p) q), firstCalls_all. apply presents_filterResult.
Qed.

(** X3. The list flat-map processor hands out, call by call, its pending
    outputs and then, for each queued value in turn, the contents of the
    array that the transformer returns, as they are when it returns (an
    entry [undefined]/[null] costs one empty result, a value whose array
    is empty costs none), and empty afterwards; the transformer has been
    called, in order, exactly on the values of the inputs taken so far.
    The array is the transformer's own, emptied in place.  So a
    transformer whose array holds [g x] each time it returns (a new array
    each time, say) gets the queue flattened by [g]; and a transformer
    that returns one array it holds, as it is, gets that array handed out
    once, however many values are queued. *)
Theorem flatmap_processor_flattens (T U : Type) :
  (forall (f : ListFlatMapProcessor.ArrayTransformer T U) (q : list (JsValue T))
          (r : Store.Ref) (s : Store.t U) (fuel n : nat),
      length q <= fuel ->
      let w := ListFlatMapProcessor.world (ListFlatMapProcessor.mk q r f) s in
      exists taken w',
        ListFlatMapProcessor.processAndGetNext_times fuel n w
        = Some (firstCalls n (flatResults w), w',
                map ListFlatMapProcessor.TransformerCall (values (firstn taken q)))
        /\ ListFlatMapProcessor.inputs (ListFlatMapProcessor.this w') = skipn taken q
        /\ ListFlatMapProcessor.transformer (ListFlatMapProcessor.this w') = f
        /\ taken <= length q)
  /\ (forall (f : ListFlatMapProcessor.ArrayTransformer T U) (g : T -> list (JsValue U)),
      (forall x s, Store.read (fst (f x s)) (snd (f x s)) = g x) ->
      forall (q : list (JsValue T)) (r : Store.Ref) (s : Store.t U),
        let w := ListFlatMapProcessor.world (ListFlatMapProcessor.mk q r f) s in
        flatResults w = map Optional.ofNullable (Store.read r s) ++ flattened g q
        /\ presents (firstCalls (length (flatResults w)) (flatResults w))
           = values (Store.read r s) ++ flat_map (fun x => values (g x)) (values q))
  /\ (forall (a r : Store.Ref) (xs : list T) (s : Store.t U),
      xs <> [] ->
      Store.read r s = [] ->
      flatResults (ListFlatMapProcessor.world
                     (ListFlatMapProcessor.mk (map Val xs) r (heldArray a)) s)
      = map Optional.ofNullable (Store.read a s)).
Proof.
  split; [|split].
  - intros f q r s fuel n Hfuel w. now apply flat_times.
  - intros f g Hg q r s w.
    assert (E : flatResults w = map Optional.ofNullable (Store.read r s) ++ flattened g q).
    { unfold flatResults, w, ListFlatMapProcessor.pending.
      cbn [ListFlatMapProcessor.this ListFlatMapProcessor.arrays
           ListFlatMapProcessor.outputList ListFlatMapProcessor.inputs
           ListFlatMapProcessor.transformer].
      now rewrite (@drained_flattened T U f g Hg). }
    split; [exact E|].
    rewrite firstCalls_all, E, presents_app, presents_ofNullable, presents_flattened.
    reflexivity.
  - intros a r xs s Hxs E.
    unfold flatResults, ListFlatMapProcessor.pending.
    cbn [ListFlatMapProcessor.this ListFlatMapProcessor.arrays
         ListFlatMapProcessor.outputList ListFlatMapProcessor.inputs
         ListFlatMapProcessor.transformer].
    rewrite E. cbn [map app]. rewrite drained_held.
    destruct xs as [|x xs]; [congruence|].
    rewrite <- E at 1. now rewrite write_read.
Qed.

Lemma flatmap_processor_flattens_witness :
  (exists taken w',
      ListFlatMapProcessor.processAndGetNext_times 2 4
        (ListFlatMapProcessor.world
           (ListFlatMapProcessor.mk [Val 10; Val 20]%Z 0 (heldArray 1))
           [[]; [Val 1; Val 2]%Z])
      = Some ([Present 1; Present 2; Empty; Empty]%Z, w',
              map ListFlatMapProcessor.TransformerCall (values (firstn taken [Val 10; Val 20]%Z)))
      /\ ListFlatMapProcessor.inputs (ListFlatMapProcessor.this w')
         = skipn taken [Val 10; Val 20]%Z
      /\ ListFlatMapProcessor.transformer (ListFlatMapProcessor.this w')
         = heldArray 1
      /\ taken <= 2)
  /\ flatResults
       (ListFlatMapProcessor.world
          (ListFlatMapProcessor.mk [Val 10; Val 20]%Z 0
             (freshArray (fun x => [Val x; Val (x + 1)]%Z)))
          [[]])
     = [Present 10; Present 11; Present 20; Present 21]%Z.
Proof.
  split.
  - exact (proj1 (flatmap_processor_flattens Z Z) (heldArray 1)
             [Val 10; Val 20]%Z 0 [[]; [Val 1; Val 2]%Z] 2 4 (le_n 2)).
  - refine (proj1 (proj1 (proj2 (flatmap_processor_flattens Z Z))
                     (freshArray (fun x => [Val x; Val (x + 1)]%Z))
                     (fun x => [Val x; Val (x + 1)]%Z) _
                     [Val 10; Val 20]%Z 0 [[]])).
    intros x s. apply read_alloc.
Defined.

Lemma values_map_Val {T} (xs : list T) : values (map Val xs) = xs.
Proof. induction xs as [|x xs IH]; cbn; [reflexivity | now f_equal]. Qed.

Lemma flatNext_all_empty {T U} (f : ListFlatMapProcessor.ArrayTransformer T U) (xs : list T) :
  (forall x s, In x xs -> Store.read (fst (f x s)) (snd (f x s)) = []) ->
  forall r s,
    Store.read r s = [] ->
    flatNext f (map Val xs) r s
    = (Empty,
       ListFlatMapProcessor.world
         (ListFlatMapProcessor.mk [] (fst (transformedAll f xs r s)) f)
         (snd (transformedAll f xs r s)),
       length xs)
    /\ Store.read (fst (transformedAll f xs r s)) (snd (transformedAll f xs r s)) = [].
Proof.
  induction xs as [|x xs IH]; intros Hf r s E.
  - cbn [map flatNext]. rewrite E. split; [reflexivity | exact E].
  - cbn [map flatNext]. rewrite E.
    pose proof (Hf x s (or_introl eq_refl)) as E1.
    assert (Hf' : forall y s0, In y xs -> Store.read (fst (f y s0)) (snd (f y s0)) = [])
      by (intros y s0 Hy; apply Hf; now right).
    destruct (IH Hf' (fst (f x s)) (snd (f x s)) E1) as [Hnext Hread].
    unfold transformedAll in *. cbn [fold_left snd].
    destruct (f x s) as [r1 s1]. cbn [fst snd] in *.
    rewrite Hnext. split; [reflexivity | exact Hread].
Qed.

(** X4. One call of the list flat-map processor may use up the whole
    queue: when the transformer returns an empty array on every queued
    value, [hasNext] answers true before the call, the call takes every
    input (calling the transformer on each, in order) and returns empty,
    and [hasNext] answers false after it. *)
Theorem flatmap_call_may_take_every_input
  (T U : Type) (f : ListFlatMapProcessor.ArrayTransformer T U) (xs : list T)
  (r : Store.Ref) (s : Store.t U) (fuel : nat) :
  xs <> [] ->
  Store.read r s = [] ->
  (forall x s0, In x xs -> Store.read (fst (f x s0)) (snd (f x s0)) = []) ->
  length xs <= fuel ->
  let before := ListFlatMapProcessor.world (ListFlatMapProcessor.mk (map Val xs) r f) s in
  let after :=
    ListFlatMapProcessor.world
      (ListFlatMapProcessor.mk [] (fst (transformedAll f xs r s)) f)
      (snd (transformedAll f xs r s)) in
  ListFlatMapProcessor.hasNext before = Some (true, before, [])
  /\ ListFlatMapProcessor.processAndGetNext fuel before
     = Some (Empty, after, map ListFlatMapProcessor.TransformerCall xs)
  /\ ListFlatMapProcessor.hasNext after = Some (false, after, []).
Proof.
  intros Hne E Hf Hfuel before after.
  destruct (@flatNext_all_empty T U f xs Hf r s E) as [Hnext Hread].
  split; [|split].
  - unfold ListFlatMapProcessor.hasNext, bind, get, ret, ListFlatMapProcessor.pending, before.
    cbn [ListFlatMapProcessor.this ListFlatMapProcessor.arrays
         ListFlatMapProcessor.outputList ListFlatMapProcessor.inputs].
    rewrite E. destruct xs; [congruence | reflexivity].
  - unfold before. rewrite flat_call by now rewrite length_map.
    rewrite Hnext.
    rewrite <- (length_map (@Val T) xs), firstn_all, values_map_Val. reflexivity.
  - unfold ListFlatMapProcessor.hasNext, bind, get, ret, ListFlatMapProcessor.pending, after.
    cbn [ListFlatMapProcessor.this ListFlatMapProcessor.arrays
         ListFlatMapProcessor.outputList ListFlatMapProcessor.inputs].
    rewrite Hread. reflexivity.
Qed.

Lemma flatmap_call_may_take_every_input_witness :
  let f : ListFlatMapProcessor.ArrayTransformer Z Z := freshArray (fun _ => []) in
  ListFlatMapProcessor.processAndGetNext 3
    (ListFlatMapProcessor.world (ListFlatMapProcessor.mk [Val 1; Val 2; Val 3]%Z 0 f) [[]])
  = Some (Empty,
          ListFlatMapProcessor.world (ListFlatMapProcessor.mk [] 3 f) [[]; []; []; []],
          map ListFlatMapProcessor.TransformerCall [1; 2; 3]%Z).
Proof.
  intros f.
  refine (proj1 (proj2 (@flatmap_call_may_take_every_input Z Z f [1; 2; 3]%Z 0 [[]] 3 _ _ _ _))).
  - discriminate.
  - reflexivity.
  - intros x s0 _. apply read_alloc.
  - apply le_n.
Defined.

(** X5. Distinct is idempotent, for every equality test: the buffer that
    [processValues] computes from any queue is left whole, and in the same
    order, when [processValues] runs on it again with the same test. *)
Theorem distinct_is_idempotent
  (T : Type) (equalityTest : BiPredicate (JsValue T) (JsValue T))
  (xs : list (JsValue T)) :
  exists buffer evs1 evs2,
    DistinctProcessor.processValues (DistinctProcessor.mk xs equalityTest Empty)
    = Some (tt, DistinctProcessor.mk [] equalityTest (Present buffer), evs1)
    /\ DistinctProcessor.processValues (DistinctProcessor.mk buffer equalityTest Empty)
       = Some (tt, DistinctProcessor.mk [] equalityTest (Present buffer), evs2).
Proof.
  exists (keepFirst equalityTest [] xs). eexists _, _. split.
  - apply processValues_eq.
  - rewrite processValues_eq.
    cbn [DistinctProcessor.comparator DistinctProcessor.inputs].
    now rewrite keepFirst_idempotent.
Qed.

(** X6. With the default equality [===] (on values whose strict equality
    is equality) the buffer that [processValues] computes has no element
    twice and holds exactly the elements of the queue. *)
Theorem distinct_default_equality_no_duplicates
  (T : Type) (eqb : T -> T -> bool) (xs : list (JsValue T)) :
  (forall a b, eqb a b = true <-> a = b) ->
  exists buffer evs,
    DistinctProcessor.processValues
      (DistinctProcessor.mk xs (defaultEquality eqb) Empty)
    = Some (tt, DistinctProcessor.mk [] (defaultEquality eqb) (Present buffer), evs)
    /\ NoDup buffer
    /\ forall x, In x buffer <-> In x xs.
Proof.
  intros eqb_eq. eexists _, _. split; [apply processValues_eq|].
  cbn [DistinctProcessor.comparator DistinctProcessor.inputs]. split.
  - apply (@keepFirst_NoDup T eqb eqb_eq). constructor.
  - intros x. rewrite (@keepFirst_In T eqb eqb_eq). cbn. tauto.
Qed.

Lemma distinct_default_equality_no_duplicates_witness :
  exists buffer evs,
    DistinctProcessor.processValues
      (DistinctProcessor.mk [Val 3; Undefined; Val 3; Undefined; Val 4]%Z
         (defaultEquality Z.eqb) Empty)
    = Some (tt, DistinctProcessor.mk [] (defaultEquality Z.eqb) (Present buffer), evs)
    /\ NoDup buffer
    /\ forall x, In x buffer <-> In x [Val 3; Undefined; Val 3; Undefined; Val 4]%Z.
Proof.
  exact (@distinct_default_equality_no_duplicates Z Z.eqb
           [Val 3; Undefined; Val 3; Undefined; Val 4]%Z Z.eqb_eq).
Defined.

(** X7. [processValues] on a queue of [n] inputs invokes the equality
    test at most [n (n - 1) / 2] times. *)
Theorem distinct_comparisons_are_bounded
  (T : Type) (this : DistinctProcessor.t T) :
  exists this' evs,
    DistinctProcessor.processValues this = Some (tt, this', evs)
    /\ 2 * length evs + length (DistinctProcessor.inputs this)
       <= length (DistinctProcessor.inputs this) * length (DistinctProcessor.inputs this).
Proof.
  eexists _, _. split; [apply processValues_eq|].
  pose proof (comparisons_bound (DistinctProcessor.comparator this)
                (DistinctProcessor.inputs this) []) as B.
  cbn [length] in B. lia.
Qed.

(** X8. [count] on a stream that yields [xs] and is then exhausted
    returns the length of [xs], after one pull per element and the pull
    that finds the pipeline exhausted; the stream is left exhausted. *)
Theorem count_is_number_of_elements
  (Pipe T : Type) (PP : ProcessorPipeline Pipe T) (fuel : nat)
  (s : PipelineStream.t Pipe) (xs : list T) (p1 p2 : Pipe) :
  Yields fuel (PipelineStream.pipeline s) xs p1 ->
  getNextResult fuel p1 = Some (Empty, p2) ->
  length xs <= fuel ->
  PipelineStreamRest.count fuel s
  = Some (Z.of_nat (length xs), PipelineStream.mk p2 true,
          repeat PipelineStreamRest.Pulled (S (length xs))).
Proof. intros Y Hend Hfuel. eapply count_yields; eassumption. Qed.

Lemma count_is_number_of_elements_witness :
  PipelineStreamRest.count 4 (Stream.of_ [7; 7; 9]%Z)
  = Some (3%Z, PipelineStream.mk (Pipeline.mk (ArraySource.mk []) 4 []) true,
          repeat PipelineStreamRest.Pulled 4).
Proof.
  refine (@count_is_number_of_elements _ _ _ 4 (Stream.of_ [7; 7; 9]%Z) [7; 7; 9]%Z
            (Pipeline.mk (ArraySource.mk []) 3 [])
            (Pipeline.mk (ArraySource.mk []) 4 []) _ eq_refl _).
  - repeat (eapply Yields_cons; [reflexivity|]). apply Yields_nil.
  - cbn. lia.
Defined.

(** X9. [forEach] is [forEachOrdered]; on a stream that yields [xs] and is
    then exhausted it calls the consumer once on every element, in pull
    order, each call made before the next element is pulled. *)
Theorem forEach_visits_in_pull_order
  (Pipe T : Type) (PP : ProcessorPipeline Pipe T) (fuel : nat) (consumer : Consumer T)
  (s : PipelineStream.t Pipe) (xs : list T) (p1 p2 : Pipe) :
  Yields fuel (PipelineStream.pipeline s) xs p1 ->
  getNextResult fuel p1 = Some (Empty, p2) ->
  length xs <= fuel ->
  PipelineStreamRest.forEach fuel consumer s
  = Some (tt, PipelineStream.mk p2 true,
          PipelineStreamRest.Pulled
            :: flat_map (fun x => [PipelineStreamRest.ConsumerCall x;
                                   PipelineStreamRest.Pulled]) xs)
  /\ PipelineStreamRest.forEach fuel consumer s
     = PipelineStreamRest.forEachOrdered fuel consumer s.
Proof.
  intros Y Hend Hfuel. split; [|reflexivity].
  unfold PipelineStreamRest.forEach. eapply forEachOrdered_yields; eassumption.
Qed.

Lemma forEach_visits_in_pull_order_witness :
  PipelineStreamRest.forEach 3 (fun _ : Z => tt) (Stream.of_ [5; 6]%Z)
  = Some (tt, PipelineStream.mk (Pipeline.mk (ArraySource.mk []) 3 []) true,
          [PipelineStreamRest.Pulled;
           PipelineStreamRest.ConsumerCall 5%Z; PipelineStreamRest.Pulled;
           PipelineStreamRest.ConsumerCall 6%Z; PipelineStreamRest.Pulled]).
Proof.
  refine (proj1 (@forEach_visits_in_pull_order _ _ _ 3 (fun _ : Z => tt)
                   (Stream.of_ [5; 6]%Z) [5; 6]%Z
                   (Pipeline.mk (ArraySource.mk []) 2 [])
                   (Pipeline.mk (ArraySource.mk []) 3 []) _ eq_refl _)).
  - repeat (eapply Yields_cons; [reflexivity|]). apply Yields_nil.
  - cbn. lia.
Defined.

(** X10. [max] on a stream that yields [xs] and is then exhausted returns
    empty when [xs] is empty, without calling the comparator.  Otherwise
    it calls the comparator once per element, the first time on the first
    element and itself, and, when the comparator in use is reflexive
    ([c(a,a) <= 0]) and carries its strict part over ([c(a,b) <= 0] and
    [c(x,b) > 0] give [c(a,x) <= 0]), it returns an element of [xs] that
    no element of [xs] is strictly above. *)
Theorem max_returns_a_greatest_element
  (Pipe T : Type) (PP : ProcessorPipeline Pipe T) (lessThan : T -> T -> bool)
  (comparator : option (Comparator T)) (fuel : nat)
  (s : PipelineStream.t Pipe) (xs : list T) (p1 p2 : Pipe) :
  let c := comparatorToUse lessThan comparator in
  Yields fuel (PipelineStream.pipeline s) xs p1 ->
  getNextResult fuel p1 = Some (Empty, p2) ->
  length xs <= fuel ->
  (forall a, (c a a <= 0)%Z) ->
  (forall a b x, (c a b <= 0)%Z -> (0 < c x b)%Z -> (c a x <= 0)%Z) ->
  match xs with
  | [] =>
      PipelineStreamRest.max lessThan fuel comparator s
      = Some (Empty, PipelineStream.mk p2 true, [PipelineStreamRest.Pulled])
  | first :: _ =>
      exists greatest,
        PipelineStreamRest.max lessThan fuel comparator s
        = Some (Present greatest, PipelineStream.mk p2 true,
                PipelineStreamRest.Pulled :: extremeTrace (keepGreater c) first xs)
        /\ In greatest xs
        /\ forall y, In y xs -> (c y greatest <= 0)%Z
  end.
Proof.
  intros c Y Hend Hfuel Hrefl Htrans.
  pose proof (max_yields lessThan comparator s Y Hend Hfuel) as E.
  destruct xs as [|x xs]; [exact E|].
  exists (fold_left (keepGreater c) (x :: xs) x). split; [exact E|].
  destruct (@keepGreater_scan T c Hrefl Htrans (x :: xs) [x] x (or_introl eq_refl))
    as [Hin Hall].
  { intros y [<- | []]. apply Hrefl. }
  split.
  - destruct Hin as [<- | Hin]; [now left | exact Hin].
  - intros y Hy. apply Hall. now right.
Qed.

Lemma Comparator_default_Z (a b : Z) :
  Comparator_default Z.ltb a b = Z.sgn (a - b).
Proof.
  unfold Comparator_default.
  destruct (a <? b)%Z eqn:E1; [apply Z.ltb_lt in E1 | apply Z.ltb_ge in E1].
  - symmetry. apply Z.sgn_neg. lia.
  - destruct (b <? a)%Z eqn:E2; [apply Z.ltb_lt in E2 | apply Z.ltb_ge in E2].
    + symmetry. apply Z.sgn_pos. lia.
    + symmetry. apply Z.sgn_null_iff. lia.
Qed.

Lemma max_returns_a_greatest_element_witness :
  exists greatest,
    PipelineStreamRest.max Z.ltb 4 None (Stream.of_ [3; 8; 5]%Z)
    = Some (Present greatest,
            PipelineStream.mk (Pipeline.mk (ArraySource.mk []) 4 []) true,
            PipelineStreamRest.Pulled
              :: extremeTrace (keepGreater (comparatorToUse Z.ltb None)) 3%Z [3; 8; 5]%Z)
    /\ In greatest [3; 8; 5]%Z
    /\ forall y, In y [3; 8; 5]%Z -> (comparatorToUse Z.ltb None y greatest <= 0)%Z.
Proof.
  refine (@max_returns_a_greatest_element _ _ _ Z.ltb None 4
            (Stream.of_ [3; 8; 5]%Z) [3; 8; 5]%Z
            (Pipeline.mk (ArraySource.mk []) 3 [])
            (Pipeline.mk (ArraySource.mk []) 4 []) _ eq_refl _ _ _).
  - repeat (eapply Yields_cons; [reflexivity|]). apply Yields_nil.
  - cbn. lia.
  - intros a. cbn [comparatorToUse]. rewrite Comparator_default_Z. lia.
  - intros a b x. cbn [comparatorToUse]. rewrite !Comparator_default_Z. lia.
Defined.

(** X11. [min] on a stream that yields [xs] and is then exhausted returns
    empty when [xs] is empty, without calling the comparator.  Otherwise
    it calls the comparator once per element, the first time on the first
    element and itself, and, when the comparator in use is reflexive
    ([c(a,a) >= 0]) and carries its strict part over ([c(a,b) >= 0] and
    [c(x,b) < 0] give [c(a,x) >= 0]), it returns an element of [xs] that
    no element of [xs] is strictly below. *)
Theorem min_returns_a_least_element
  (Pipe T : Type) (PP : ProcessorPipeline Pipe T) (lessThan : T -> T -> bool)
  (comparator : option (Comparator T)) (fuel : nat)
  (s : PipelineStream.t Pipe) (xs : list T) (p1 p2 : Pipe) :
  let c := comparatorToUse lessThan comparator in
  Yields fuel (PipelineStream.pipeline s) xs p1 ->
  getNextResult fuel p1 = Some (Empty, p2) ->
  length xs <= fuel ->
  (forall a, (0 <= c a a)%Z) ->
  (forall a b x, (0 <= c a b)%Z -> (c x b < 0)%Z -> (0 <= c a x)%Z) ->
  match xs with
  | [] =>
      PipelineStreamRest.min lessThan fuel comparator s
      = Some (Empty, PipelineStream.mk p2 true, [PipelineStreamRest.Pulled])
  | first :: _ =>
      exists least,
        PipelineStreamRest.min lessThan fuel comparator s
        = Some (Present least, PipelineStream.mk p2 true,
                PipelineStreamRest.Pulled :: extremeTrace (keepSmaller c) first xs)
        /\ In least xs
        /\ forall y, In y xs -> (0 <= c y least)%Z
  end.
Proof.
  intros c Y Hend Hfuel Hrefl Htrans.
  pose proof (min_yields lessThan comparator s Y Hend Hfuel) as E.
  destruct xs as [|x xs]; [exact E|].
  exists (fold_left (keepSmaller c) (x :: xs) x). split; [exact E|].
  destruct (@keepSmaller_scan T c Hrefl Htrans (x :: xs) [x] x (or_introl eq_refl))
    as [Hin Hall].
  { intros y [<- | []]. apply Hrefl. }
  split.
  - destruct Hin as [<- | Hin]; [now left | exact Hin].
  - intros y Hy. apply Hall. now right.
Qed.

Lemma min_returns_a_least_element_witness :
  let byAbs : Comparator Z := fun a b => (Z.abs a - Z.abs b)%Z in
  exists least,
    PipelineStreamRest.min Z.ltb 4 (Some byAbs) (Stream.of_ [3; -2; 5]%Z)
    = Some (Present least,
            PipelineStream.mk (Pipeline.mk (ArraySource.mk []) 4 []) true,
            PipelineStreamRest.Pulled
              :: extremeTrace (keepSmaller byAbs) 3%Z [3; -2; 5]%Z)
    /\ In least [3; -2; 5]%Z
    /\ forall y, In y [3; -2; 5]%Z -> (0 <= byAbs y least)%Z.
Proof.
  intros byAbs.
  refine (@min_returns_a_least_element _ _ _ Z.ltb (Some byAbs) 4
            (Stream.of_ [3; -2; 5]%Z) [3; -2; 5]%Z
            (Pipeline.mk (ArraySource.mk []) 3 [])
            (Pipeline.mk (ArraySource.mk []) 4 []) _ eq_refl _ _ _).
  - repeat (eapply Yields_cons; [reflexivity|]). apply Yields_nil.
  - cbn. lia.
  - intros a. cbn [comparatorToUse]. unfold byAbs. lia.
  - intros a b x. cbn [comparatorToUse]. unfold byAbs. lia.
Defined.

(** X12. On a stream that yields [xs] and is then exhausted, [allMatch]
    returns whether every element of [xs] satisfies the predicate,
    [anyMatch] whether some element does, and [noneMatch] whether none
    does. *)
Theorem match_operations_decide_finite_streams
  (Pipe T : Type) (PP : ProcessorPipeline Pipe T) (predicate : Predicate T)
  (fuel : nat) (s : PipelineStream.t Pipe) (xs : list T) (p1 p2 : Pipe) :
  Yields fuel (PipelineStream.pipeline s) xs p1 ->
  getNextResult fuel p1 = Some (Empty, p2) ->
  length xs <= fuel ->
  returned (PipelineStream.allMatch fuel predicate s) = Some (forallb predicate xs)
  /\ returned (PipelineStream.anyMatch fuel predicate s) = Some (existsb predicate xs)
  /\ returned (PipelineStream.noneMatch fuel predicate s)
     = Some (negb (existsb predicate xs)).
Proof.
  intros Y Hend Hfuel.
  assert (Hall : forall l : list T,
             (if existsb (fun y => Bool.eqb (predicate y) false) l then false else true)
             = forallb predicate l).
  { induction l as [|a l IH]; [reflexivity|]. cbn. rewrite <- IH.
    now destruct (predicate a). }
  assert (Hany : forall l : list T,
             existsb (fun y => Bool.eqb (predicate y) true) l = existsb predicate l).
  { induction l as [|a l IH]; [reflexivity|]. cbn. rewrite IH.
    now destruct (predicate a). }
  split; [|split].
  - rewrite <- Hall,
      <- (match_finite false false true predicate s Y Hend Hfuel).
    apply returned_ext. unfold PipelineStream.allMatch. apply bind_ext.
    intros a st'. apply allMatch_while_eq.
  - replace (existsb predicate xs)
      with (if existsb (fun y => Bool.eqb (predicate y) true) xs then true else false)
      by (rewrite Hany; now destruct (existsb predicate xs)).
    rewrite <- (match_finite true true false predicate s Y Hend Hfuel).
    apply returned_ext. unfold PipelineStream.anyMatch. apply bind_ext.
    intros a st'. apply anyMatch_while_eq.
  - replace (negb (existsb predicate xs))
      with (if existsb (fun y => Bool.eqb (predicate y) true) xs then false else true)
      by (rewrite Hany; now destruct (existsb predicate xs)).
    rewrite <- (match_finite true false true predicate s Y Hend Hfuel).
    apply returned_ext. unfold PipelineStream.noneMatch. apply bind_ext.
    intros a st'. apply noneMatch_while_eq.
Qed.

Lemma match_operations_decide_finite_streams_witness :
  returned (PipelineStream.allMatch 4 Z.even (Stream.of_ [2; 4; 6]%Z)) = Some true
  /\ returned (PipelineStream.anyMatch 4 Z.even (Stream.of_ [2; 4; 6]%Z)) = Some true
  /\ returned (PipelineStream.noneMatch 4 Z.even (Stream.of_ [2; 4; 6]%Z)) = Some false.
Proof.
  refine (@match_operations_decide_finite_streams _ _ _ Z.even 4
            (Stream.of_ [2; 4; 6]%Z) [2; 4; 6]%Z
            (Pipeline.mk (ArraySource.mk []) 3 [])
            (Pipeline.mk (ArraySource.mk []) 4 []) _ eq_refl _).
  - repeat (eapply Yields_cons; [reflexivity|]). apply Yields_nil.
  - cbn. lia.
Defined.

(** X13. The collector form of [collect], on a stream that yields [xs]
    and is then exhausted: the collector's supplier is called once, its
    accumulator once per element in pull order, its finisher once at the
    end, and the result is the finisher applied to the container so
    filled; an accumulator or a combiner passed besides the collector is
    ignored. *)
Theorem collect_with_collector_finishes_the_fold
  (Pipe T : Type) (PP : ProcessorPipeline Pipe T) (A R : Type) (fuel : nat)
  (collector : Collector T A R)
  (accumulator : option (BiConsumer R T)) (combiner : option (BiConsumer R R))
  (s : PipelineStream.t Pipe) (xs : list T) (p1 p2 : Pipe) :
  Yields fuel (PipelineStream.pipeline s) xs p1 ->
  getNextResult fuel p1 = Some (Empty, p2) ->
  length xs <= fuel ->
  PipelineStream.collect fuel (inl collector) accumulator combiner s
  = Some (Val (Collector.finisher collector
                 (fold_left (Collector.accumulator collector) xs
                    (Collector.supplier collector tt))),
          PipelineStream.mk p2 true,
          collectTrace xs ++ [PipelineStream.FinisherCall]).
Proof. intros Y Hend Hfuel. eapply collect_collector_yields; eassumption. Qed.

Lemma collect_with_collector_finishes_the_fold_witness :
  let summing : Collector Z Z bool :=
    Collector.mk (fun _ => 0%Z) (fun total x => (total + x)%Z) (fun total => (total =? 9)%Z) in
  PipelineStream.collect 3 (inl summing) None None (Stream.of_ [4; 5]%Z)
  = Some (Val true,
          PipelineStream.mk (Pipeline.mk (ArraySource.mk []) 3 []) true,
          collectTrace [4; 5]%Z ++ [PipelineStream.FinisherCall]).
Proof.
  intros summing.
  refine (@collect_with_collector_finishes_the_fold _ _ _ Z bool 3 summing None None
            (Stream.of_ [4; 5]%Z) [4; 5]%Z
            (Pipeline.mk (ArraySource.mk []) 2 [])
            (Pipeline.mk (ArraySource.mk []) 3 []) _ eq_refl _).
  - repeat (eapply Yields_cons; [reflexivity|]). apply Yields_nil.
  - cbn. lia.
Defined.

(** X14. A terminal operation resumes where the one before it stopped:
    on a stream that yields [x], then [xs], and is then exhausted,
    [findFirst] returns [x] and a [count] on the stream afterwards returns
    the length of [xs] only. *)
Theorem findFirst_consumes_its_element
  (Pipe T : Type) (PP : ProcessorPipeline Pipe T) (fuel : nat)
  (s : PipelineStream.t Pipe) (x : T) (xs : list T) (p1 p2 : Pipe) :
  Yields fuel (PipelineStream.pipeline s) (x :: xs) p1 ->
  getNextResult fuel p1 = Some (Empty, p2) ->
  length xs <= fuel ->
  exists s1,
    PipelineStream.findFirst fuel s = Some (Present x, s1, [PipelineStream.Pull])
    /\ PipelineStreamRest.count fuel s1
       = Some (Z.of_nat (length xs), PipelineStream.mk p2 true,
               repeat PipelineStreamRest.Pulled (S (length xs))).
Proof.
  intros Y Hend Hfuel.
  inversion Y as [|? ? p' ? ? Hpull Y']; subst.
  exists (PipelineStream.mk p' true). split.
  - unfold PipelineStream.findFirst. now apply getNextProcessedItem_eq.
  - eapply count_yields; eassumption.
Qed.

Lemma findFirst_consumes_its_element_witness :
  exists s1,
    PipelineStream.findFirst 3 (Stream.of_ [7; 8; 9]%Z)
    = Some (Present 7%Z, s1, [PipelineStream.Pull])
    /\ PipelineStreamRest.count 3 s1
       = Some (2%Z, PipelineStream.mk (Pipeline.mk (ArraySource.mk []) 4 []) true,
               repeat PipelineStreamRest.Pulled 3).
Proof.
  refine (@findFirst_consumes_its_element _ _ _ 3 (Stream.of_ [7; 8; 9]%Z) 7%Z [8; 9]%Z
            (Pipeline.mk (ArraySource.mk []) 3 [])
            (Pipeline.mk (ArraySource.mk []) 4 []) _ eq_refl _).
  - repeat (eapply Yields_cons; [reflexivity|]). apply Yields_nil.
  - cbn. lia.
Defined.

(** X15. When nothing is added after the first call, [hasNext] of the
    distinct processor is exact: before the first call it answers whether
    the queue is non-empty, and after [k >= 1] calls of [processAndGetNext]
    it answers whether more than [k] elements were kept, that is, whether a
    kept element is still to be handed out. *)
Theorem distinct_hasNext_is_exact_without_late_inputs
  (T : Type) (equalityTest : BiPredicate (JsValue T) (JsValue T))
  (xs : list (JsValue T)) :
  returned ((addAll xs ;; DistinctProcessor.hasNext)
              (DistinctProcessor.new equalityTest))
  = Some (0 <? length xs)%nat
  /\ forall n : nat,
      returned ((addAll xs ;; processAndGetNext_times (S n) ;; DistinctProcessor.hasNext)
                  (DistinctProcessor.new equalityTest))
      = Some (S n <? length (keepFirst equalityTest [] xs))%nat.
Proof.
  split.
  - rewrite (bind_Some _ _ _ (addAll_eq xs (DistinctProcessor.new equalityTest))).
    rewrite hasNext_eq. cbn. now rewrite orb_false_r.
  - intros n.
    rewrite (bind_Some _ _ _ (addAll_eq xs (DistinctProcessor.new equalityTest))).
    unfold DistinctProcessor.new, Optional.empty.
    cbn [DistinctProcessor.inputs DistinctProcessor.comparator
         DistinctProcessor.distinctList app].
    rewrite (bind_Some _ _ _
               (times_first n (DistinctProcessor.mk xs equalityTest Empty) eq_refl)).
    rewrite hasNext_eq.
    cbn [DistinctProcessor.inputs DistinctProcessor.comparator
         DistinctProcessor.distinctList returned].
    change (0 <? length (@nil (JsValue T)))%nat with false. cbn [orb].
    rewrite length_skipn. f_equal.
    destruct (Nat.ltb_spec (S n) (length (keepFirst equalityTest [] xs))),
             (Nat.ltb_spec 0 (length (keepFirst equalityTest [] xs) - S n));
      try reflexivity; lia.
Qed.

